(** * Memory management of the DLX teaching OS (lab4/heap-mgmt/os/memory.c)

    A shallow embedding of the frame allocator, the address translator and
    cross-space copier, the page fault handler and the buddy heap allocator,
    followed by the properties established about them.

    Conventions of the embedding.
    - C integers are values of [Z]; conversions to [int] and [uint32] are
      written out with [to_int] and [to_uint32].
    - Arrays are lists read with [!!]; a [Node *] is an index into the
      process's [heap_array] ([None] is the NULL pointer).
    - A C execution that leaves defined behaviour (an access outside an
      array, a NULL or indeterminate pointer dereference, a shift by 32 bits
      or more) has outcome [Undefined]; an unbounded loop or recursion is cut
      by a fuel argument and has outcome [Timeout] when it runs out.
    - [printf] and [dbprintf] calls are left out, and with them the calls
      of MemoryTranslateUserToSystem whose result is only printed; a read
      that is made for printing is kept where its index can leave the
      array, as [heap_array[block]] in [malloc]. *)

From Stdlib Require Import ZArith Lia Bool List.
From stdpp Require Import base numbers option list.

Local Open Scope Z_scope.

(** ** Machine integers *)

Definition to_uint32 (x : Z) : Z := x mod 2 ^ 32.
Definition to_int (x : Z) : Z := (x + 2 ^ 31) mod 2 ^ 32 - 2 ^ 31.

(** ** Outcomes of a C execution *)

Inductive outcome (A : Type) : Type :=
  | Done (a : A)
  | Undefined
  | Timeout.
Arguments Done {A} a.
Arguments Undefined {A}.
Arguments Timeout {A}.

#[global] Instance outcome_ret : MRet outcome := fun A a => Done a.
#[global] Instance outcome_bind : MBind outcome := fun A B f c =>
  match c with
  | Done a => f a
  | Undefined => Undefined
  | Timeout => Timeout
  end.

(** A counted [for] loop whose index runs through [idx]. *)
Fixpoint for_loop {S : Type} (body : Z -> S -> outcome S) (idx : list Z) (s : S)
  : outcome S :=
  match idx with
  | [] => Done s
  | i :: rest => s' ← body i s; for_loop body rest s'
  end.

(** ** Constants of memory.h and process.h

    The headers are not part of the sources at hand; their constants are
    parameters of the development.  What a property needs to know about
    them is stated as a hypothesis of that property. *)

Class MemConstants := {
  MEM_PAGESIZE : Z;
  MEM_ADDR_OFFS_MASK : Z;
  MEM_PAGE_OFFSET_MASK : Z;
  MEM_PTE_VALID : Z;
  MEM_MASK_PTE2PAGE : Z;
  MEM_NUM_PAGES : Z;
  MEM_NUM_NODES : Z;
  MEM_SUCCESS : Z;
  MEM_FAIL : Z;
  PROCESS_STACK_USER_STACKPOINTER : nat;
  PROCESS_STACK_FAULT : nat
}.

(** Modelled from the spec: the values of the constants of memory.h and
    process.h, which are not among the sources.  The page size and the
    number of frames are the ones the literals of memory.c are written for
    (0x1FF000 keeps the page number of a 21-bit address with 12 offset
    bits, and [freemap[16]] holds one bit for each of the 512 frames of
    2MB); the failure value is one of the "fixed negative constants" of the
    spec; the heap has the 256 slots of a tree of root order 7 over one
    page with blocks of at least 32 bytes. *)
Definition dlx_constants : MemConstants := {|
  MEM_PAGESIZE := 0x1000;
  MEM_ADDR_OFFS_MASK := 0xFFF;
  MEM_PAGE_OFFSET_MASK := 0xFFF;
  MEM_PTE_VALID := 0x1;
  MEM_MASK_PTE2PAGE := 0xFFFFFFF8;
  MEM_NUM_PAGES := 512;
  MEM_NUM_NODES := 256;
  MEM_SUCCESS := 1;
  MEM_FAIL := -1;
  PROCESS_STACK_USER_STACKPOINTER := 0;
  PROCESS_STACK_FAULT := 1
|}.

Section Memory.
Context {C : MemConstants}.

(** Modelled from the spec: the macro MEM_ADDR2PAGE of memory.h, which
    "splits the address into page number and in-page offset". *)
Definition MEM_ADDR2PAGE (addr : Z) : Z := addr / MEM_PAGESIZE.

(** Modelled from the spec: the macro MEM_ADDR2OFFS of memory.h, the
    in-page offset of an address. *)
Definition MEM_ADDR2OFFS (addr : Z) : Z := addr mod MEM_PAGESIZE.

(** ** Frame allocator *)

(** The static variables of memory.c. *)
Record FreeMapState := mkFreeMapState {
  freemapmax : Z;
  freemap : list Z;
  pagestart : Z;
  nfreepages : Z
}.

Definition set_freemap (fm : list Z) (st : FreeMapState) : FreeMapState :=
  mkFreeMapState (freemapmax st) fm (pagestart st) (nfreepages st).
Definition set_nfreepages (n : Z) (st : FreeMapState) : FreeMapState :=
  mkFreeMapState (freemapmax st) (freemap st) (pagestart st) n.

Definition negativeone : Z := to_int 0xFFFFFFFF.
Definition invert (n : Z) : Z := Z.lxor n (to_uint32 negativeone).

(** [1 << bit_position], converted to [uint32]. *)
Definition bit_mask (bit_position : Z) : Z := to_uint32 (Z.shiftl 1 bit_position).

Definition MemoryEditFreemap (page val : Z) (st : FreeMapState)
  : outcome FreeMapState :=
  let index := to_uint32 (Z.quot page 32) in
  let bit_position := to_uint32 (Z.rem page 32) in
  if decide (32 <= bit_position) then Undefined else
  match freemap st !! Z.to_nat index with
  | None => Undefined
  | Some w =>
      Done (set_freemap
              (<[Z.to_nat index :=
                   Z.lor (Z.land w (invert (bit_mask bit_position)))
                         (to_uint32 (Z.shiftl val bit_position))]> (freemap st))
              st)
  end.

(** The body [freemap[i] = 0] of the first loop of MemoryModuleInit. *)
Definition clear_word (i : Z) (st : FreeMapState) : outcome FreeMapState :=
  if decide (Z.to_nat i < length (freemap st))%nat
  then Done (set_freemap (<[Z.to_nat i := 0]> (freemap st)) st)
  else Undefined.

(** The body [nfreepages += 1; MemoryEditFreemap(i, 1)] of its second loop. *)
Definition mark_free (i : Z) (st : FreeMapState) : outcome FreeMapState :=
  MemoryEditFreemap i 1 (set_nfreepages (to_int (nfreepages st + 1)) st).

(** [memsize] is the value that MemoryGetSize reads from the simulator and
    [lastosaddress] the variable that marks the end of the kernel image. *)
Definition MemoryModuleInit (memsize lastosaddress : Z) (st : FreeMapState)
  : outcome FreeMapState :=
  let maxpage := Z.quot memsize MEM_PAGESIZE in
  let ospages := to_uint32 (Z.land lastosaddress 0x1FFFFC / MEM_PAGESIZE) in
  let st := set_nfreepages (to_int (MEM_NUM_PAGES - ospages)) st in
  let st := mkFreeMapState (to_int (Z.quot (maxpage + 31) 32)) (freemap st)
                           (to_uint32 (ospages + 1)) (nfreepages st) in
  let st := set_nfreepages 0 st in
  st ← for_loop clear_word (seqZ 0 (freemapmax st)) st;
  for_loop mark_free (seqZ (to_int (pagestart st)) (maxpage - to_int (pagestart st))) st.

(** The [while] loop of MemoryAllocPage that looks for a word of the
    bitmap that is not zero, starting from [index]. *)
Fixpoint find_word (fuel : nat) (st : FreeMapState) (index : Z) : outcome Z :=
  match freemap st !! Z.to_nat index with
  | None => Undefined
  | Some w =>
      if decide (w = 0) then
        match fuel with
        | O => Timeout
        | S fuel' =>
            let index := to_int (index + 1) in
            let index := if decide (index >= freemapmax st) then 0 else index in
            find_word fuel' st index
        end
      else Done index
  end.

(** The [for] loop of MemoryAllocPage that looks for the first bit set in
    [fm_segment]; it has no bound of its own, and shifting by 32 bits is
    where it leaves defined behaviour. *)
Fixpoint find_bit (left_bits : nat) (fm_segment bit_position : Z) : outcome Z :=
  match left_bits with
  | O => Undefined
  | S left_bits' =>
      if decide (Z.land fm_segment (bit_mask bit_position) = 0)
      then find_bit left_bits' fm_segment (bit_position + 1)
      else Done bit_position
  end.

Definition MemoryAllocPage (fuel : nat) (st : FreeMapState)
  : outcome (Z * FreeMapState) :=
  if decide (nfreepages st = 0) then Done (MEM_FAIL, st) else
  index ← find_word fuel st 0;
  match freemap st !! Z.to_nat index with
  | None => Undefined
  | Some fm_segment =>
      bit_position ← find_bit 32 fm_segment 0;
      let st := set_freemap
                  (<[Z.to_nat index :=
                       Z.land fm_segment (invert (bit_mask bit_position))]>
                     (freemap st)) st in
      let fm_segment := to_uint32 (index * 32 + bit_position) in
      let st := set_nfreepages (to_int (nfreepages st - 1)) st in
      Done (to_int fm_segment, st)
  end.

Definition MemorySetupPte (page : Z) : Z :=
  Z.lor (to_uint32 (page * MEM_PAGESIZE)) (to_uint32 MEM_PTE_VALID).

Definition MemoryFreePage (page : Z) (st : FreeMapState) : outcome FreeMapState :=
  st ← MemoryEditFreemap (to_int page) 1 st;
  Done (set_nfreepages (to_int (nfreepages st + 1)) st).

Definition MemoryFreePageTableEntry (pte : Z) (st : FreeMapState)
  : outcome FreeMapState :=
  MemoryFreePage (Z.land pte (to_uint32 MEM_MASK_PTE2PAGE) / to_uint32 MEM_PAGESIZE) st.

(** ** Address translation and copies between address spaces *)

(** A heap block descriptor; a [Node *] is the index of the node in
    [heap_array]. *)
Record Node := mkNode {
  index : Z;
  order : Z;
  size : Z;
  address : Z;
  inuse : Z;
  parent : option nat;
  left : option nat;
  right : option nat
}.

#[global] Instance Node_inhabited : Inhabited Node :=
  populate (mkNode 0 0 0 0 0 None None None).

(** The fields of a process control block that memory.c uses. *)
Record PCB := mkPCB {
  currentSavedFrame : list Z;
  pagetable : list Z;
  npages : Z;
  heap_array : list Node
}.

Definition set_pagetable (pt : list Z) (pcb : PCB) : PCB :=
  mkPCB (currentSavedFrame pcb) pt (npages pcb) (heap_array pcb).
Definition set_npages (n : Z) (pcb : PCB) : PCB :=
  mkPCB (currentSavedFrame pcb) (pagetable pcb) n (heap_array pcb).
Definition set_heap_array (h : list Node) (pcb : PCB) : PCB :=
  mkPCB (currentSavedFrame pcb) (pagetable pcb) (npages pcb) h.

Definition MemoryTranslateUserToSystem (pcb : PCB) (addr : Z) : outcome Z :=
  let page := MEM_ADDR2PAGE addr in
  let offset := MEM_ADDR2OFFS addr in
  match pagetable pcb !! Z.to_nat page with
  | None => Undefined
  | Some pte =>
      if decide (Z.land pte (to_uint32 MEM_PTE_VALID) <> 0)
      then Done (Z.lor (Z.land pte (to_uint32 MEM_MASK_PTE2PAGE)) offset)
      else Done (to_uint32 MEM_FAIL)
  end.

(** Physical memory, one byte per address. *)
Definition memory := Z -> Z.

(** [bcopy src dst n]: the [n] bytes at [src] are copied to [dst]. *)
Definition bcopy (src dst n : Z) (m : memory) : memory :=
  fun a => if decide (dst <= a < dst + n) then m (src + (a - dst)) else m a.

(** The [while] loop of MemoryMoveBetweenSpaces; the result is the value of
    [bytesCopied] when the loop is left, with the memory it leaves. *)
Fixpoint move_loop (fuel : nat) (pcb : PCB) (dir : Z)
    (m : memory) (system user n bytesCopied : Z) : outcome (Z * memory) :=
  if decide (n > 0) then
    match fuel with
    | O => Timeout
    | S fuel' =>
        curUser ← MemoryTranslateUserToSystem pcb (to_uint32 user);
        if decide (curUser = 0) then Done (bytesCopied, m) else
        let bytesToCopy := to_int (MEM_PAGESIZE - Z.land curUser (to_uint32 MEM_ADDR_OFFS_MASK)) in
        let bytesToCopy := if decide (bytesToCopy > n) then n else bytesToCopy in
        let m := if decide (dir >= 0)
                 then bcopy system curUser bytesToCopy m
                 else bcopy curUser system bytesToCopy m in
        move_loop fuel' pcb dir m
                  (to_uint32 (system + bytesToCopy)) (to_uint32 (user + bytesToCopy))
                  (to_int (n - bytesToCopy)) (to_int (bytesCopied + bytesToCopy))
    end
  else Done (bytesCopied, m).

Definition MemoryMoveBetweenSpaces (fuel : nat) (pcb : PCB) (m : memory)
    (system user n dir : Z) : outcome (Z * memory) :=
  move_loop fuel pcb dir m system user n 0.

Definition MemoryCopySystemToUser (fuel : nat) (pcb : PCB) (m : memory)
    (from to n : Z) : outcome (Z * memory) :=
  MemoryMoveBetweenSpaces fuel pcb m from to n 1.

Definition MemoryCopyUserToSystem (fuel : nat) (pcb : PCB) (m : memory)
    (from to n : Z) : outcome (Z * memory) :=
  MemoryMoveBetweenSpaces fuel pcb m to from n (-1).

(** ** Page fault handler *)

(** What the handler works on: the faulting process, the frame allocator,
    and whether the process has been terminated. *)
Record Kernel := mkKernel {
  k_pcb : PCB;
  k_frames : FreeMapState;
  k_killed : bool
}.

(** Modelled from the spec: ProcessKill of process.c, which "terminates the
    owning process".  The termination is recorded and control comes back
    to the caller, as the [return MEM_FAIL] that follows the first call in
    MemoryPageFaultHandler expects. *)
Definition ProcessKill (k : Kernel) : Kernel :=
  mkKernel (k_pcb k) (k_frames k) true.

Definition MemoryPageFaultHandler (fuel : nat) (k : Kernel) : outcome (Z * Kernel) :=
  match currentSavedFrame (k_pcb k) !! PROCESS_STACK_USER_STACKPOINTER,
        currentSavedFrame (k_pcb k) !! PROCESS_STACK_FAULT with
  | Some user_stack_ptr, Some fault_addr =>
      let pg_fault_addr := to_int (MEM_ADDR2PAGE fault_addr) in
      let user_stack_ptr := Z.land user_stack_ptr 0x1FF000 in
      if decide (fault_addr < user_stack_ptr) then
        Done (MEM_FAIL, ProcessKill k)
      else
        '(genPage, frames) ← MemoryAllocPage fuel (k_frames k);
        let k := mkKernel (k_pcb k) frames (k_killed k) in
        let k := if decide (genPage = MEM_FAIL) then ProcessKill k else k in
        if decide (0 <= pg_fault_addr /\
                   (Z.to_nat pg_fault_addr < length (pagetable (k_pcb k)))%nat) then
          let pcb := set_pagetable
                       (<[Z.to_nat pg_fault_addr := MemorySetupPte (to_uint32 genPage)]>
                          (pagetable (k_pcb k))) (k_pcb k) in
          let pcb := set_npages (to_int (npages pcb + 1)) pcb in
          Done (MEM_SUCCESS, mkKernel pcb (k_frames k) (k_killed k))
        else Undefined
  | _, _ => Undefined
  end.

(** ** Buddy heap allocator *)

Definition set_inuse (v : Z) (n : Node) : Node :=
  mkNode (index n) (order n) (size n) (address n) v (parent n) (left n) (right n).
Definition set_parent (p : option nat) (n : Node) : Node :=
  mkNode (index n) (order n) (size n) (address n) (inuse n) p (left n) (right n).
Definition set_left (p : option nat) (n : Node) : Node :=
  mkNode (index n) (order n) (size n) (address n) (inuse n) (parent n) p (right n).
Definition set_right (p : option nat) (n : Node) : Node :=
  mkNode (index n) (order n) (size n) (address n) (inuse n) (parent n) (left n) p.
Definition set_size (v : Z) (n : Node) : Node :=
  mkNode (index n) (order n) v (address n) (inuse n) (parent n) (left n) (right n).
Definition set_order (v : Z) (n : Node) : Node :=
  mkNode (index n) v (size n) (address n) (inuse n) (parent n) (left n) (right n).
Definition set_address (v : Z) (n : Node) : Node :=
  mkNode (index n) (order n) (size n) v (inuse n) (parent n) (left n) (right n).

(** The test [(memsize <= node->size) && (memsize > (node->size / 2))]. *)
Definition fits (memsize : Z) (n : Node) : Prop :=
  memsize <= size n /\ memsize > Z.quot (size n) 2.

#[global] Instance fits_dec memsize n : Decision (fits memsize n).
Proof. unfold fits. apply _. Defined.

(** The test [(node->left == NULL) && (node->inuse == 0)]. *)
Definition free_leaf (n : Node) : Prop := left n = None /\ inuse n = 0.

#[global] Instance free_leaf_dec n : Decision (free_leaf n).
Proof. unfold free_leaf. apply _. Defined.

Fixpoint MemoryNodeSearch (fuel : nat) (h : list Node) (node : option nat)
    (memsize : Z) : outcome (Z * list Node) :=
  match fuel with
  | O => Timeout
  | S fuel' =>
      match node with
      | None => Done (-1, h)
      | Some i =>
          match h !! i with
          | None => Undefined
          | Some n =>
              if decide (free_leaf n) then
                if decide (fits memsize n)
                then Done (address n, <[i := set_inuse 1 n]> h)
                else Done (-1, h)
              else
                '(temp_node, h) ← MemoryNodeSearch fuel' h (left n) memsize;
                if decide (temp_node >= 0) then Done (temp_node, h)
                else MemoryNodeSearch fuel' h (right (h !!! i)) memsize
          end
      end
  end.

(** The creation of the two children of node [i] in MemorySplitNode, one
    assignment after the other.  [l] and [r] are the pointers
    [&heap_array[2*node->index]] and [&heap_array[2*node->index+1]]. *)
Definition split_children (h : list Node) (i l r : nat) : list Node :=
  let h := alter (set_parent (Some i)) l h in
  let h := alter (set_left None) l h in
  let h := alter (set_right None) l h in
  let h := alter (set_size (Z.quot (size (h !!! i)) 2)) l h in
  let h := alter (set_order (to_int (order (h !!! i) - 1))) l h in
  let h := alter (set_address (address (h !!! i))) l h in
  let h := alter (set_parent (Some i)) r h in
  let h := alter (set_left None) r h in
  let h := alter (set_right None) r h in
  let h := alter (set_size (Z.quot (size (h !!! i)) 2)) r h in
  let h := alter (set_order (to_int (order (h !!! i) - 1))) r h in
  let h := alter (set_address (to_int (address (h !!! i) + size (h !!! r)))) r h in
  let h := alter (set_left (Some l)) i h in
  alter (set_right (Some r)) i h.

(** The index of [heap_array] that a C array index designates, when it is
    within the array. *)
Definition slot (h : list Node) (i : Z) : option nat :=
  if decide (0 <= i /\ (Z.to_nat i < length h)%nat) then Some (Z.to_nat i) else None.

Fixpoint MemorySplitNode (fuel : nat) (h : list Node) (node : option nat)
    (memsize : Z) : outcome (Z * list Node) :=
  match fuel with
  | O => Timeout
  | S fuel' =>
      match node with
      | None => Done (-1, h)
      | Some i =>
          match h !! i with
          | None => Undefined
          | Some n =>
              let descend (h : list Node) :=
                '(temp_node, h) ← MemorySplitNode fuel' h (left (h !!! i)) memsize;
                if decide (temp_node >= 0) then Done (temp_node, h)
                else MemorySplitNode fuel' h (right (h !!! i)) memsize in
              if decide (free_leaf n) then
                if decide (fits memsize n)
                then Done (address n, <[i := set_inuse 1 n]> h)
                else if decide (Z.quot (size n) 2 < memsize) then Done (-1, h)
                else if decide (order n = 0) then Done (-1, h)
                else
                  match slot h (to_int (2 * index n)),
                        slot h (to_int (2 * index n + 1)) with
                  | Some l, Some r => descend (split_children h i l r)
                  | _, _ => Undefined
                  end
              else descend h
          end
      end
  end.

(** [malloc] returns a pointer; NULL is 0. *)
Definition NULL : Z := 0.

(** The read [size = pcb->heap_array[block].size] of [malloc].  [block] is
    what MemoryNodeSearch and MemorySplitNode return, the address of the
    block in bytes, and it is used as an index of the node array. *)
Definition read_size (pcb : PCB) (block : Z) : outcome Z :=
  match slot (heap_array pcb) block with
  | Some i => Done (size (heap_array pcb !!! i))
  | None => Undefined
  end.

Definition malloc (fuel : nat) (pcb : PCB) (memsize : Z) : outcome (Z * PCB) :=
  if decide (memsize <= 0 \/ memsize > MEM_PAGESIZE) then Done (NULL, pcb) else
  '(block, h) ← MemoryNodeSearch fuel (heap_array pcb) (Some 1%nat) memsize;
  let pcb := set_heap_array h pcb in
  if decide (block >= 0) then
    sz ← read_size pcb block;
    let virtual_address := to_int (Z.lor (MEM_PAGESIZE * 4) block) in
    Done (to_uint32 virtual_address, pcb)
  else
    '(block, h) ← MemorySplitNode fuel (heap_array pcb) (Some 1%nat) memsize;
    let pcb := set_heap_array h pcb in
    if decide (block >= 0) then
      sz ← read_size pcb block;
      let virtual_address := to_int (Z.lor (MEM_PAGESIZE * 4) block) in
      Done (to_uint32 virtual_address, pcb)
    else Done (NULL, pcb).

Definition reset_node (n : Node) : Node :=
  set_right None (set_left None (set_inuse 0 n)).

Fixpoint MemoryCoalescing (fuel : nat) (h : list Node) (node : option nat)
  : outcome (list Node) :=
  match fuel with
  | O => Timeout
  | S fuel' =>
      match node with
      | None => Done h
      | Some k =>
          match h !! k with
          | None => Undefined
          | Some _ =>
              let h := alter reset_node k h in
              match parent (h !!! k) with
              | None => Done h
              | Some p =>
                  match h !! p with
                  | None => Undefined
                  | Some np =>
                      let buddy :=
                        if decide (left np = Some k) then right np else left np in
                      match buddy with
                      | None => Undefined
                      | Some b =>
                          match h !! b with
                          | None => Undefined
                          | Some nb =>
                              if decide (inuse nb = 0)
                              then MemoryCoalescing fuel' h (Some p)
                              else Done h
                          end
                      end
                  end
              end
          end
      end
  end.

(** The [for] loop of mfree: the pointer left in [node] after the array
    has been scanned from [i] on, [node] being its value so far. *)
Fixpoint find_node (h : list Node) (heap_address : Z) (idx : list Z)
    (node : option nat) : outcome (option nat) :=
  match idx with
  | [] => Done node
  | i :: rest =>
      match h !! Z.to_nat i with
      | None => Undefined
      | Some n =>
          find_node h heap_address rest
            (if decide (address n = heap_address) then Some (Z.to_nat i) else node)
      end
  end.

(** What [mfree] does once its two guards have let the pointer through.
    The local [node] is not initialised: when no node of the array matches,
    the pointer handed to MemoryCoalescing and read by [node->size] is
    indeterminate. *)
Definition free_block (fuel : nat) (pcb : PCB) (ptr : Z) : outcome (Z * PCB) :=
  let heap_address := Z.land (to_int ptr) MEM_PAGE_OFFSET_MASK in
  node ← find_node (heap_array pcb) heap_address (seqZ 1 (MEM_NUM_NODES - 1)) None;
  match node with
  | None => Undefined
  | Some k =>
      h ← MemoryCoalescing fuel (heap_array pcb) (Some k);
      Done (size (h !!! k), set_heap_array h pcb)
  end.

Definition mfree (fuel : nat) (pcb : PCB) (ptr : Z) : outcome (Z * PCB) :=
  if decide (ptr = NULL) then Done (MEM_FAIL, pcb) else
  if decide (to_int ptr >= 5 * MEM_PAGESIZE \/ to_int ptr < 4 * MEM_PAGESIZE)
  then Done (MEM_FAIL, pcb) else
  free_block fuel pcb ptr.

(** ** Vocabulary of the properties: the frame allocator *)

(** Bit [p] of the bitmap is set: frame [p] is free. *)
Definition frame_free (st : FreeMapState) (p : Z) : bool :=
  bool_decide (0 <= p) &&
  match freemap st !! Z.to_nat (p / 32) with
  | Some w => Z.testbit w (p mod 32)
  | None => false
  end.

(** The free frames that the allocator scans, lowest first. *)
Definition free_frames (st : FreeMapState) : list Z :=
  filter (fun p => frame_free st p = true) (seqZ 0 (32 * freemapmax st)).

(** The bitmap is the array [uint32 freemap[16]] and [freemapmax] words of
    it are in use. *)
Definition bitmap_ok (st : FreeMapState) : Prop :=
  length (freemap st) = 16%nat /\
  0 <= freemapmax st <= 16 /\
  Forall (fun w => 0 <= w < 2 ^ 32) (freemap st).

(** The recorded free count is the number of bits set in the words in use. *)
Definition frames_consistent (st : FreeMapState) : Prop :=
  bitmap_ok st /\ nfreepages st = Z.of_nat (length (free_frames st)).

(** The static variables before MemoryModuleInit runs: C initialises them
    to zero. *)
Definition static_state : FreeMapState :=
  mkFreeMapState 0 (replicate 16%nat 0) 0 0.

(** The frames that are not occupied by the kernel image, for a memory of
    [maxpage] frames. *)
Definition usable_frames (st : FreeMapState) (maxpage : Z) : list Z :=
  seqZ (pagestart st) (maxpage - pagestart st).

Definition total_usable_frames (st : FreeMapState) (maxpage : Z) : Z :=
  Z.of_nat (length (usable_frames st maxpage)).

Definition free_count (st : FreeMapState) : Z := nfreepages st.

Definition allocated_count (st : FreeMapState) (maxpage : Z) : Z :=
  Z.of_nat (length (filter (fun p => frame_free st p = false) (usable_frames st maxpage))).

(** [frames_run st0 st held]: [st] is the state after a sequence of
    MemoryAllocPage and MemoryFreePage calls started in [st0], and [held]
    lists the frames that were handed out and not given back since.  A
    frame is only freed while it is held. *)
Inductive frames_run (st0 : FreeMapState) : FreeMapState -> list Z -> Prop :=
  | run_start : frames_run st0 st0 []
  | run_alloc st held fuel p st' :
      frames_run st0 st held ->
      MemoryAllocPage fuel st = Done (p, st') ->
      p <> MEM_FAIL ->
      frames_run st0 st' (p :: held)
  | run_exhausted st held fuel st' :
      frames_run st0 st held ->
      MemoryAllocPage fuel st = Done (MEM_FAIL, st') ->
      frames_run st0 st' held
  | run_free st held p st' :
      frames_run st0 st held ->
      p ∈ held ->
      MemoryFreePage p st = Done st' ->
      frames_run st0 st' (filter (fun q => q <> p) held).

(** Frame number [p] fits the page-number field of a page table entry:
    shifted to its place it is a 32-bit value made of bits that
    MEM_MASK_PTE2PAGE keeps. *)
Definition pte_page_representable (p : Z) : Prop :=
  0 <= p /\ p * MEM_PAGESIZE < 2 ^ 32 /\
  Z.land (p * MEM_PAGESIZE) (to_uint32 MEM_MASK_PTE2PAGE) = p * MEM_PAGESIZE.

(** The state reached by the second loop of MemoryModuleInit when it has
    marked the frames from [ps] up to [j]. *)
Definition marked_up_to (ps j : Z) (fmax : Z) (st : FreeMapState) : Prop :=
  bitmap_ok st /\ freemapmax st = fmax /\ pagestart st = ps /\
  (forall p, frame_free st p = true <-> ps <= p < j) /\
  nfreepages st = j - ps.

(** What holds of the allocator state [st] and of the frames [held] after
    a run that started in [st0], for a memory of [maxpage] frames. *)
Definition frames_inv (st0 : FreeMapState) (maxpage : Z)
    (st : FreeMapState) (held : list Z) : Prop :=
  bitmap_ok st /\
  freemapmax st = freemapmax st0 /\ pagestart st = pagestart st0 /\
  0 <= pagestart st /\ maxpage <= 32 * freemapmax st /\
  (forall p, frame_free st p = true -> pagestart st <= p < maxpage) /\
  nfreepages st =
    Z.of_nat (length (filter (fun p => frame_free st p = true) (usable_frames st maxpage))) /\
  (forall p, p ∈ held <-> pagestart st <= p < maxpage /\ frame_free st p = false).

(** ** Vocabulary of the properties: the buddy heap *)

(** The two guards at the head of [mfree]. *)
Definition mfree_rejects (ptr : Z) : Prop :=
  ptr = NULL \/ to_int ptr >= 5 * MEM_PAGESIZE \/ to_int ptr < 4 * MEM_PAGESIZE.

(** The block of node [m], stored at index [j], lies in the heap page, and
    the subtree that can grow below [j] fits the array. *)
Definition good (j : nat) (m : Node) : Prop :=
  0 <= address m /\ 0 <= size m /\ address m + size m <= MEM_PAGESIZE /\
  0 <= order m /\ (Z.of_nat j + 1) * 2 ^ order m <= MEM_NUM_NODES.

(** Node [c] is in the array, is good, and points back to [i]. *)
Definition linked (h : list Node) (i c : nat) : Prop :=
  exists m, h !! c = Some m /\ good c m /\ parent m = Some i.

(** Node [n], stored at index [i], carries its index and has either no
    child or the two children at [2i] and [2i+1]. *)
Definition node_ok (h : list Node) (i : nat) (n : Node) : Prop :=
  index n = Z.of_nat i /\
  ((left n = None /\ right n = None) \/
   ((1 <= i)%nat /\ left n = Some (2 * i)%nat /\ right n = Some (2 * i + 1)%nat /\
    linked h i (2 * i) /\ linked h i (2 * i + 1))).

(** The invariant of a process's heap array. *)
Definition heap_wf (h : list Node) : Prop :=
  Z.of_nat (length h) = MEM_NUM_NODES /\
  (exists n, h !! 1%nat = Some n /\ good 1 n /\ parent n = None) /\
  (forall i n, h !! i = Some n -> node_ok h i n).

(** Node [i] is in the array and good: the root and every child are. *)
Definition good_at (h : list Node) (i : nat) : Prop :=
  (1 <= i)%nat /\ exists n, h !! i = Some n /\ good i n.

(** Modelled from the spec: the heap array as process creation leaves it
    (process.c is not among the sources).  "Nodes begin inert (unsplit
    root)": every node carries its index, has no parent and no child and is
    not in use, and "the root (index 1) spans the entire heap region" with
    the root order [max_order]. *)
Definition heap_initial (max_order : Z) (h : list Node) : Prop :=
  Z.of_nat (length h) = MEM_NUM_NODES /\
  (forall i n, h !! i = Some n ->
     index n = Z.of_nat i /\ parent n = None /\ left n = None /\ right n = None /\
     inuse n = 0) /\
  exists root, h !! 1%nat = Some root /\
     order root = max_order /\ size root = MEM_PAGESIZE /\ address root = 0.

(** The heap arrays that [malloc] and [mfree] calls that return can
    produce from an initial one. *)
Inductive heap_reachable (max_order : Z) : list Node -> Prop :=
  | reach_initial h : heap_initial max_order h -> heap_reachable max_order h
  | reach_malloc fuel pcb memsize ptr pcb' :
      heap_reachable max_order (heap_array pcb) ->
      malloc fuel pcb memsize = Done (ptr, pcb') ->
      heap_reachable max_order (heap_array pcb')
  | reach_mfree fuel pcb ptr res pcb' :
      heap_reachable max_order (heap_array pcb) ->
      mfree fuel pcb ptr = Done (res, pcb') ->
      heap_reachable max_order (heap_array pcb').

(** A call that answers request [r] with address [res] has left heap [h']:
    [h'] is [h0] with the free leaf [m] at index [j] marked in use. *)
Definition marks (r res : Z) (h' : list Node) : Prop :=
  exists j m h0,
    h' = <[j := set_inuse 1 m]> h0 /\ h0 !! j = Some m /\
    free_leaf m /\ fits r m /\ address m = res.

(** What the heap invariant needs of the constants: the array index and
    the addresses of the heap page are [int] values. *)
Definition heap_constants_ok : Prop :=
  MEM_NUM_NODES < 2 ^ 30 /\ 0 <= MEM_PAGESIZE /\ 5 * MEM_PAGESIZE <= 2 ^ 31.

(** Node [n'] is node [n] with another [inuse] flag, and with its children
    kept or dropped. *)
Definition keeps (n n' : Node) : Prop :=
  index n' = index n /\ order n' = order n /\ size n' = size n /\
  address n' = address n /\ parent n' = parent n /\
  ((left n' = left n /\ right n' = right n) \/ (left n' = None /\ right n' = None)).

(** Node [k] belongs to the tree: it is reached from the root through
    child pointers. *)
Inductive live (h : list Node) : nat -> Prop :=
  | live_root : live h 1
  | live_left i n l : live h i -> h !! i = Some n -> left n = Some l -> live h l
  | live_right i n r : live h i -> h !! i = Some n -> right n = Some r -> live h r.

(** The sibling of node [k] under its parent [np]. *)
Definition sibling (np : Node) (k : nat) : option nat :=
  if decide (left np = Some k) then right np else left np.

(** The nodes that MemoryCoalescing clears when it is called on node [k]
    of heap [h], from [k] upwards: it goes on to the parent when the
    [inuse] field of the sibling is 0, the test of the code. *)
Inductive reset_chain : list Node -> nat -> list nat -> Prop :=
  | reset_root h k n :
      h !! k = Some n -> parent n = None -> reset_chain h k [k]
  | reset_stop h k n p np b nb :
      h !! k = Some n -> parent n = Some p ->
      h !! p = Some np -> sibling np k = Some b -> h !! b = Some nb ->
      inuse nb <> 0 ->
      reset_chain h k [k]
  | reset_up h k n p np b nb path :
      h !! k = Some n -> parent n = Some p ->
      h !! p = Some np -> sibling np k = Some b -> h !! b = Some nb ->
      inuse nb = 0 ->
      reset_chain (alter reset_node k h) p path ->
      reset_chain h k (k :: path).

(** Following the spec's words: a block is either free or allocated, and
    only a leaf can be allocated, so that a block is free when no part of
    it is handed out: a leaf that is not in use, or a split node whose two
    halves are free. *)
Inductive block_free (h : list Node) : nat -> Prop :=
  | free_whole b nb :
      h !! b = Some nb -> inuse nb = 0 -> left nb = None -> block_free h b
  | free_halves b nb l r :
      h !! b = Some nb -> inuse nb = 0 ->
      left nb = Some l -> right nb = Some r ->
      block_free h l -> block_free h r -> block_free h b.

(** Following the spec's words for coalescing: "freeing a block whose
    sibling is free merges both into the parent, recursively, until
    reaching a non-free sibling or the root; freeing a block whose sibling
    is still allocated leaves the parent split".  [merge_chain h k path]:
    freeing [k] in heap [h] merges along [path], from [k] upwards. *)
Inductive merge_chain : list Node -> nat -> list nat -> Prop :=
  | chain_root h k n :
      h !! k = Some n -> parent n = None -> merge_chain h k [k]
  | chain_stop h k n p np b :
      h !! k = Some n -> parent n = Some p ->
      h !! p = Some np -> sibling np k = Some b ->
      ~ block_free h b ->
      merge_chain h k [k]
  | chain_up h k n p np b path :
      h !! k = Some n -> parent n = Some p ->
      h !! p = Some np -> sibling np k = Some b ->
      block_free h b ->
      merge_chain (alter reset_node k h) p path ->
      merge_chain h k (k :: path).

(** The block that the buddy scheme assigns to index [j] of the array, for
    a root of order [max_order] and blocks of at least [min_block] bytes:
    the order of the node is [max_order] less the depth of [j] in the
    tree, its size is [min_block * 2 ^ order], and it is block number
    [j - 2 ^ depth] of that size in the page. *)
Definition layout (max_order min_block : Z) (j : nat) (m : Node) : Prop :=
  order m = max_order - Z.log2 (Z.of_nat j) /\
  size m = min_block * 2 ^ order m /\
  address m = (Z.of_nat j - 2 ^ Z.log2 (Z.of_nat j)) * size m.

(** The root and every node that a child pointer designates hold the
    block of their index. *)
Definition heap_laid (max_order min_block : Z) (h : list Node) : Prop :=
  (forall n, h !! 1%nat = Some n -> layout max_order min_block 1 n) /\
  (forall i n c m, h !! i = Some n -> left n = Some c \/ right n = Some c ->
                   h !! c = Some m -> layout max_order min_block c m).

(** Node [i] is in the array, good, holds the block of its index and
    belongs to the tree. *)
Definition placed (max_order min_block : Z) (h : list Node) (i : nat) : Prop :=
  good_at h i /\ (exists n, h !! i = Some n /\ layout max_order min_block i n) /\ live h i.

(** A call that answers with address [res] has marked node [j] of the
    tree, which was the free leaf [m] and fits request [r]. *)
Definition serves (max_order min_block : Z) (r res : Z) (h' : list Node)
    (j : nat) (m : Node) : Prop :=
  h' !! j = Some (set_inuse 1 m) /\ free_leaf m /\ fits r m /\ address m = res /\
  layout max_order min_block j m /\ good j m /\ live h' j.

(** Index [j] lies in the subtree of index [a]. *)
Inductive below (a : nat) : nat -> Prop :=
  | below_self : below a a
  | below_left j : below a j -> below a (2 * j)
  | below_right j : below a j -> below a (2 * j + 1).

(** Where node [x], with content [nx], comes from in heap [h]: it is the
    free leaf [a] of the tree of [h] itself, or it was not part of that
    tree and lies below the free leaf [a] of it. *)
Definition comes_from (h : list Node) (x : nat) (nx : Node)
    (a : nat) (na : Node) : Prop :=
  below a x /\ live h a /\ h !! a = Some na /\ free_leaf na /\
  (a = x -> na = nx) /\ (a <> x -> ~ live h x).

(** Every free leaf of the tree of [h'] comes from a free leaf of the tree
    of [h]. *)
Definition leaves_from (h h' : list Node) : Prop :=
  forall x nx, live h' x -> h' !! x = Some nx -> free_leaf nx ->
  exists a na, comes_from h x nx a na.

(** What a call that answers [res] and leaves heap [h'] has done to heap
    [h]: it has found nothing, or it has marked node [j], which comes
    from a free leaf of [h]. *)
Definition served (max_order min_block : Z) (r res : Z) (h h' : list Node) : Prop :=
  res = -1 \/
  (0 <= res /\ exists j m, serves max_order min_block r res h' j m /\
                           exists a na, comes_from h j m a na).

(** ** Concrete states used to exercise the properties *)

(** The bytes-copied count of an outcome of MemoryMoveBetweenSpaces. *)
Definition copied (o : outcome (Z * memory)) : outcome Z :=
  match o with
  | Done (n, _) => Done n
  | Undefined => Undefined
  | Timeout => Timeout
  end.

(** A process whose saved stack pointer is 0x1FDFF0 and that faults at
    0x1FD000, when no frame is free. *)
Definition exhausted_kernel : Kernel :=
  mkKernel (mkPCB [0x1FDFF0; 0x1FD000] (replicate 512 0) 4 [])
           (mkFreeMapState 16 (replicate 16 0) 32 0)
           false.

(** A process with page 0 mapped to frame 5 and no other page mapped. *)
Definition one_page_pcb : PCB :=
  mkPCB [0; 0] (<[0%nat := 0x5001]> (replicate 512 0)) 1 [].

End Memory.

(** ** More concrete states, under the DLX constants *)

Section Concrete_states.
Local Existing Instance dlx_constants.

(** The allocator state that MemoryModuleInit leaves for 2MB of memory and
    a kernel image that ends at 0x1F123: frames 32 to 511 are free. *)
Definition boot_state : FreeMapState :=
  mkFreeMapState 16 (0 :: replicate 15 0xFFFFFFFF) 32 480.

(** [boot_state] after frame 32 was handed out. *)
Definition boot_state_one_held : FreeMapState :=
  mkFreeMapState 16 (0 :: 0xFFFFFFFE :: replicate 14 0xFFFFFFFF) 32 479.

(** [boot_state] after frames 32 and 33 were handed out and 32 given back. *)
Definition boot_state_after_free : FreeMapState :=
  mkFreeMapState 16 (0 :: 0xFFFFFFFD :: replicate 14 0xFFFFFFFF) 32 479.

(** A heap array as process creation may leave it: 256 inert nodes that
    record no address, of which node 1 is then made the root of order 7
    that spans the 4096-byte page. *)
Definition blank_node (i : nat) : Node :=
  mkNode (Z.of_nat i) 0 0 (-1) 0 None None None.

Definition fresh_heap : list Node :=
  <[1%nat := mkNode 1 7 4096 0 0 None None None]> (blank_node <$> seq 0 256).

Definition fresh_pcb : PCB := mkPCB [0; 0] (replicate 512 0) 0 fresh_heap.

(** The process that a call leaves. *)
Definition pcb_after (o : outcome (Z * PCB)) : PCB :=
  match o with
  | Done (_, pcb) => pcb
  | _ => fresh_pcb
  end.

(** [fresh_pcb] after [malloc(2048)]: the root is split and its left
    child, node 2, is in use. *)
Definition one_block_pcb : PCB := pcb_after (malloc 20 fresh_pcb 2048).

(** [boot_state] after frames 32 and 33 were handed out. *)
Definition boot_state_two_held : FreeMapState :=
  mkFreeMapState 16 (0 :: 0xFFFFFFFC :: replicate 14 0xFFFFFFFF) 32 478.

(** [fresh_pcb] after [malloc(32)], which splits down to node 128; after
    that block is freed again, which merges everything back into the root
    and leaves the nodes below it as they were; and after a [malloc(64)]
    then, which splits down to node 64 only: node 128 is a stale node. *)
Definition small_block_pcb : PCB := pcb_after (malloc 20 fresh_pcb 32).
Definition freed_pcb : PCB := pcb_after (mfree 20 small_block_pcb 0x4000).
Definition reused_pcb : PCB := pcb_after (malloc 20 freed_pcb 64).

(** [small_block_pcb] after [malloc(64)], which returns 0x4040: node 128,
    the 32 bytes at 0, and node 65, the 64 bytes at 64, are in use, and
    node 64, the sibling of node 65, is split.  Then that process after
    [mfree] of 0x4040. *)
Definition two_leaves_pcb : PCB := pcb_after (malloc 20 small_block_pcb 64).
Definition merged_pcb : PCB := pcb_after (mfree 20 two_leaves_pcb 0x4040).

(** A process whose saved stack pointer is 0x1FDFF0 and that faults at
    0x1FD000, while the frames of [boot_state] are free. *)
Definition faulting_kernel : Kernel :=
  mkKernel (mkPCB [0x1FDFF0; 0x1FD000] (replicate 512 0) 4 []) boot_state false.

(** An allocator state in which every frame is handed out while one frame
    is still counted free, as after a frame was freed twice. *)
Definition miscounted_state : FreeMapState :=
  mkFreeMapState 16 (replicate 16 0) 32 1.

End Concrete_states.

(** * Properties *)

Section Machine_integers.

Lemma to_uint32_small x : 0 <= x < 2 ^ 32 -> to_uint32 x = x.
Proof. intros. unfold to_uint32. apply Z.mod_small. lia. Qed.

Lemma to_int_small x : - 2 ^ 31 <= x < 2 ^ 31 -> to_int x = x.
Proof. intros. unfold to_int. rewrite Z.mod_small; lia. Qed.

Lemma to_uint32_range x : 0 <= to_uint32 x < 2 ^ 32.
Proof. unfold to_uint32. apply Z.mod_pos_bound. lia. Qed.

Lemma bit_mask_small b : 0 <= b < 32 -> bit_mask b = 2 ^ b.
Proof.
  intros. unfold bit_mask. rewrite Z.shiftl_1_l.
  apply to_uint32_small. split; [lia|]. apply Z.pow_lt_mono_r; lia.
Qed.

Lemma invert_testbit n j :
  0 <= j -> Z.testbit (invert n) j = xorb (Z.testbit n j) (j <? 32).
Proof.
  intros. unfold invert. rewrite Z.lxor_spec.
  replace (to_uint32 negativeone) with (Z.ones 32) by reflexivity.
  by rewrite Z.testbit_ones_nonneg by lia.
Qed.

Lemma testbit_high n w j : 0 <= w < 2 ^ n -> n <= j -> Z.testbit w j = false.
Proof.
  intros Hw Hj. destruct (decide (w = 0)) as [->|]; [apply Z.bits_0|].
  apply Z.bits_above_log2; [lia|].
  assert (Z.log2 w < n) by (apply Z.log2_lt_pow2; lia). lia.
Qed.

Lemma testbit_uint32_high w j : 0 <= w < 2 ^ 32 -> 32 <= j -> Z.testbit w j = false.
Proof. apply testbit_high. Qed.

Lemma bounded_of_bits n x :
  0 <= n -> 0 <= x -> (forall j, n <= j -> Z.testbit x j = false) -> 0 <= x < 2 ^ n.
Proof.
  intros Hn Hx Hbits. split; [done|].
  destruct (decide (x = 0)) as [->|Hne]; [by apply Z.pow_pos_nonneg|].
  destruct (Z.lt_ge_cases (Z.log2 x) n) as [|Hge].
  - apply Z.log2_lt_pow2; lia.
  - specialize (Hbits _ Hge). rewrite Z.bit_log2 in Hbits by lia. done.
Qed.

(** Clearing bit [b] of a word, the way MemoryAllocPage does. *)
Lemma clear_bit_testbit w b j :
  0 <= w < 2 ^ 32 -> 0 <= b < 32 -> 0 <= j ->
  Z.testbit (Z.land w (invert (bit_mask b))) j =
  if decide (j = b) then false else Z.testbit w j.
Proof.
  intros Hw Hb Hj. rewrite Z.land_spec, invert_testbit, bit_mask_small by lia.
  rewrite Z.pow2_bits_eqb by lia.
  case_decide as E.
  - subst. rewrite Z.eqb_refl. replace (b <? 32) with true by (symmetry; apply Z.ltb_lt; lia).
    by rewrite andb_false_r.
  - replace (b =? j) with false by (symmetry; apply Z.eqb_neq; lia).
    destruct (Z.ltb_spec j 32); simpl.
    + by rewrite andb_true_r.
    + rewrite testbit_uint32_high by lia. done.
Qed.

Lemma uint32_of_bits x :
  0 <= x -> (forall j, 32 <= j -> Z.testbit x j = false) -> 0 <= x < 2 ^ 32.
Proof. apply bounded_of_bits. lia. Qed.

Lemma land_bounded_l n a b : 0 <= n -> 0 <= a < 2 ^ n -> 0 <= Z.land a b < 2 ^ n.
Proof.
  intros Hn Ha. apply bounded_of_bits; [done|apply Z.land_nonneg; lia|].
  intros j Hj. by rewrite Z.land_spec, (testbit_high n a j).
Qed.

Lemma clear_bit_range w b :
  0 <= w < 2 ^ 32 -> 0 <= b < 32 -> 0 <= Z.land w (invert (bit_mask b)) < 2 ^ 32.
Proof.
  intros Hw Hb. apply uint32_of_bits; [apply Z.land_nonneg; lia|].
  intros j Hj. rewrite clear_bit_testbit by lia. case_decide; [done|].
  by apply testbit_uint32_high.
Qed.

(** Setting bit [b] of a word, the way MemoryEditFreemap does with value 1. *)
Lemma set_bit_testbit w b j :
  0 <= w < 2 ^ 32 -> 0 <= b < 32 -> 0 <= j ->
  Z.testbit (Z.lor (Z.land w (invert (bit_mask b))) (to_uint32 (Z.shiftl 1 b))) j =
  if decide (j = b) then true else Z.testbit w j.
Proof.
  intros Hw Hb Hj. rewrite Z.lor_spec, clear_bit_testbit by lia.
  fold (bit_mask b). rewrite bit_mask_small, Z.pow2_bits_eqb by lia.
  case_decide as E.
  - subst. by rewrite Z.eqb_refl.
  - replace (b =? j) with false by (symmetry; apply Z.eqb_neq; lia).
    by rewrite orb_false_r.
Qed.

Lemma set_bit_range w b :
  0 <= w < 2 ^ 32 -> 0 <= b < 32 ->
  0 <= Z.lor (Z.land w (invert (bit_mask b))) (to_uint32 (Z.shiftl 1 b)) < 2 ^ 32.
Proof.
  intros Hw Hb. apply uint32_of_bits.
  - apply Z.lor_nonneg. split; [apply Z.land_nonneg; lia|apply to_uint32_range].
  - intros j Hj. rewrite set_bit_testbit by lia. case_decide; [lia|].
    by apply testbit_uint32_high.
Qed.

End Machine_integers.

Section Frame_allocator.
Context {C : MemConstants}.

Lemma land_bit_mask_zero seg b :
  0 <= b < 32 -> Z.land seg (bit_mask b) = 0 <-> Z.testbit seg b = false.
Proof.
  intros Hb. rewrite bit_mask_small by done. split.
  - intros H0. assert (Z.testbit (Z.land seg (2 ^ b)) b = false) as Hbit
      by (rewrite H0; apply Z.bits_0).
    rewrite Z.land_spec, Z.pow2_bits_true, andb_true_r in Hbit by lia. done.
  - intros Hbit. apply Z.bits_inj'. intros j Hj.
    rewrite Z.land_spec, Z.bits_0, Z.pow2_bits_eqb by lia.
    destruct (Z.eqb_spec b j) as [<-|]; [by rewrite Hbit|by rewrite andb_false_r].
Qed.

(** The bit loop stops at the lowest bit set at or above its start. *)
Lemma find_bit_done n seg bp b :
  0 <= bp -> bp + Z.of_nat n <= 32 ->
  find_bit n seg bp = Done b ->
  bp <= b < bp + Z.of_nat n /\ Z.testbit seg b = true /\
  forall j, bp <= j < b -> Z.testbit seg j = false.
Proof.
  revert bp. induction n as [|n IH]; intros bp Hbp Hn; simpl; [done|].
  case_decide as Hz.
  - intros Hd. apply IH in Hd as (? & ? & Hlow); [|lia..].
    apply land_bit_mask_zero in Hz; [|lia].
    repeat split; [lia..|done|].
    intros j Hj. destruct (decide (j = bp)) as [->|]; [done|]. apply Hlow. lia.
  - intros [= <-]. rewrite land_bit_mask_zero in Hz by lia.
    repeat split; [lia..| by destruct (Z.testbit seg bp) | lia].
Qed.

Lemma find_bit_undefined n seg bp j :
  0 <= bp -> bp + Z.of_nat n <= 32 ->
  find_bit n seg bp = Undefined ->
  bp <= j < bp + Z.of_nat n -> Z.testbit seg j = false.
Proof.
  revert bp. induction n as [|n IH]; intros bp Hbp Hn; simpl; [lia|].
  case_decide as Hz; [|done].
  intros Hu Hj. apply land_bit_mask_zero in Hz; [|lia].
  destruct (decide (j = bp)) as [->|]; [done|]. apply (IH (bp + 1)); [lia..|done|lia].
Qed.

Lemma find_bit_not_timeout n seg bp : find_bit n seg bp <> Timeout.
Proof. revert bp. induction n as [|n IH]; intros bp; simpl; [done|]. by case_decide. Qed.

(** On a word that is not zero the bit loop finds the lowest bit set. *)
Lemma find_bit_total seg :
  0 <= seg < 2 ^ 32 -> seg <> 0 ->
  exists b, find_bit 32 seg 0 = Done b /\ 0 <= b < 32 /\ Z.testbit seg b = true /\
            forall j, 0 <= j < b -> Z.testbit seg j = false.
Proof.
  intros Hseg Hne. destruct (find_bit 32 seg 0) as [b| |] eqn:E.
  - exists b. apply find_bit_done in E as ([? ?] & ? & ?); [|lia..].
    repeat split; auto; lia.
  - exfalso. apply Hne. apply Z.bits_inj'. intros j Hj. rewrite Z.bits_0.
    destruct (Z.lt_ge_cases j 32).
    + apply (find_bit_undefined 32 seg 0 j); [lia|lia|done|lia].
    + by apply testbit_uint32_high.
  - by apply find_bit_not_timeout in E.
Qed.

Local Arguments find_bit : simpl never.

(** Word [j] of the bitmap. *)
#[warnings="-notation-for-abbreviation"]
Local Notation word st j := (freemap st !! Z.to_nat j).

(** The word loop stops at the first word that is not zero. *)
Lemma find_word_done fuel st idx i :
  (length (freemap st) <= 16)%nat ->
  0 <= idx ->
  (forall j, 0 <= j < idx -> word st j = Some 0) ->
  find_word fuel st idx = Done i ->
  0 <= i /\ (exists w, word st i = Some w /\ w <> 0) /\
  (forall j, 0 <= j < i -> word st j = Some 0) /\
  (idx < freemapmax st -> i < freemapmax st).
Proof.
  intros Hlen. revert idx. induction fuel as [|fuel IH]; intros idx Hidx Hlow; simpl.
  - destruct (word st idx) as [w|] eqn:Hw; [|done].
    case_decide; [done|]. intros [= <-]. eauto 10.
  - destruct (word st idx) as [w|] eqn:Hw; [|done].
    case_decide as Hz; [|intros [= <-]; eauto 10].
    assert (Z.to_nat idx < 16)%nat by (apply lookup_lt_Some in Hw; lia).
    rewrite (to_int_small (idx + 1)) by lia.
    intros Hd. case_decide as Hwrap.
    + apply IH in Hd as (? & ? & ? & Hmax); [|lia|intros; lia]. repeat split; try done.
      intros. lia.
    + apply IH in Hd as (? & ? & ? & Hmax); [|lia|]. { repeat split; try done. intros; apply Hmax; lia. }
      intros j Hj. destruct (decide (j = idx)) as [->|]; [by subst|apply Hlow; lia].
Qed.

Lemma find_word_total fuel st idx k w :
  (length (freemap st) <= 16)%nat ->
  0 <= idx <= k -> k < freemapmax st ->
  word st k = Some w -> w <> 0 ->
  (Z.to_nat (k - idx) <= fuel)%nat ->
  exists i, find_word fuel st idx = Done i.
Proof.
  intros Hlen. revert idx. induction fuel as [|fuel IH]; intros idx Hidx Hk Hw Hne Hfuel; simpl.
  - assert (idx = k) as -> by lia. rewrite Hw. case_decide; [done|eauto].
  - assert (Z.to_nat idx < 16)%nat.
    { apply lookup_lt_Some in Hw. lia. }
    destruct (word st idx) as [w'|] eqn:Hw'.
    2:{ apply lookup_ge_None in Hw'. apply lookup_lt_Some in Hw. lia. }
    case_decide as Hz; [|eauto].
    assert (idx <> k) by (intros ->; congruence).
    rewrite (to_int_small (idx + 1)) by lia.
    case_decide; [lia|]. apply IH; [lia|done..|lia].
Qed.

Lemma frame_number_split q i b :
  0 <= b < 32 -> q = 32 * i + b <-> q / 32 = i /\ q mod 32 = b.
Proof. intros. Z.div_mod_to_equations. lia. Qed.

(** Reading the bitmap after one bit of one word was given the value [v]. *)
Lemma frame_free_update st st' i b w w' v q :
  0 <= i -> 0 <= b < 32 ->
  word st i = Some w ->
  freemap st' = <[Z.to_nat i := w']> (freemap st) ->
  (forall j, 0 <= j -> Z.testbit w' j = if decide (j = b) then v else Z.testbit w j) ->
  frame_free st' q = if decide (q = 32 * i + b) then v else frame_free st q.
Proof.
  intros Hi Hb Hw Hfm Hbits. unfold frame_free. rewrite Hfm.
  destruct (decide (0 <= q)) as [Hq|Hq].
  2:{ rewrite !bool_decide_eq_false_2 by done. simpl. case_decide; [lia|done]. }
  rewrite !bool_decide_eq_true_2 by done. simpl.
  pose proof (frame_number_split q i b Hb) as Hsplit.
  assert (0 <= q mod 32 < 32) by (apply Z.mod_pos_bound; lia).
  assert (0 <= q / 32) by (apply Z.div_pos; lia).
  destruct (decide (q / 32 = i)) as [E|E].
  - rewrite E, list_lookup_insert_eq by (by apply lookup_lt_Some in Hw).
    rewrite Hw, Hbits by lia. repeat case_decide; try done; tauto.
  - rewrite list_lookup_insert_ne by lia. case_decide; [tauto|done].
Qed.

Lemma bitmap_ok_update st st' i w' :
  bitmap_ok st ->
  freemap st' = <[i := w']> (freemap st) ->
  freemapmax st' = freemapmax st ->
  0 <= w' < 2 ^ 32 ->
  bitmap_ok st'.
Proof.
  intros (Hlen & Hmax & Hall) Hfm Hm Hw'. unfold bitmap_ok.
  rewrite Hfm, Hm, length_insert. repeat split; try done; try lia.
  apply Forall_insert; done.
Qed.

Lemma bitmap_ok_word st j w : bitmap_ok st -> freemap st !! j = Some w -> 0 <= w < 2 ^ 32.
Proof.
  intros (_ & _ & Hall) Hw. rewrite Forall_lookup in Hall. by apply (Hall j).
Qed.

(** What a call of MemoryAllocPage that finds a frame has done. *)
Lemma alloc_done fuel st q st' :
  bitmap_ok st -> nfreepages st <> 0 ->
  MemoryAllocPage fuel st = Done (q, st') ->
  exists i b w,
    0 <= i < 16 /\ 0 <= b < 32 /\ word st i = Some w /\
    Z.testbit w b = true /\
    (forall j, 0 <= j < b -> Z.testbit w j = false) /\
    (forall j, 0 <= j < i -> word st j = Some 0) /\
    (0 < freemapmax st -> i < freemapmax st) /\
    q = 32 * i + b /\
    st' = mkFreeMapState (freemapmax st)
            (<[Z.to_nat i := Z.land w (invert (bit_mask b))]> (freemap st))
            (pagestart st) (to_int (nfreepages st - 1)).
Proof.
  intros Hok Hn. unfold MemoryAllocPage. rewrite decide_False by done.
  destruct (find_word fuel st 0) as [i| |] eqn:Hfw; simpl; [|done..].
  apply find_word_done in Hfw as (Hi & (w & Hw & Hne) & Hlow & Hmax);
    [|destruct Hok; lia|lia|intros; lia].
  rewrite Hw. destruct (find_bit 32 w 0) as [b| |] eqn:Hfb; simpl; [|done..].
  apply find_bit_done in Hfb as (Hb & Hset & Hbits); [|lia..].
  assert (Z.to_nat i < 16)%nat by (apply lookup_lt_Some in Hw; destruct Hok; lia).
  intros [= <- <-]. exists i, b, w.
  rewrite (to_uint32_small (i * 32 + b)), to_int_small by lia.
  repeat split; try done; try lia.
Qed.

(** With a free frame in the words in use and enough fuel, MemoryAllocPage
    finds a frame. *)
Lemma alloc_total fuel st p :
  bitmap_ok st -> nfreepages st <> 0 ->
  0 <= p < 32 * freemapmax st -> frame_free st p = true ->
  (16 <= fuel)%nat ->
  exists q st', MemoryAllocPage fuel st = Done (q, st').
Proof.
  intros Hok Hn Hp Hfree Hfuel. unfold MemoryAllocPage. rewrite decide_False by done.
  unfold frame_free in Hfree. apply andb_true_iff in Hfree as [_ Hfree].
  destruct (word st (p / 32)) as [w|] eqn:Hw; [|done].
  assert (0 <= p / 32 < freemapmax st) by (Z.div_mod_to_equations; lia).
  assert (w <> 0) by (intros ->; by rewrite Z.bits_0 in Hfree).
  destruct (find_word_total fuel st 0 (p / 32) w) as [i Hi]; try done; try lia.
  { destruct Hok; lia. }
  { destruct Hok as (? & ? & ?). lia. }
  rewrite Hi. simpl.
  apply find_word_done in Hi as (Hi0 & (w' & Hw' & Hne') & _); [|destruct Hok; lia|lia|intros;lia].
  rewrite Hw'.
  destruct (find_bit_total w') as (b & -> & _); [by eapply bitmap_ok_word|done|].
  simpl. eauto.
Qed.

(** The frame that MemoryAllocPage returns was free, no frame below it was,
    and afterwards it is the one frame whose bit has changed. *)
Lemma alloc_frame_free fuel st q st' :
  bitmap_ok st -> nfreepages st <> 0 ->
  MemoryAllocPage fuel st = Done (q, st') ->
  0 <= q < 512 /\
  frame_free st q = true /\
  (forall r, r < q -> frame_free st r = false) /\
  (forall r, frame_free st' r = if decide (r = q) then false else frame_free st r) /\
  bitmap_ok st' /\
  (0 < freemapmax st -> q < 32 * freemapmax st) /\
  freemapmax st' = freemapmax st /\ pagestart st' = pagestart st /\
  nfreepages st' = to_int (nfreepages st - 1).
Proof.
  intros Hok Hn Hd.
  destruct (alloc_done fuel st q st' Hok Hn Hd)
    as (i & b & w & Hi & Hb & Hw & Hset & Hbits & Hlow & Hmax & -> & ->).
  pose proof (bitmap_ok_word _ _ _ Hok Hw) as Hwr.
  split; [lia|]. split.
  { unfold frame_free. rewrite bool_decide_eq_true_2 by lia. simpl.
    replace ((32 * i + b) / 32) with i by (Z.div_mod_to_equations; lia).
    replace ((32 * i + b) mod 32) with b by (Z.div_mod_to_equations; lia).
    by rewrite Hw. }
  split.
  { intros r Hr. unfold frame_free.
    destruct (decide (0 <= r)); [|by rewrite bool_decide_eq_false_2].
    rewrite bool_decide_eq_true_2 by done. simpl.
    assert (0 <= r / 32 <= i) by (Z.div_mod_to_equations; lia).
    destruct (decide (r / 32 = i)) as [E|E].
    - rewrite E, Hw. apply Hbits. Z.div_mod_to_equations; lia.
    - rewrite Hlow by lia. apply Z.bits_0. }
  split.
  { intros r. eapply frame_free_update; [| |exact Hw|reflexivity|]; [lia..|].
    intros j Hj. apply clear_bit_testbit; lia. }
  split.
  { eapply bitmap_ok_update; [exact Hok|reflexivity|reflexivity|].
    apply clear_bit_range; lia. }
  simpl. repeat split; try done. intros. specialize (Hmax ltac:(done)). lia.
Qed.

Lemma filter_none {A} (P : A -> Prop) `{!forall x, Decision (P x)} (l : list A) :
  Forall (fun x => ~ P x) l -> filter P l = [].
Proof.
  induction 1 as [|x l Hx _ IH]; [done|]. by rewrite filter_cons_False.
Qed.

(** The first element of an increasing range that satisfies [P]. *)
Lemma head_filter_seqZ (P : Z -> Prop) `{!forall x, Decision (P x)} n q :
  0 <= q < n -> P q -> (forall r, 0 <= r < q -> ~ P r) ->
  head (filter P (seqZ 0 n)) = Some q.
Proof.
  intros Hq HP Hlow.
  replace n with (q + (n - q)) by lia.
  rewrite seqZ_app, filter_app by lia.
  rewrite filter_none by (apply Forall_seqZ; intros; apply Hlow; lia).
  simpl. rewrite seqZ_cons by lia. by rewrite filter_cons_True.
Qed.

Lemma free_frames_elem st p :
  p ∈ free_frames st <-> frame_free st p = true /\ 0 <= p < 32 * freemapmax st.
Proof.
  unfold free_frames. rewrite list_elem_of_filter, elem_of_seqZ. intuition lia.
Qed.

Lemma alloc_exhausted fuel st :
  nfreepages st = 0 -> MemoryAllocPage fuel st = Done (MEM_FAIL, st).
Proof. intros Hn. unfold MemoryAllocPage. by rewrite decide_True. Qed.

(** C6.  In a state whose free count is the number of bits set in the
    bitmap: when at least one frame is free, MemoryAllocPage (with fuel for
    one pass over the 16 words) returns the lowest-indexed free frame; the
    frame returned and the bitmap left are a function of the bitmap state
    alone, whatever the fuel; and when the free count is zero it returns
    MEM_FAIL and leaves the bitmap and the free count as they were. *)
Theorem alloc_lowest_free_frame st :
  frames_consistent st ->
  (0 < free_count st ->
   forall fuel, (16 <= fuel)%nat ->
   exists q st', MemoryAllocPage fuel st = Done (q, st') /\
                 head (free_frames st) = Some q) /\
  (forall st2 fuel1 fuel2 q1 q2 s1 s2,
     freemap st2 = freemap st -> freemapmax st2 = freemapmax st ->
     nfreepages st2 = nfreepages st ->
     MemoryAllocPage fuel1 st = Done (q1, s1) ->
     MemoryAllocPage fuel2 st2 = Done (q2, s2) ->
     q1 = q2 /\ freemap s1 = freemap s2 /\ nfreepages s1 = nfreepages s2) /\
  (free_count st = 0 ->
   forall fuel, MemoryAllocPage fuel st = Done (MEM_FAIL, st)).
Proof.
  intros [Hok Hcount]. unfold free_count. split; [|split].
  - intros Hpos fuel Hfuel.
    destruct (free_frames st) as [|p l] eqn:Hff; [simpl in Hcount; lia|].
    assert (p ∈ free_frames st) as Hp by (rewrite Hff; left).
    apply free_frames_elem in Hp as [Hfree Hp].
    destruct (alloc_total fuel st p) as (q & st' & Hd); try done; try lia.
    exists q, st'. split; [done|]. rewrite <- Hff.
    destruct (alloc_frame_free fuel st q st') as (Hq & Hqf & Hlow & _ & _ & Hmax & _);
      try done; try lia.
    apply head_filter_seqZ; [lia|done|].
    intros r Hr. rewrite Hlow by lia. done.
  - intros st2 fuel1 fuel2 q1 q2 s1 s2 Hfm Hfmax Hnf Hd1 Hd2.
    destruct (decide (nfreepages st = 0)) as [Hz|Hnz].
    + rewrite alloc_exhausted in Hd1, Hd2 by congruence.
      injection Hd1 as <- <-. injection Hd2 as <- <-. done.
    + apply alloc_done in Hd1
        as (i1 & b1 & w1 & ? & ? & Hw1 & Hs1 & Hb1 & Hl1 & _ & -> & ->); [|done..].
      apply alloc_done in Hd2
        as (i2 & b2 & w2 & ? & ? & Hw2 & Hs2 & Hb2 & Hl2 & _ & -> & ->);
        [|unfold bitmap_ok in *; by rewrite Hfm, Hfmax|congruence].
      rewrite Hfm in *.
      assert (w1 <> 0) by (intros ->; by rewrite Z.bits_0 in Hs1).
      assert (w2 <> 0) by (intros ->; by rewrite Z.bits_0 in Hs2).
      assert (i1 = i2) as ->.
      { destruct (Z.lt_trichotomy i1 i2) as [Hlt|[?|Hlt]]; [|done|].
        - rewrite Hl2 in Hw1 by lia. congruence.
        - rewrite Hl1 in Hw2 by lia. congruence. }
      assert (w1 = w2) as -> by congruence.
      assert (b1 = b2) as ->.
      { destruct (Z.lt_trichotomy b1 b2) as [Hlt|[?|Hlt]]; [|done|].
        - rewrite Hb2 in Hs1 by lia. done.
        - rewrite Hb1 in Hs2 by lia. done. }
      simpl. by rewrite Hnf.
  - intros Hz fuel. by apply alloc_exhausted.
Qed.

(** C8.  A call of MemoryAllocPage that hands out frame [q] (the free
    count was not zero) changes one bit of the bitmap: bit [q mod 32] of
    word [q / 32], which was set before and is clear afterwards.  Every
    other bit of every word is as it was. *)
Theorem alloc_changes_one_bit fuel st q st' :
  bitmap_ok st -> nfreepages st <> 0 ->
  MemoryAllocPage fuel st = Done (q, st') ->
  length (freemap st') = length (freemap st) /\
  Z.testbit (freemap st !!! Z.to_nat (q / 32)) (q mod 32) = true /\
  Z.testbit (freemap st' !!! Z.to_nat (q / 32)) (q mod 32) = false /\
  forall (i : nat) (j : Z),
    0 <= j -> ~ (i = Z.to_nat (q / 32) /\ j = q mod 32) ->
    Z.testbit (freemap st' !!! i) j = Z.testbit (freemap st !!! i) j.
Proof.
  intros Hok Hn Hd.
  destruct (alloc_done fuel st q st' Hok Hn Hd)
    as (i & b & w & Hi & Hb & Hw & Hset & Hbits & Hlow & Hmax & -> & ->).
  pose proof (bitmap_ok_word _ _ _ Hok Hw) as Hwr.
  pose proof (lookup_lt_Some _ _ _ Hw) as Hlt.
  replace ((32 * i + b) / 32) with i by (Z.div_mod_to_equations; lia).
  replace ((32 * i + b) mod 32) with b by (Z.div_mod_to_equations; lia).
  simpl. rewrite length_insert. split; [done|].
  rewrite list_lookup_total_insert_eq by done.
  rewrite (list_lookup_total_correct _ _ _ Hw).
  rewrite clear_bit_testbit, decide_True by (done || lia).
  repeat split; try done.
  intros k j Hj Hne. destruct (decide (k = Z.to_nat i)) as [->|Hk].
  - rewrite list_lookup_total_insert_eq by done.
    rewrite (list_lookup_total_correct _ _ _ Hw).
    rewrite clear_bit_testbit by lia. case_decide; [tauto|done].
  - by rewrite list_lookup_total_insert_ne.
Qed.

Lemma setup_pte_frame k p :
  0 <= k < 32 -> MEM_PAGESIZE = 2 ^ k ->
  0 <= MEM_PTE_VALID < MEM_PAGESIZE ->
  pte_page_representable p ->
  Z.land (MemorySetupPte p) (to_uint32 MEM_MASK_PTE2PAGE) / to_uint32 MEM_PAGESIZE = p.
Proof.
  intros Hk Hps Hv (Hp & Hfit & Hmask).
  assert (0 < 2 ^ k < 2 ^ 32) as Hpow.
  { split; [apply Z.pow_pos_nonneg; lia|apply Z.pow_lt_mono_r; lia]. }
  unfold MemorySetupPte.
  rewrite (to_uint32_small (p * MEM_PAGESIZE)), (to_uint32_small MEM_PTE_VALID),
    (to_uint32_small MEM_PAGESIZE) by lia.
  rewrite Z.land_lor_distr_l, Hmask, Hps.
  rewrite <- Z.shiftr_div_pow2, Z.shiftr_lor, !Z.shiftr_div_pow2 by lia.
  rewrite Z.div_mul by lia.
  rewrite Z.div_small, Z.lor_0_r; [done|].
  apply land_bounded_l; lia.
Qed.

(** MemoryEditFreemap with value 1 marks one frame free. *)
Lemma edit_freemap_set st p :
  bitmap_ok st -> 0 <= p < 512 ->
  exists st', MemoryEditFreemap p 1 st = Done st' /\
    (forall r, frame_free st' r = if decide (r = p) then true else frame_free st r) /\
    bitmap_ok st' /\ freemapmax st' = freemapmax st /\
    pagestart st' = pagestart st /\ nfreepages st' = nfreepages st.
Proof.
  intros Hok Hp. unfold MemoryEditFreemap.
  rewrite Z.quot_div_nonneg, Z.rem_mod_nonneg by lia.
  assert (0 <= p / 32 < 16) by (Z.div_mod_to_equations; lia).
  assert (0 <= p mod 32 < 32) by (apply Z.mod_pos_bound; lia).
  rewrite !to_uint32_small by lia. rewrite decide_False by lia.
  destruct (word st (p / 32)) as [w|] eqn:Hw.
  2:{ apply lookup_ge_None in Hw. destruct Hok. lia. }
  pose proof (bitmap_ok_word _ _ _ Hok Hw) as Hwr.
  eexists. split; [reflexivity|]. split; [|split].
  - intros r.
    erewrite frame_free_update; [| | |exact Hw|reflexivity|]; [|lia|..].
    + replace (32 * (p / 32) + p mod 32) with p by (Z.div_mod_to_equations; lia). done.
    + apply Z.mod_pos_bound. lia.
    + intros j Hj. apply set_bit_testbit; lia.
  - eapply bitmap_ok_update; [exact Hok|reflexivity|reflexivity|].
    apply set_bit_range; lia.
  - done.
Qed.

Lemma free_page_set st p st' :
  bitmap_ok st -> 0 <= p < 512 ->
  MemoryFreePage p st = Done st' ->
  (forall r, frame_free st' r = if decide (r = p) then true else frame_free st r) /\
  bitmap_ok st' /\ freemapmax st' = freemapmax st /\
  pagestart st' = pagestart st /\ nfreepages st' = to_int (nfreepages st + 1).
Proof.
  intros Hok Hp. unfold MemoryFreePage. rewrite to_int_small by lia.
  destruct (edit_freemap_set st p Hok Hp) as (st1 & -> & Hfree & Hok1 & ? & ? & Hn).
  simpl. intros [= <-]. rewrite Hn. repeat split; try done.
  all: destruct Hok1 as (? & ? & ?); simpl; (done || lia).
Qed.

(** C9 (as amended).  For a frame number [p] that fits the page-number
    field and is one of the 512 frames that the bitmap has room for, the
    frame that MemoryFreePageTableEntry extracts from the entry built by
    MemorySetupPte (mask with MEM_MASK_PTE2PAGE, divide by the page size)
    is [p] again, and the call frees exactly frame [p]: it returns, the
    bit of frame [p] is set, the bit of every other frame is as before,
    and the free count is one more.  The page size is a power of two
    below 2^32 and the valid flag lies in the offset bits. *)
Theorem pte_setup_free_round_trip k p st :
  0 <= k < 32 -> MEM_PAGESIZE = 2 ^ k ->
  0 <= MEM_PTE_VALID < MEM_PAGESIZE ->
  pte_page_representable p -> p < 512 -> bitmap_ok st ->
  Z.land (MemorySetupPte p) (to_uint32 MEM_MASK_PTE2PAGE) / to_uint32 MEM_PAGESIZE = p /\
  exists st',
    MemoryFreePageTableEntry (MemorySetupPte p) st = Done st' /\
    frame_free st' p = true /\
    (forall q, q <> p -> frame_free st' q = frame_free st q) /\
    nfreepages st' = to_int (nfreepages st + 1) /\
    freemapmax st' = freemapmax st /\ pagestart st' = pagestart st /\
    bitmap_ok st'.
Proof.
  intros Hk Hps Hv Hrep Hp Hok.
  pose proof (setup_pte_frame k p Hk Hps Hv Hrep) as Hround.
  split; [done|]. unfold MemoryFreePageTableEntry. rewrite Hround.
  assert (0 <= p < 512) as Hp' by (destruct Hrep; lia).
  assert (exists st', MemoryFreePage p st = Done st') as [st' Hfree].
  { unfold MemoryFreePage. rewrite to_int_small by lia.
    destruct (edit_freemap_set st p Hok Hp') as (st1 & -> & _). simpl. eauto. }
  destruct (free_page_set st p st' Hok Hp' Hfree) as (Hbits & Hok' & Hfm & Hps' & Hn).
  exists st'. split; [done|].
  split; [by rewrite Hbits, decide_True|].
  split; [intros q Hq; by rewrite Hbits, decide_False|].
  done.
Qed.

(** Counting the elements of a list that a predicate accepts, when the
    predicate changes at one point. *)
Lemma count_flip (f f' : Z -> bool) (l : list Z) p :
  NoDup l -> (forall r, r <> p -> f' r = f r) -> f p = false -> f' p = true ->
  length (filter (fun r => f' r = true) l) =
  ((if decide (p ∈ l) then 1 else 0) + length (filter (fun r => f r = true) l))%nat.
Proof.
  intros Hnd Hother Hp Hp'. induction l as [|x l IH].
  - rewrite decide_False by (by intros ?%elem_of_nil). done.
  - apply NoDup_cons in Hnd as [Hx Hnd]. specialize (IH Hnd).
    destruct (decide (x = p)) as [->|Hne].
    + rewrite filter_cons_True, (filter_cons_False (fun r => f r = true)) by congruence.
      rewrite decide_False in IH by done. rewrite decide_True by left.
      simpl. lia.
    + rewrite !filter_cons, Hother by done.
      assert (p ∈ x :: l <-> p ∈ l) as Hiff by (rewrite elem_of_cons; intuition congruence).
      destruct (decide (p ∈ l)) as [Hin|Hnin]; destruct (decide (p ∈ x :: l)) as [Hin'|Hnin'];
        try tauto; destruct (decide (f x = true)); simpl; lia.
Qed.

Lemma count_complement (f : Z -> bool) (l : list Z) :
  (length (filter (fun r => f r = true) l) + length (filter (fun r => f r = false) l))%nat
  = length l.
Proof.
  induction l as [|x l IH]; [done|]. rewrite !filter_cons.
  destruct (f x); simpl; lia.
Qed.

Lemma clear_loop st (k : nat) a :
  freemap st = replicate 16 0 -> 0 <= a -> a + Z.of_nat k <= 16 ->
  for_loop clear_word (seqZ a (Z.of_nat k)) st = Done st.
Proof.
  intros Hfm. revert a. induction k as [|k IH]; intros a Ha Hk; [done|].
  rewrite seqZ_cons by lia. simpl.
  assert (clear_word a st = Done st) as ->.
  { unfold clear_word. rewrite Hfm, length_replicate, decide_True by lia.
    rewrite list_insert_id by (apply lookup_replicate_2; lia).
    destruct st; simpl in *; by subst. }
  simpl. replace (Z.pred (Z.of_nat (S k))) with (Z.of_nat k) by lia.
  apply IH; lia.
Qed.

Lemma mark_loop ps fmax (k : nat) j st :
  marked_up_to ps j fmax st -> 0 <= ps <= j -> (k <> 0%nat -> j + Z.of_nat k <= 512) ->
  exists st', for_loop mark_free (seqZ j (Z.of_nat k)) st = Done st' /\
              marked_up_to ps (j + Z.of_nat k) fmax st'.
Proof.
  revert j st. induction k as [|k IH]; intros j st Hm Hj Hk.
  { exists st. split; [done|]. by replace (j + Z.of_nat 0%nat) with j by lia. }
  destruct Hm as (Hok & Hfmax & Hps & Hfree & Hn). specialize (Hk ltac:(done)).
  rewrite seqZ_cons by lia. simpl.
  destruct (edit_freemap_set (set_nfreepages (to_int (nfreepages st + 1)) st) j)
    as (st1 & Hedit & Hfree1 & Hok1 & Hfmax1 & Hps1 & Hn1); [done|lia|].
  fold (mark_free j st) in Hedit. rewrite Hedit.
  simpl. replace (Z.pred (Z.of_nat (S k))) with (Z.of_nat k) by lia.
  destruct (IH (Z.succ j) st1) as (st' & Hloop & Hm'); [|lia|lia|].
  - simpl in Hfmax1, Hps1, Hn1. unfold marked_up_to.
    split; [done|]. split; [congruence|]. split; [congruence|]. split.
    + intros p. rewrite Hfree1. case_decide as E; [subst; split; [lia|done]|].
      change (frame_free (set_nfreepages _ st) p) with (frame_free st p).
      rewrite Hfree. lia.
    + rewrite Hn1, Hn, to_int_small by lia. lia.
  - exists st'. split; [done|].
    by replace (j + Z.of_nat (S k)) with (Z.succ j + Z.of_nat k) by lia.
Qed.

Lemma filter_all {A} (P : A -> Prop) `{!forall x, Decision (P x)} (l : list A) :
  Forall P l -> filter P l = l.
Proof.
  induction 1 as [|x l Hx _ IH]; [done|]. by rewrite filter_cons_True, IH.
Qed.

(** MemoryModuleInit, started from the zeroed static variables, leaves the
    frames from [pagestart] up to [maxpage] free and counted. *)
Lemma init_establishes_inv memsize lastosaddress :
  0 < MEM_PAGESIZE -> 0 <= memsize -> Z.quot memsize MEM_PAGESIZE <= 512 ->
  0 <= lastosaddress ->
  exists st0, MemoryModuleInit memsize lastosaddress static_state = Done st0 /\
              frames_inv st0 (Z.quot memsize MEM_PAGESIZE) st0 [].
Proof.
  intros Hps Hmem Hmax Hlast. unfold MemoryModuleInit.
  set (maxpage := Z.quot memsize MEM_PAGESIZE) in *.
  assert (0 <= maxpage) by (apply Z.quot_pos; lia).
  assert (0 <= Z.land lastosaddress 0x1FFFFC < 2 ^ 21) as Hland.
  { rewrite Z.land_comm. apply land_bounded_l; lia. }
  set (os := Z.land lastosaddress 0x1FFFFC / MEM_PAGESIZE).
  assert (0 <= os < 2 ^ 21) as Hos.
  { subst os. split; [apply Z.div_pos; lia|].
    apply Z.div_lt_upper_bound; [lia|]. nia. }
  rewrite (to_uint32_small os), (to_uint32_small (os + 1)) by lia.
  rewrite Z.quot_div_nonneg by lia.
  assert (0 <= (maxpage + 31) / 32 <= 16) by (Z.div_mod_to_equations; lia).
  rewrite (to_int_small ((maxpage + 31) / 32)) by lia.
  set (fmax := (maxpage + 31) / 32) in *.
  set (st1 := mkFreeMapState fmax (replicate 16 0) (os + 1) 0).
  assert (for_loop clear_word (seqZ 0 fmax) st1 = Done st1) as Hclear.
  { replace fmax with (Z.of_nat (Z.to_nat fmax)) by lia. apply clear_loop; (done || lia). }
  change (exists st0,
    (for_loop clear_word (seqZ 0 fmax) st1 ≫=
       (fun st => for_loop mark_free
          (seqZ (to_int (pagestart st)) (maxpage - to_int (pagestart st))) st)) = Done st0 /\
    frames_inv st0 maxpage st0 []).
  rewrite Hclear. simpl.
  rewrite (to_int_small (os + 1)) by lia.
  assert (marked_up_to (os + 1) (os + 1) fmax st1) as Hm.
  { unfold marked_up_to. split.
    { unfold bitmap_ok, st1. cbn [freemap freemapmax].
      split; [done|]. split; [lia|]. apply Forall_replicate. lia. }
    split; [done|]. split; [done|]. split; [|simpl; lia].
    intros p. split; [|lia]. unfold frame_free, st1. cbn [freemap].
    intros [_ Hbit]%andb_true_iff.
    destruct (replicate 16 0 !! _) as [w|] eqn:Hw; [|done].
    apply lookup_replicate in Hw as [-> _]. by rewrite Z.bits_0 in Hbit. }
  destruct (mark_loop (os + 1) fmax (Z.to_nat (maxpage - (os + 1))) (os + 1) st1)
    as (st0 & Hloop & Hok & Hfmax & Hpst & Hfree & Hn); [done|lia|lia|].
  exists st0. split.
  { destruct (Z.le_gt_cases (maxpage - (os + 1)) 0).
    - rewrite seqZ_nil in * by lia. done.
    - by rewrite Z2Nat.id in Hloop by lia. }
  assert (forall p, frame_free st0 p = true <-> os + 1 <= p < maxpage) as Hfree'.
  { intros p. rewrite Hfree. lia. }
  unfold frames_inv. rewrite Hfmax, Hpst.
  split; [done|]. split; [done|]. split; [done|]. split; [lia|].
  split; [subst fmax; Z.div_mod_to_equations; lia|].
  split; [intros p; apply Hfree'|]. split.
  - unfold usable_frames. rewrite Hpst, filter_all, length_seqZ, Hn.
    + lia.
    + apply Forall_seqZ. intros p Hp. apply Hfree'. lia.
  - intros p. split; [by intros ?%elem_of_nil|].
    intros [Hp Hf]. apply Hfree' in Hp. congruence.
Qed.

Lemma usable_frames_elem st maxpage p :
  p ∈ usable_frames st maxpage <-> pagestart st <= p < maxpage.
Proof. unfold usable_frames. rewrite elem_of_seqZ. lia. Qed.

Lemma usable_frames_length st maxpage :
  maxpage <= 512 -> 0 <= pagestart st ->
  (length (usable_frames st maxpage) <= 512)%nat.
Proof. intros. unfold usable_frames. rewrite length_seqZ. lia. Qed.

Lemma inv_alloc st0 maxpage st held fuel p st' :
  maxpage <= 512 ->
  frames_inv st0 maxpage st held ->
  nfreepages st <> 0 ->
  MemoryAllocPage fuel st = Done (p, st') ->
  frames_inv st0 maxpage st' (p :: held).
Proof.
  intros Hmax (Hok & Hfmax & Hps & Hps0 & Hcap & Husable & Hn & Hheld) Hnz Hd.
  destruct (alloc_frame_free fuel st p st' Hok Hnz Hd)
    as (Hp & Hpfree & _ & Hfree' & Hok' & _ & Hfmax' & Hps' & Hn').
  pose proof (Husable p Hpfree) as Hpu.
  assert (usable_frames st' maxpage = usable_frames st maxpage) as Hu
    by (unfold usable_frames; by rewrite Hps').
  pose proof (count_flip (frame_free st') (frame_free st) (usable_frames st maxpage) p
                (NoDup_seqZ _ _)) as Hcount.
  rewrite decide_True in Hcount by (by apply usable_frames_elem).
  rewrite Hcount in Hn.
  2:{ intros r Hr. rewrite Hfree'. by rewrite decide_False. }
  2:{ rewrite Hfree'. by rewrite decide_True. }
  2:{ done. }
  pose proof (length_filter (fun r => frame_free st' r = true) (usable_frames st maxpage)).
  pose proof (usable_frames_length st maxpage Hmax Hps0).
  unfold frames_inv. rewrite Hfmax', Hps', Hu.
  split; [done|]. split; [done|]. split; [done|]. split; [done|]. split; [done|].
  split; [|split].
  - intros r. rewrite Hfree'. case_decide; [done|]. apply Husable.
  - rewrite Hn', Hn, to_int_small by lia. lia.
  - intros r. rewrite elem_of_cons, Hheld, Hfree'. case_decide; [subst|]; intuition lia.
Qed.

Lemma inv_free st0 maxpage st held p st' :
  maxpage <= 512 ->
  frames_inv st0 maxpage st held ->
  p ∈ held ->
  MemoryFreePage p st = Done st' ->
  frames_inv st0 maxpage st' (filter (fun q => q <> p) held).
Proof.
  intros Hmax (Hok & Hfmax & Hps & Hps0 & Hcap & Husable & Hn & Hheld) Hin Hd.
  apply Hheld in Hin as [Hpu Hpalloc].
  destruct (free_page_set st p st' Hok ltac:(lia) Hd)
    as (Hfree' & Hok' & Hfmax' & Hps' & Hn').
  assert (usable_frames st' maxpage = usable_frames st maxpage) as Hu
    by (unfold usable_frames; by rewrite Hps').
  pose proof (count_flip (frame_free st) (frame_free st') (usable_frames st maxpage) p
                (NoDup_seqZ _ _)) as Hcount.
  rewrite decide_True in Hcount by (by apply usable_frames_elem).
  pose proof (length_filter (fun r => frame_free st' r = true) (usable_frames st maxpage)).
  pose proof (usable_frames_length st maxpage Hmax Hps0).
  unfold frames_inv. rewrite Hfmax', Hps', Hu.
  split; [done|]. split; [done|]. split; [done|]. split; [done|]. split; [done|].
  split; [|split].
  - intros r. rewrite Hfree'. case_decide; [by subst|]. apply Husable.
  - assert (frame_free st' p = true) as Hp' by (rewrite Hfree'; by rewrite decide_True).
    assert (forall r, r <> p -> frame_free st' r = frame_free st r) as Hother
      by (intros r Hr; rewrite Hfree'; by rewrite decide_False).
    specialize (Hcount Hother Hpalloc Hp').
    rewrite Hn', Hn, to_int_small by lia. lia.
  - intros r. rewrite list_elem_of_filter, Hheld, Hfree'.
    case_decide; [subst|]; intuition (lia || congruence).
Qed.

(** Every state of a run satisfies the invariant that MemoryModuleInit
    establishes. *)
Lemma run_preserves_inv st0 maxpage st held :
  MEM_FAIL < 0 -> maxpage <= 512 ->
  frames_inv st0 maxpage st0 [] ->
  frames_run st0 st held ->
  frames_inv st0 maxpage st held.
Proof.
  intros Hfail Hmax Hinit. induction 1 as
    [|st held fuel p st' _ IH Hd Hp|st held fuel st' _ IH Hd|st held p st' _ IH Hin Hd].
  - done.
  - apply (inv_alloc st0 maxpage st held fuel p st'); try done.
    intros Hz. rewrite alloc_exhausted in Hd by done. congruence.
  - destruct (decide (nfreepages st = 0)) as [Hz|Hnz].
    + rewrite alloc_exhausted in Hd by done. by injection Hd as <-.
    + destruct IH as (Hok & _).
      destruct (alloc_frame_free fuel st MEM_FAIL st' Hok Hnz Hd) as (? & _). lia.
  - by apply (inv_free st0 maxpage st held p st').
Qed.

(** C7.  Start from the state that MemoryModuleInit leaves for a memory of
    at most 512 frames, and make any sequence of MemoryAllocPage and
    MemoryFreePage calls in which a frame is freed only while it is held
    (it was handed out and not freed since).  After every call, the free
    count plus the number of usable frames marked allocated in the bitmap
    is the number of usable frames.  MEM_FAIL is a negative constant. *)
Theorem frame_conservation memsize lastosaddress st0 st held :
  0 < MEM_PAGESIZE -> MEM_FAIL < 0 ->
  0 <= memsize -> Z.quot memsize MEM_PAGESIZE <= 512 -> 0 <= lastosaddress ->
  MemoryModuleInit memsize lastosaddress static_state = Done st0 ->
  frames_run st0 st held ->
  free_count st + allocated_count st (Z.quot memsize MEM_PAGESIZE)
  = total_usable_frames st (Z.quot memsize MEM_PAGESIZE).
Proof.
  intros Hps Hfail Hmem Hmax Hlast Hinit Hrun.
  destruct (init_establishes_inv memsize lastosaddress Hps Hmem Hmax Hlast)
    as (st0' & Hinit' & Hinv0).
  assert (st0' = st0) as -> by congruence.
  destruct (run_preserves_inv st0 _ st held Hfail Hmax Hinv0 Hrun)
    as (_ & _ & _ & _ & _ & _ & Hn & _).
  unfold free_count, allocated_count, total_usable_frames. rewrite Hn.
  rewrite <- (count_complement (frame_free st) (usable_frames st _)). lia.
Qed.

End Frame_allocator.

Section Frame_runs.
Context {C : MemConstants}.

(** X11.  In every state of a run the two calls return: MemoryAllocPage
    with fuel for one pass over the bitmap, and MemoryFreePage on a frame
    that is held. *)
Lemma run_calls_return st0 maxpage st held :
  MEM_FAIL < 0 -> maxpage <= 512 ->
  frames_inv st0 maxpage st0 [] ->
  frames_run st0 st held ->
  (forall fuel, (16 <= fuel)%nat -> exists q st', MemoryAllocPage fuel st = Done (q, st')) /\
  (forall p, p ∈ held -> exists st', MemoryFreePage p st = Done st').
Proof.
  intros Hfail Hmax Hinit Hrun.
  destruct (run_preserves_inv st0 maxpage st held Hfail Hmax Hinit Hrun)
    as (Hok & _ & _ & Hps0 & Hcap & Husable & Hn & Hheld).
  split.
  - intros fuel Hfuel. destruct (decide (nfreepages st = 0)) as [Hz|Hnz].
    { rewrite alloc_exhausted by done. eauto. }
    destruct (filter (fun p => frame_free st p = true) (usable_frames st maxpage))
      as [|p l] eqn:Hfilter; [simpl in Hn; lia|].
    assert (p ∈ filter (fun p => frame_free st p = true) (usable_frames st maxpage)) as Hp
      by (rewrite Hfilter; left).
    apply list_elem_of_filter in Hp as [Hfree Hp%usable_frames_elem].
    apply (alloc_total fuel st p); try done. lia.
  - intros p [Hp Halloc]%Hheld. unfold MemoryFreePage. rewrite to_int_small by lia.
    destruct (edit_freemap_set st p Hok ltac:(lia)) as (st1 & -> & _). simpl. eauto.
Qed.

End Frame_runs.

Section Paging.
Context {C : MemConstants}.

(** On the stack-growth path the handler does not look at what
    MemoryAllocPage returned before it installs the entry: with no free
    frame it kills the process, then goes on as after a success. *)
Lemma page_fault_after_exhaustion fuel k user_stack_ptr fault_addr :
  currentSavedFrame (k_pcb k) !! PROCESS_STACK_USER_STACKPOINTER = Some user_stack_ptr ->
  currentSavedFrame (k_pcb k) !! PROCESS_STACK_FAULT = Some fault_addr ->
  ~ fault_addr < Z.land user_stack_ptr 0x1FF000 ->
  nfreepages (k_frames k) = 0 ->
  0 <= to_int (MEM_ADDR2PAGE fault_addr) ->
  (Z.to_nat (to_int (MEM_ADDR2PAGE fault_addr)) < length (pagetable (k_pcb k)))%nat ->
  exists k',
    MemoryPageFaultHandler fuel k = Done (MEM_SUCCESS, k') /\
    k_killed k' = true /\
    npages (k_pcb k') = to_int (npages (k_pcb k) + 1) /\
    pagetable (k_pcb k') !! Z.to_nat (to_int (MEM_ADDR2PAGE fault_addr))
      = Some (MemorySetupPte (to_uint32 MEM_FAIL)).
Proof.
  intros Hsp Hfa Hge Hn Hpg Hlen. unfold MemoryPageFaultHandler.
  rewrite Hsp, Hfa. rewrite decide_False by done.
  rewrite alloc_exhausted by done. simpl.
  rewrite (decide_True (P := MEM_FAIL = MEM_FAIL)) by done.
  rewrite decide_True by done.
  eexists. split; [reflexivity|]. simpl. split; [done|]. split; [done|].
  by apply list_lookup_insert_eq.
Qed.

(** A user address whose translation fails yields [(uint32)MEM_FAIL], and
    the copy loop only stops on 0: when MEM_FAIL is not 0 the loop goes on
    with the next bytes. *)
Lemma move_loop_unmapped fuel pcb dir m system user n bytesCopied :
  n > 0 ->
  MemoryTranslateUserToSystem pcb (to_uint32 user) = Done (to_uint32 MEM_FAIL) ->
  move_loop (S fuel) pcb dir m system user n bytesCopied =
  if decide (to_uint32 MEM_FAIL = 0) then Done (bytesCopied, m)
  else
    let bytesToCopy :=
      to_int (MEM_PAGESIZE - Z.land (to_uint32 MEM_FAIL) (to_uint32 MEM_ADDR_OFFS_MASK)) in
    let bytesToCopy := if decide (bytesToCopy > n) then n else bytesToCopy in
    move_loop fuel pcb dir
      (if decide (dir >= 0) then bcopy system (to_uint32 MEM_FAIL) bytesToCopy m
       else bcopy (to_uint32 MEM_FAIL) system bytesToCopy m)
      (to_uint32 (system + bytesToCopy)) (to_uint32 (user + bytesToCopy))
      (to_int (n - bytesToCopy)) (to_int (bytesCopied + bytesToCopy)).
Proof.
  intros Hn Htr. simpl. rewrite decide_True by done. rewrite Htr. simpl. done.
Qed.

(** A negative MEM_FAIL is not 0 as a [uint32]. *)
Lemma negative_fail_not_null : - 2 ^ 31 <= MEM_FAIL < 0 -> to_uint32 MEM_FAIL <> 0.
Proof.
  intros Hf. unfold to_uint32.
  replace MEM_FAIL with (MEM_FAIL + 2 ^ 32 - 1 * 2 ^ 32) by lia.
  rewrite Zminus_mod, Z_mod_mult, Z.sub_0_r, Z.mod_mod, Z.mod_small by lia. lia.
Qed.

End Paging.

(** C1 (the code departs from it).  With the DLX constants, a stack-growth
    fault taken when no frame is free: MemoryAllocPage returns MEM_FAIL and
    the process is killed, but the handler then installs the entry made
    from MEM_FAIL for page 0x1FD, counts one more mapped page and returns
    MEM_SUCCESS. *)
Theorem page_fault_exhausted_returns_success fuel :
  @MemoryAllocPage dlx_constants fuel (k_frames exhausted_kernel)
    = Done (@MEM_FAIL dlx_constants, k_frames exhausted_kernel) /\
  exists k',
    @MemoryPageFaultHandler dlx_constants fuel exhausted_kernel
      = Done (@MEM_SUCCESS dlx_constants, k') /\
    k_killed k' = true /\
    npages (k_pcb k') = npages (k_pcb exhausted_kernel) + 1 /\
    pagetable (k_pcb exhausted_kernel) !! 0x1FD%nat = Some 0 /\
    pagetable (k_pcb k') !! 0x1FD%nat = Some 0xFFFFF001.
Proof.
  split; [reflexivity|].
  eexists. split; [reflexivity|]. vm_compute. done.
Qed.

(** C2 (the code departs from it).  With the DLX constants, a copy of 32
    bytes to user address 0xFF0 of a process that has page 0 mapped and
    page 1 not: 16 bytes lie in the mapped page, the translation of 0x1000
    fails, and the call returns 32. *)
Theorem copy_runs_past_unmapped_page m :
  @MemoryTranslateUserToSystem dlx_constants one_page_pcb 0xFF0 = Done 0x5FF0 /\
  @MemoryTranslateUserToSystem dlx_constants one_page_pcb 0x1000
    = Done (to_uint32 (@MEM_FAIL dlx_constants)) /\
  copied (@MemoryMoveBetweenSpaces dlx_constants 32 one_page_pcb m 0x10000 0xFF0 32 1)
    = Done 32.
Proof. repeat split; vm_compute; reflexivity. Qed.

Section Buddy_heap.
Context {C : MemConstants}.

(** What a block that passes the size test offers. *)
Lemma fits_bounds r m : 0 < r -> fits r m -> r <= size m < 2 * r.
Proof.
  intros Hr [Hle Hgt]. split; [done|].
  rewrite Z.quot_div_nonneg in Hgt by lia. Z.div_mod_to_equations. lia.
Qed.

(** A search that finds a block has marked a free leaf that passes the
    size test, and returns its address. *)
Lemma search_marks fuel h node r res h' :
  MemoryNodeSearch fuel h node r = Done (res, h') -> res >= 0 -> marks r res h'.
Proof.
  revert h node res h'. induction fuel as [|fuel IH]; intros h node res h'; simpl; [done|].
  destruct node as [i|]; [|intros [= <- <-]; lia].
  destruct (h !! i) as [n|] eqn:Hn; [|done].
  destruct (decide (free_leaf n)) as [Hfree|_].
  - destruct (decide (fits r n)) as [Hfits|_]; intros [= <- <-] Hres; [|lia].
    by exists i, n, h.
  - destruct (MemoryNodeSearch fuel h (left n) r) as [[t h1]| |] eqn:Hl; simpl; [|done..].
    destruct (decide (t >= 0)).
    + intros [= <- <-] _. by eapply IH.
    + apply IH.
Qed.

(** The same for the search that splits. *)
Lemma split_marks fuel h node r res h' :
  MemorySplitNode fuel h node r = Done (res, h') -> res >= 0 -> marks r res h'.
Proof.
  revert h node res h'. induction fuel as [|fuel IH]; intros h node res h'; simpl; [done|].
  destruct node as [i|]; [|intros [= <- <-]; lia].
  destruct (h !! i) as [n|] eqn:Hn; [|done].
  assert (forall h0,
    ('(t, h1) ← MemorySplitNode fuel h0 (left (h0 !!! i)) r;
     if decide (t >= 0) then Done (t, h1)
     else MemorySplitNode fuel h1 (right (h1 !!! i)) r) = Done (res, h') ->
    res >= 0 -> marks r res h') as Hdescend.
  { intros h0.
    destruct (MemorySplitNode fuel h0 (left (h0 !!! i)) r) as [[t h1]| |] eqn:Hl;
      simpl; [|done..].
    destruct (decide (t >= 0)).
    - intros [= <- <-] _. by eapply IH.
    - apply IH. }
  destruct (decide (free_leaf n)) as [Hfree|_]; [|apply Hdescend].
  destruct (decide (fits r n)) as [Hfits|_].
  { intros [= <- <-] Hres. by exists i, n, h. }
  destruct (decide (Z.quot (size n) 2 < r)); [intros [= <- <-]; lia|].
  destruct (decide (order n = 0)); [intros [= <- <-]; lia|].
  destruct (slot h (to_int (2 * index n))) as [l|]; [|done].
  destruct (slot h (to_int (2 * index n + 1))) as [r'|]; [|done].
  apply Hdescend.
Qed.

(** C4.  A request [r] with [r <= 0] or [r] above the size of the heap
    region (one page) is rejected with NULL and changes nothing.  When
    malloc returns an address, the last thing it did was to mark in use a
    free leaf [m] whose size [s] satisfies [r <= s < 2r], whether the leaf
    was found by the search or made by splitting, and the address returned
    is the address of [m] tagged with the heap page. *)
Theorem malloc_block_size :
  (forall fuel pcb r,
     r <= 0 \/ r > MEM_PAGESIZE -> malloc fuel pcb r = Done (NULL, pcb)) /\
  (forall fuel pcb r ptr pcb',
     malloc fuel pcb r = Done (ptr, pcb') -> ptr <> NULL ->
     0 < r <= MEM_PAGESIZE /\
     exists j m h0,
       heap_array pcb' = <[j := set_inuse 1 m]> h0 /\ h0 !! j = Some m /\
       free_leaf m /\ r <= size m < 2 * r /\
       ptr = to_uint32 (to_int (Z.lor (MEM_PAGESIZE * 4) (address m)))).
Proof.
  split.
  - intros fuel pcb r Hr. unfold malloc. by rewrite decide_True.
  - intros fuel pcb r ptr pcb'. unfold malloc.
    destruct (decide (r <= 0 \/ r > MEM_PAGESIZE)) as [|Hr]; [by intros [= <- <-]|].
    assert (0 < r <= MEM_PAGESIZE) as Hr' by lia.
    destruct (MemoryNodeSearch fuel (heap_array pcb) (Some 1%nat) r)
      as [[block h1]| |] eqn:Hsearch; simpl; [|done..].
    destruct (decide (block >= 0)) as [Hb|Hb].
    { destruct (read_size _ block) as [sz| |]; simpl; [|done..].
      intros [= <- <-] _. split; [done|].
      destruct (search_marks _ _ _ _ _ _ Hsearch Hb) as (j & m & h0 & -> & ? & ? & ? & <-).
      exists j, m, h0. split; [done|]. split; [done|]. split; [done|].
      split; [apply fits_bounds; [lia|done]|done]. }
    destruct (MemorySplitNode fuel h1 (Some 1%nat) r)
      as [[block' h2]| |] eqn:Hsplit; simpl; [|done..].
    destruct (decide (block' >= 0)) as [Hb'|Hb']; [|by intros [= <- <-]].
    destruct (read_size _ block') as [sz| |]; simpl; [|done..].
    intros [= <- <-] _. split; [done|].
    destruct (split_marks _ _ _ _ _ _ Hsplit Hb') as (j & m & h0 & -> & ? & ? & ? & <-).
    exists j, m, h0. split; [done|]. split; [done|]. split; [done|].
    split; [apply fits_bounds; [lia|done]|done].
Qed.

(** *** The heap invariant *)

Hypothesis Hconst : heap_constants_ok.

Lemma alter_as_insert {A} (f : A -> A) (h : list A) i n :
  h !! i = Some n -> alter f i h = <[i := f n]> h.
Proof.
  intros Hn. apply list_eq. intros j. destruct (decide (i = j)) as [<-|Hne].
  - rewrite list_lookup_alter_eq, list_lookup_insert_eq, Hn; [done|].
    by apply lookup_lt_Some in Hn.
  - by rewrite list_lookup_alter_ne, list_lookup_insert_ne.
Qed.

Lemma keeps_good j n n' : keeps n n' -> good j n -> good j n'.
Proof.
  intros (_ & Ho & Hs & Ha & _) Hg. unfold good in *. by rewrite Ho, Hs, Ha.
Qed.

Lemma linked_update h i n n' j c :
  h !! i = Some n -> keeps n n' -> linked h j c -> linked (<[i := n']> h) j c.
Proof.
  intros Hn Hk (m & Hm & Hg & Hp). destruct (decide (i = c)) as [->|Hne].
  - exists n'. rewrite list_lookup_insert_eq by (by apply lookup_lt_Some in Hn).
    assert (m = n) as -> by congruence.
    split; [done|]. split; [by eapply keeps_good|]. destruct Hk as (_ & _ & _ & _ & -> & _). done.
  - exists m. by rewrite list_lookup_insert_ne.
Qed.

Lemma node_ok_update h i n n' j m :
  h !! i = Some n -> keeps n n' -> node_ok h j m -> node_ok (<[i := n']> h) j m.
Proof.
  intros Hn Hk [Hidx Hlinks]. split; [done|].
  destruct Hlinks as [?|(? & ? & ? & ? & ?)]; [by left|right].
  repeat split; try done; by eapply linked_update.
Qed.

(** Changing the [inuse] flag of a node, or dropping its children, keeps
    the invariant. *)
Lemma wf_update h i n n' :
  heap_wf h -> h !! i = Some n -> keeps n n' -> heap_wf (<[i := n']> h).
Proof.
  intros (Hlen & (root & Hroot & Hrg & Hrp) & Hnodes) Hn Hk.
  pose proof (lookup_lt_Some _ _ _ Hn) as Hlt.
  split; [by rewrite length_insert|]. split.
  - destruct (decide (i = 1%nat)) as [->|Hne].
    + exists n'. rewrite list_lookup_insert_eq by done.
      assert (root = n) as -> by congruence.
      split; [done|]. split; [by eapply keeps_good|].
      destruct Hk as (_ & _ & _ & _ & -> & _). done.
    + exists root. by rewrite list_lookup_insert_ne.
  - intros j m Hm. destruct (decide (i = j)) as [<-|Hne].
    + rewrite list_lookup_insert_eq in Hm by done. injection Hm as <-.
      specialize (Hnodes i n Hn). destruct Hnodes as [Hidx Hlinks].
      destruct Hk as (Hki & Hko & Hks & Hka & Hkp & Hkl).
      split; [congruence|].
      destruct Hkl as [[Hl Hr]|[Hl Hr]]; [|by left].
      rewrite Hl, Hr.
      destruct Hlinks as [?|(? & ? & ? & ? & ?)]; [by left|right].
      assert (keeps n n') as Hk by (unfold keeps; rewrite Hl, Hr; auto 10).
      repeat split; try done; by eapply linked_update.
    + rewrite list_lookup_insert_ne in Hm by done.
      eapply node_ok_update; eauto.
Qed.

Lemma keeps_set_inuse v n : keeps n (set_inuse v n).
Proof. unfold keeps. simpl. auto 10. Qed.

Lemma keeps_reset n : keeps n (reset_node n).
Proof. unfold keeps. simpl. auto 10. Qed.

Lemma wf_child h i n c :
  heap_wf h -> h !! i = Some n -> left n = Some c \/ right n = Some c -> good_at h c.
Proof.
  intros (_ & _ & Hnodes) Hn Hc. destruct (Hnodes i n Hn) as [_ Hlinks].
  destruct Hlinks as [[Hl Hr]|(Hi & Hl & Hr & (ml & Hml & Hgl & _) & (mr & Hmr & Hgr & _))].
  { destruct Hc; congruence. }
  destruct Hc as [Hc|Hc].
  - assert (c = (2 * i)%nat) as -> by congruence. split; [lia|eauto].
  - assert (c = (2 * i + 1)%nat) as -> by congruence. split; [lia|eauto].
Qed.

Lemma wf_root h : heap_wf h -> good_at h 1.
Proof. intros (_ & (n & ? & ? & _) & _). split; [lia|eauto]. Qed.

(** Coalescing only clears nodes: it keeps the invariant. *)
Lemma coalescing_wf fuel h node h' :
  heap_wf h -> MemoryCoalescing fuel h node = Done h' -> heap_wf h'.
Proof.
  revert h node. induction fuel as [|fuel IH]; intros h node Hwf; simpl; [done|].
  destruct node as [k|]; [|by intros [= <-]].
  destruct (h !! k) as [n|] eqn:Hn; [|done].
  rewrite (alter_as_insert _ _ _ _ Hn).
  set (h1 := <[k := reset_node n]> h).
  assert (heap_wf h1) as Hwf1 by (eapply wf_update; eauto using keeps_reset).
  destruct (parent (h1 !!! k)) as [p|]; [|by intros [= <-]].
  destruct (h1 !! p) as [np|]; [|done].
  destruct (if decide (left np = Some k) then right np else left np) as [b|]; [|done].
  destruct (h1 !! b) as [nb|]; [|done].
  destruct (decide (inuse nb = 0)); [|by intros [= <-]].
  by apply IH.
Qed.

(** The heap after MemorySplitNode has made the children [l] and [r] of
    node [i], read node by node. *)
Lemma split_children_lookup h i l r n nl nr :
  h !! i = Some n -> h !! l = Some nl -> h !! r = Some nr ->
  l <> i -> r <> i -> l <> r ->
  let h' := split_children h i l r in
  length h' = length h /\
  h' !! i = Some (set_right (Some r) (set_left (Some l) n)) /\
  h' !! l = Some (mkNode (index nl) (to_int (order n - 1)) (Z.quot (size n) 2)
                         (address n) (inuse nl) (Some i) None None) /\
  h' !! r = Some (mkNode (index nr) (to_int (order n - 1)) (Z.quot (size n) 2)
                         (to_int (address n + Z.quot (size n) 2)) (inuse nr)
                         (Some i) None None) /\
  forall j, j <> i -> j <> l -> j <> r -> h' !! j = h !! j.
Proof.
  intros Hn Hl Hr Hli Hri Hlr. unfold split_children.
  pose proof (lookup_lt_Some _ _ _ Hn). pose proof (lookup_lt_Some _ _ _ Hl).
  pose proof (lookup_lt_Some _ _ _ Hr).
  cbv zeta.
  repeat (rewrite list_lookup_total_alter_ne by done).
  rewrite (list_lookup_total_correct _ _ _ Hn).
  repeat (rewrite list_lookup_total_alter_eq by (rewrite ?length_alter; done)).
  cbn [size set_size set_order].
  split; [by rewrite !length_alter|]. split; [|split; [|split]].
  - rewrite list_lookup_alter_eq, list_lookup_alter_eq.
    repeat (rewrite list_lookup_alter_ne by done). by rewrite Hn.
  - repeat (rewrite list_lookup_alter_ne by done).
    rewrite !list_lookup_alter_eq, Hl. done.
  - repeat (rewrite list_lookup_alter_ne by done).
    rewrite !list_lookup_alter_eq.
    repeat (rewrite list_lookup_alter_ne by done). rewrite Hr. done.
  - intros j ? ? ?. by repeat (rewrite list_lookup_alter_ne by done).
Qed.

Lemma good_order_bound j m : (1 <= j)%nat -> good j m -> 0 <= order m < 30.
Proof.
  intros Hj (_ & _ & _ & Ho & Hfit). split; [done|].
  destruct Hconst as (Hnodes & _).
  destruct (Z.lt_ge_cases (order m) 30) as [|Hge]; [done|].
  pose proof (Z.pow_le_mono_r 2 30 (order m) ltac:(lia) Hge). nia.
Qed.

Lemma wf_lookup h i : heap_wf h -> (Z.of_nat i < MEM_NUM_NODES) -> is_Some (h !! i).
Proof. intros (Hlen & _) Hi. apply lookup_lt_is_Some. lia. Qed.

Lemma wf_index h i n : heap_wf h -> h !! i = Some n -> index n = Z.of_nat i.
Proof. intros (_ & _ & Hnodes) Hn. by destruct (Hnodes i n Hn). Qed.

(** Splitting a good free leaf keeps the invariant: the children are
    written at [2i] and [2i+1] and are good. *)
Lemma wf_split h i n l r :
  heap_wf h -> (1 <= i)%nat -> h !! i = Some n -> good i n -> order n <> 0 ->
  slot h (to_int (2 * index n)) = Some l ->
  slot h (to_int (2 * index n + 1)) = Some r ->
  heap_wf (split_children h i l r) /\
  split_children h i l r !! i = Some (set_right (Some r) (set_left (Some l) n)) /\
  good_at (split_children h i l r) l /\ good_at (split_children h i l r) r.
Proof.
  intros Hwf Hi Hn Hg Ho Hl Hr.
  pose proof Hwf as (Hlen & (root & Hroot & Hrg & Hrp) & Hnodes).
  destruct Hconst as (Hnum & Hps0 & Hps).
  pose proof (lookup_lt_Some _ _ _ Hn) as Hilt.
  rewrite (wf_index h i n Hwf Hn) in Hl, Hr.
  unfold slot in Hl, Hr. rewrite to_int_small in Hl, Hr by lia.
  case_decide as Hl'; [|done]. case_decide as Hr'; [|done].
  injection Hl as <-. injection Hr as <-.
  replace (Z.to_nat (2 * Z.of_nat i)) with (2 * i)%nat in * by lia.
  replace (Z.to_nat (2 * Z.of_nat i + 1)) with (2 * i + 1)%nat in * by lia.
  destruct (lookup_lt_is_Some_2 h (2 * i)) as [nl Hnl]; [lia|].
  destruct (lookup_lt_is_Some_2 h (2 * i + 1)) as [nr Hnr]; [lia|].
  destruct (split_children_lookup h i (2 * i) (2 * i + 1) n nl nr)
    as (Hlen' & Hi' & Hl'' & Hr'' & Hother); try done; try lia.
  set (h' := split_children h i (2 * i) (2 * i + 1)) in *.
  pose proof (good_order_bound i n Hi Hg) as Hob.
  destruct Hg as (Ha & Hs & Has & _ & Hfit).
  assert (2 ^ order n = 2 * 2 ^ (order n - 1)) as Hpow.
  { rewrite <- Z.pow_succ_r by lia. f_equal. lia. }
  assert (0 <= 2 ^ (order n - 1)) by (apply Z.pow_nonneg; lia).
  assert (0 <= Z.quot (size n) 2 /\ 2 * Z.quot (size n) 2 <= size n) as Hq.
  { rewrite Z.quot_div_nonneg by lia. Z.div_mod_to_equations. lia. }
  set (ml := mkNode (index nl) _ _ (address n) _ _ _ _) in Hl''.
  set (mr := mkNode (index nr) _ _ _ _ _ _ _) in Hr''.
  assert (good (2 * i) ml) as Hgl.
  { unfold good, ml. simpl. rewrite to_int_small by lia. repeat split; (lia || nia). }
  assert (good (2 * i + 1) mr) as Hgr.
  { unfold good, mr. simpl. rewrite !to_int_small by lia. repeat split; (lia || nia). }
  assert (forall j c, linked h j c -> c <> (2 * i)%nat -> c <> (2 * i + 1)%nat ->
                      linked h' j c) as Hlinked.
  { intros j c (m & Hm & Hgm & Hpm) ? ?. destruct (decide (c = i)) as [->|Hci].
    - eexists. split; [exact Hi'|]. assert (m = n) as -> by congruence. done.
    - exists m. by rewrite Hother. }
  split; [|split; [done|split; (split; [lia|eauto])]].
  split; [by rewrite Hlen'|]. split.
  - destruct (decide (i = 1%nat)) as [->|Hne].
    + eexists. split; [exact Hi'|]. assert (root = n) as -> by congruence. done.
    + exists root. rewrite Hother by lia. done.
  - intros j m Hm.
    destruct (decide (j = i)) as [->|Hji]; [|destruct (decide (j = (2 * i)%nat)) as [->|Hjl];
      [|destruct (decide (j = (2 * i + 1)%nat)) as [->|Hjr]]].
    + rewrite Hi' in Hm. injection Hm as <-. split; [simpl; by apply (wf_index h i n)|].
      right. simpl. repeat split; try done.
      * exists ml. done.
      * exists mr. done.
    + rewrite Hl'' in Hm. injection Hm as <-.
      split; [simpl; by apply (wf_index h (2 * i) nl)|]. by left.
    + rewrite Hr'' in Hm. injection Hm as <-.
      split; [simpl; by apply (wf_index h (2 * i + 1) nr)|]. by left.
    + rewrite Hother in Hm by done. destruct (Hnodes j m Hm) as [Hidx Hlinks].
      split; [done|]. destruct Hlinks as [?|(? & ? & ? & ? & ?)]; [by left|right].
      repeat split; try done; apply Hlinked; try done; lia.
Qed.

(** The search keeps the invariant, and a block that it finds lies in the
    heap page with room for the request. *)
Lemma search_wf fuel h node r res h' :
  heap_wf h -> (forall i, node = Some i -> good_at h i) -> 0 < r ->
  MemoryNodeSearch fuel h node r = Done (res, h') ->
  heap_wf h' /\ (res >= 0 -> 0 <= res /\ res + r <= MEM_PAGESIZE).
Proof.
  intros Hwf Hnode Hr. revert h node res h' Hwf Hnode.
  induction fuel as [|fuel IH]; intros h node res h' Hwf Hnode; simpl; [done|].
  destruct node as [i|]; [|intros [= <- <-]; split; [done|lia]].
  destruct (Hnode i eq_refl) as (Hi & n & Hn & Hg). rewrite Hn.
  destruct (decide (free_leaf n)) as [Hfree|_].
  - destruct (decide (fits r n)) as [[Hle _]|_]; intros [= <- <-]; [|split; [done|lia]].
    split; [eapply wf_update; eauto using keeps_set_inuse|].
    destruct Hg as (? & ? & ? & _). lia.
  - destruct (MemoryNodeSearch fuel h (left n) r) as [[t h1]| |] eqn:Hl; simpl; [|done..].
    apply IH in Hl as [Hwf1 Hres1]; [|done|intros c Hc; eapply wf_child; eauto].
    destruct (decide (t >= 0)); [by intros [= <- <-]|].
    intros Hright. apply IH in Hright; [done..|].
    intros c Hc. destruct (wf_lookup h1 i Hwf1) as [n1 Hn1].
    { destruct Hwf as (Hlen & _). apply lookup_lt_Some in Hn. lia. }
    rewrite (list_lookup_total_correct _ _ _ Hn1) in Hc. eapply wf_child; eauto.
Qed.

(** The same for the search that splits. *)
Lemma split_wf fuel h node r res h' :
  heap_wf h -> (forall i, node = Some i -> good_at h i) -> 0 < r ->
  MemorySplitNode fuel h node r = Done (res, h') ->
  heap_wf h' /\ (res >= 0 -> 0 <= res /\ res + r <= MEM_PAGESIZE).
Proof.
  intros Hwf Hnode Hr. revert h node res h' Hwf Hnode.
  induction fuel as [|fuel IH]; intros h node res h' Hwf Hnode; simpl; [done|].
  destruct node as [i|]; [|intros [= <- <-]; split; [done|lia]].
  destruct (Hnode i eq_refl) as (Hi & n & Hn & Hg). rewrite Hn.
  assert (forall h0, heap_wf h0 ->
    ('(t, h1) ← MemorySplitNode fuel h0 (left (h0 !!! i)) r;
     if decide (t >= 0) then Done (t, h1)
     else MemorySplitNode fuel h1 (right (h1 !!! i)) r) = Done (res, h') ->
    heap_wf h' /\ (res >= 0 -> 0 <= res /\ res + r <= MEM_PAGESIZE)) as Hdescend.
  { intros h0 Hwf0.
    assert (forall hx c, heap_wf hx ->
              left (hx !!! i) = Some c \/ right (hx !!! i) = Some c -> good_at hx c) as Hchild.
    { intros hx c Hwfx Hc. destruct (wf_lookup hx i Hwfx) as [nx Hnx].
      { destruct Hwf as (Hlen & _). apply lookup_lt_Some in Hn. lia. }
      rewrite (list_lookup_total_correct _ _ _ Hnx) in Hc. eapply wf_child; eauto. }
    destruct (MemorySplitNode fuel h0 (left (h0 !!! i)) r) as [[t h1]| |] eqn:Hl;
      simpl; [|done..].
    apply IH in Hl as [Hwf1 Hres1]; [|done|intros c Hc; apply Hchild; auto].
    destruct (decide (t >= 0)); [by intros [= <- <-]|].
    intros Hright. apply IH in Hright; [done..|].
    intros c Hc. apply Hchild; auto. }
  destruct (decide (free_leaf n)) as [Hfree|_]; [|by apply Hdescend].
  destruct (decide (fits r n)) as [[Hle _]|_].
  { intros [= <- <-]. split; [eapply wf_update; eauto using keeps_set_inuse|].
    destruct Hg as (? & ? & ? & _). lia. }
  destruct (decide (Z.quot (size n) 2 < r)); [intros [= <- <-]; split; [done|lia]|].
  destruct (decide (order n = 0)) as [|Ho]; [intros [= <- <-]; split; [done|lia]|].
  destruct (slot h (to_int (2 * index n))) as [l|] eqn:Hl; [|done].
  destruct (slot h (to_int (2 * index n + 1))) as [r'|] eqn:Hr'; [|done].
  apply Hdescend. by eapply wf_split.
Qed.

(** [mfree] without its guards. *)
Lemma mfree_guard fuel pcb ptr :
  mfree fuel pcb ptr =
  if decide (mfree_rejects ptr) then Done (MEM_FAIL, pcb) else free_block fuel pcb ptr.
Proof.
  unfold mfree, mfree_rejects. repeat case_decide; try done; tauto.
Qed.

Lemma initial_wf max_order h :
  0 <= max_order -> 2 * 2 ^ max_order <= MEM_NUM_NODES ->
  heap_initial max_order h -> heap_wf h.
Proof.
  intros Ho Hfit (Hlen & Hnodes & root & Hroot & Hro & Hrs & Hra).
  destruct Hconst as (_ & Hps & _).
  split; [done|]. split.
  - exists root. split; [done|]. split; [|by destruct (Hnodes _ _ Hroot) as (_ & ? & _)].
    unfold good. rewrite Hro, Hrs, Hra. repeat split; lia.
  - intros i n Hn. destruct (Hnodes i n Hn) as (? & _ & ? & ? & _). split; [done|by left].
Qed.

Lemma malloc_wf fuel pcb r ptr pcb' :
  heap_wf (heap_array pcb) ->
  malloc fuel pcb r = Done (ptr, pcb') ->
  heap_wf (heap_array pcb') /\
  (ptr <> NULL ->
   exists block, 0 <= block < MEM_PAGESIZE /\
                 ptr = to_uint32 (to_int (Z.lor (MEM_PAGESIZE * 4) block))).
Proof.
  intros Hwf. unfold malloc.
  destruct (decide (r <= 0 \/ r > MEM_PAGESIZE)) as [|Hr]; [by intros [= <- <-]|].
  destruct (MemoryNodeSearch fuel (heap_array pcb) (Some 1%nat) r)
    as [[block h1]| |] eqn:Hsearch; simpl; [|done..].
  apply search_wf in Hsearch as [Hwf1 Hres1];
    [|done|intros ? [= <-]; by apply wf_root|lia].
  destruct (decide (block >= 0)) as [Hb|Hb].
  { destruct (read_size _ block) as [sz| |]; simpl; [|done..].
    intros [= <- <-]. split; [done|]. intros _. exists block. split; [lia|done]. }
  destruct (MemorySplitNode fuel h1 (Some 1%nat) r)
    as [[block' h2]| |] eqn:Hsplit; simpl; [|done..].
  apply split_wf in Hsplit as [Hwf2 Hres2];
    [|done|intros ? [= <-]; by apply wf_root|lia].
  destruct (decide (block' >= 0)) as [Hb'|Hb'];
    [destruct (read_size _ block') as [sz| |]; simpl; [|done..]|];
    intros [= <- <-]; [|done].
  split; [done|]. intros _. exists block'. split; [lia|done].
Qed.

Lemma mfree_wf fuel pcb ptr res pcb' :
  heap_wf (heap_array pcb) ->
  mfree fuel pcb ptr = Done (res, pcb') ->
  heap_wf (heap_array pcb').
Proof.
  intros Hwf. rewrite mfree_guard. case_decide; [by intros [= <- <-]|].
  unfold free_block.
  destruct (find_node _ _ _ _) as [[k|]| |]; simpl; [|done..].
  destruct (MemoryCoalescing fuel (heap_array pcb) (Some k)) as [h| |] eqn:Hc;
    simpl; [|done..].
  intros [= <- <-]. simpl. by eapply coalescing_wf.
Qed.

(** Every reachable heap array satisfies the invariant. *)
Lemma reachable_wf max_order h :
  0 <= max_order -> 2 * 2 ^ max_order <= MEM_NUM_NODES ->
  heap_reachable max_order h -> heap_wf h.
Proof.
  intros Ho Hfit. induction 1 as [h Hinit|fuel pcb r ptr pcb' _ IH Hm|fuel pcb ptr res pcb' _ IH Hm].
  - by eapply initial_wf.
  - by destruct (malloc_wf _ _ _ _ _ IH Hm).
  - by eapply mfree_wf.
Qed.

(** A heap-relative address tagged with the heap page. *)
Lemma heap_page_tag k block :
  0 <= k -> MEM_PAGESIZE = 2 ^ k -> 0 <= block < MEM_PAGESIZE ->
  Z.lor (MEM_PAGESIZE * 4) block = 4 * MEM_PAGESIZE + block.
Proof.
  intros Hk Hps Hb. rewrite Hps in *.
  replace (2 ^ k * 4) with (2 ^ (k + 2)) by (rewrite Z.pow_add_r by lia; lia).
  replace (4 * 2 ^ k) with (2 ^ (k + 2)) by (rewrite Z.pow_add_r by lia; lia).
  symmetry. apply Z.add_nocarry_lor. apply Z.bits_inj'. intros j Hj.
  rewrite Z.land_spec, Z.bits_0, Z.pow2_bits_eqb by lia.
  destruct (Z.eqb_spec (k + 2) j) as [<-|]; [|done].
  rewrite (testbit_high k block) by lia. done.
Qed.

(** C10.  In a heap array reached from an initial one by malloc and mfree
    calls, an address returned by malloc that is not NULL lies in the heap
    page [4 * MEM_PAGESIZE, 5 * MEM_PAGESIZE), and the guards of mfree let
    it through: mfree goes on to look for its block.  The page size is a
    power of two, and the array has room for a tree of the root order. *)
Theorem malloc_result_in_heap_page max_order k fuel pcb r ptr pcb' :
  0 <= k -> MEM_PAGESIZE = 2 ^ k ->
  0 <= max_order -> 2 * 2 ^ max_order <= MEM_NUM_NODES ->
  heap_reachable max_order (heap_array pcb) ->
  malloc fuel pcb r = Done (ptr, pcb') -> ptr <> NULL ->
  4 * MEM_PAGESIZE <= ptr < 5 * MEM_PAGESIZE /\
  ~ mfree_rejects ptr /\
  forall fuel' pcb'', mfree fuel' pcb'' ptr = free_block fuel' pcb'' ptr.
Proof.
  intros Hk Hps Ho Hfit Hreach Hm Hptr.
  pose proof (reachable_wf max_order _ Ho Hfit Hreach) as Hwf.
  destruct (malloc_wf _ _ _ _ _ Hwf Hm) as [_ Hrange].
  destruct (Hrange Hptr) as (block & Hb & ->).
  destruct Hconst as (_ & Hps0 & Hps5).
  rewrite (heap_page_tag k) by done.
  rewrite to_int_small, to_uint32_small by lia.
  assert (~ mfree_rejects (4 * MEM_PAGESIZE + block)) as Hpass.
  { unfold mfree_rejects, NULL. rewrite to_int_small by lia. lia. }
  split; [lia|]. split; [done|].
  intros fuel' pcb''. rewrite mfree_guard. by rewrite decide_False.
Qed.

(** *** Coalescing *)

(** A node of the tree other than the root hangs below its parent. *)
Lemma live_parent h k :
  heap_wf h -> live h k -> k <> 1%nat ->
  exists p n np,
    (1 <= p)%nat /\ (k = (2 * p)%nat \/ k = (2 * p + 1)%nat) /\
    h !! k = Some n /\ parent n = Some p /\ good k n /\
    h !! p = Some np /\ left np = Some (2 * p)%nat /\ right np = Some (2 * p + 1)%nat /\
    live h p /\ linked h p (2 * p) /\ linked h p (2 * p + 1).
Proof.
  intros (_ & _ & Hnodes) Hlive Hk.
  destruct Hlive as [|i n l Hi Hn Hl|i n r Hi Hn Hr]; [done|..].
  - destruct (Hnodes i n Hn) as [_ [[? _]|(? & Hl' & ? & Hll & Hlr)]]; [congruence|].
    assert (l = (2 * i)%nat) as -> by congruence.
    pose proof Hll as (m & ? & ? & ?). exists i, m, n. auto 15.
  - destruct (Hnodes i n Hn) as [_ [[_ ?]|(? & ? & Hr' & Hll & Hlr)]]; [congruence|].
    assert (r = (2 * i + 1)%nat) as -> by congruence.
    pose proof Hlr as (m & ? & ? & ?). exists i, m, n. auto 15.
Qed.

(** Clearing a node leaves the nodes above it in the tree. *)
Lemma live_reset_above h k n j :
  heap_wf h -> h !! k = Some n -> live h j -> (j < k)%nat ->
  live (<[k := reset_node n]> h) j.
Proof.
  intros Hwf Hn Hlive. induction Hlive as [|i m l Hi IH Hm Hl|i m r Hi IH Hm Hr]; intros Hj.
  - constructor.
  - destruct (wf_child h i m l Hwf Hm (or_introl Hl)) as [_ _].
    pose proof Hwf as (_ & _ & Hnodes).
    destruct (Hnodes i m Hm) as [_ [[? _]|(? & Hl' & _)]]; [congruence|].
    assert (l = (2 * i)%nat) as -> by congruence.
    eapply live_left; [apply IH; lia| |exact Hl].
    rewrite list_lookup_insert_ne by lia. done.
  - pose proof Hwf as (_ & _ & Hnodes).
    destruct (Hnodes i m Hm) as [_ [[_ ?]|(? & _ & Hr' & _)]]; [congruence|].
    assert (r = (2 * i + 1)%nat) as -> by congruence.
    eapply live_right; [apply IH; lia| |exact Hr].
    rewrite list_lookup_insert_ne by lia. done.
Qed.

Lemma reset_chain_head h k path : reset_chain h k path -> exists rest, path = k :: rest.
Proof. destruct 1; eauto. Qed.

(** Freeing a node of the tree: MemoryCoalescing returns, and what it has
    cleared is the chain that the spec describes. *)
Lemma coalescing_chain k :
  forall h, heap_wf h -> live h k ->
  exists path h',
    reset_chain h k path /\
    (forall fuel, (length path <= fuel)%nat ->
                  MemoryCoalescing fuel h (Some k) = Done h') /\
    (forall j, j ∈ path -> h' !! j = reset_node <$> h !! j) /\
    (forall j, j ∉ path -> h' !! j = h !! j) /\
    (forall j, j ∈ path -> (j <= k)%nat).
Proof.
  induction k as [k IH] using lt_wf_ind. intros h Hwf Hlive.
  destruct (decide (k = 1%nat)) as [->|Hk].
  - destruct Hwf as (_ & (n & Hn & _ & Hp) & _).
    exists [1%nat], (alter reset_node 1%nat h). split; [by eapply reset_root|].
    split; [|split; [|split]].
    + intros [|fuel] Hfuel; [simpl in Hfuel; lia|]. simpl. rewrite Hn.
      rewrite list_lookup_total_alter_eq by (by apply lookup_lt_Some in Hn).
      rewrite (list_lookup_total_correct _ _ _ Hn). simpl. by rewrite Hp.
    + intros j ->%list_elem_of_singleton. apply list_lookup_alter_eq.
    + intros j Hj. apply list_lookup_alter_ne. intros <-. apply Hj. by left.
    + intros j ->%list_elem_of_singleton. done.
  - destruct (live_parent h k Hwf Hlive Hk)
      as (p & n & np & Hp & Hkp & Hn & Hpar & Hg & Hnp & Hl & Hr & Hlp & Hll & Hlr).
    set (b := if decide (k = (2 * p)%nat) then (2 * p + 1)%nat else (2 * p)%nat).
    assert (sibling np k = Some b) as Hsib.
    { unfold sibling, b. rewrite Hl, Hr. repeat case_decide; try done; congruence. }
    assert (exists nb, h !! b = Some nb) as [nb Hnb].
    { unfold b. case_decide; [destruct Hlr as (m & ? & _)|destruct Hll as (m & ? & _)]; eauto. }
    assert (b <> k /\ p <> k /\ (p < k)%nat) as (Hbk & Hpk & Hplt)
      by (unfold b; case_decide; lia).
    pose proof (lookup_lt_Some _ _ _ Hn) as Hklt.
    assert (forall fuel,
      MemoryCoalescing (S fuel) h (Some k) =
      if decide (inuse nb = 0)
      then MemoryCoalescing fuel (alter reset_node k h) (Some p)
      else Done (alter reset_node k h)) as Hstep.
    { intros fuel. simpl. rewrite Hn.
      rewrite list_lookup_total_alter_eq by done.
      rewrite (list_lookup_total_correct _ _ _ Hn). simpl. rewrite Hpar.
      rewrite list_lookup_alter_ne by done. rewrite Hnp.
      fold (sibling np k). rewrite Hsib.
      rewrite list_lookup_alter_ne by done. by rewrite Hnb. }
    destruct (decide (inuse nb = 0)) as [Hfree|Hused].
    + assert (heap_wf (alter reset_node k h)) as Hwf1.
      { rewrite (alter_as_insert _ _ _ _ Hn). eapply wf_update; eauto using keeps_reset. }
      assert (live (alter reset_node k h) p) as Hlive1.
      { rewrite (alter_as_insert _ _ _ _ Hn). by apply live_reset_above. }
      destruct (IH p Hplt _ Hwf1 Hlive1) as (path & h' & Hchain & Hrun & Hin & Hout & Hle).
      exists (k :: path), h'. split; [by eapply reset_up|].
      assert (k ∉ path) as Hknot by (intros ?%Hle; lia).
      split; [|split; [|split]].
      * intros [|fuel] Hfuel; [simpl in Hfuel; lia|]. rewrite Hstep.
        apply Hrun. simpl in Hfuel. lia.
      * intros j [->|Hj]%elem_of_cons.
        -- rewrite Hout by done. apply list_lookup_alter_eq.
        -- rewrite Hin by done. rewrite list_lookup_alter_ne; [done|]. by intros <-.
      * intros j Hj. rewrite elem_of_cons in Hj.
        rewrite Hout by tauto. apply list_lookup_alter_ne. intros <-. tauto.
      * intros j [->|Hj%Hle]%elem_of_cons; lia.
    + exists [k], (alter reset_node k h). split; [by eapply reset_stop|].
      split; [|split; [|split]].
      * intros [|fuel] Hfuel; [simpl in Hfuel; lia|]. by rewrite Hstep.
      * intros j ->%list_elem_of_singleton. apply list_lookup_alter_eq.
      * intros j Hj. apply list_lookup_alter_ne. intros <-. apply Hj. by left.
      * intros j ->%list_elem_of_singleton. done.
Qed.


(** *** Freeing an address that no node records *)

Lemma find_node_no_match h a idx node :
  (forall i n, i ∈ idx -> h !! Z.to_nat i = Some n -> address n <> a) ->
  find_node h a idx node = Done node \/ find_node h a idx node = Undefined.
Proof.
  revert node. induction idx as [|i idx IH]; intros node Hno; simpl; [by left|].
  destruct (h !! Z.to_nat i) as [n|] eqn:Hn; [|by right].
  rewrite decide_False by (eapply Hno; [left|done]).
  apply IH. intros j m Hj. apply Hno. by right.
Qed.

(** When the guards of mfree let a pointer through and no node of the
    array records its heap-relative offset, mfree uses its local [node]
    without having set it: it does not return MEM_FAIL. *)
Lemma mfree_no_match fuel pcb ptr :
  ~ mfree_rejects ptr ->
  (forall i n, (1 <= i)%nat -> heap_array pcb !! i = Some n ->
               address n <> Z.land (to_int ptr) MEM_PAGE_OFFSET_MASK) ->
  mfree fuel pcb ptr = Undefined.
Proof.
  intros Hpass Hno. rewrite mfree_guard, decide_False by done. unfold free_block.
  destruct (find_node_no_match (heap_array pcb)
              (Z.land (to_int ptr) MEM_PAGE_OFFSET_MASK)
              (seqZ 1 (MEM_NUM_NODES - 1)) None) as [-> | ->]; [|done..].
  intros i n Hi%elem_of_seqZ Hn. apply (Hno (Z.to_nat i)); [lia|done].
Qed.

End Buddy_heap.

Section Buddy_heap_termination.
Context {C : MemConstants}.
Hypothesis Hconst : heap_constants_ok.

Lemma wf_child_below h i n c :
  heap_wf h -> h !! i = Some n -> left n = Some c \/ right n = Some c ->
  good_at h c /\ (i < c)%nat.
Proof.
  intros Hwf Hn Hc. split; [by eapply wf_child|].
  destruct Hwf as (_ & _ & Hnodes). destruct (Hnodes i n Hn) as [_ Hlinks].
  destruct Hlinks as [[Hl Hr]|(Hi & Hl & Hr & _)]; destruct Hc; try congruence.
  - assert (c = (2 * i)%nat) by congruence. lia.
  - assert (c = (2 * i + 1)%nat) by congruence. lia.
Qed.

(** On a heap that satisfies the invariant, the search returns when its
    fuel exceeds the number of array slots from its start node on. *)
Lemma search_total fuel h node r :
  heap_wf h -> 0 < r -> (0 < fuel)%nat ->
  (forall i, node = Some i -> good_at h i /\ (length h - i < fuel)%nat) ->
  exists res h', MemoryNodeSearch fuel h node r = Done (res, h').
Proof.
  intros Hwf Hr. revert h node Hwf.
  induction fuel as [|fuel IH]; intros h node Hwf Hfuel Hnode; [lia|]. simpl.
  destruct node as [i|]; [|eauto].
  destruct (Hnode i eq_refl) as ((Hi & n & Hn & Hg) & Hlt). rewrite Hn.
  pose proof (lookup_lt_Some _ _ _ Hn) as Hilt.
  destruct (decide (free_leaf n)) as [?|Hnl]; [destruct (decide (fits r n)); eauto|].
  destruct (IH h (left n) Hwf) as (t & h1 & Hleft); [lia| |].
  { intros c Hc. destruct (wf_child_below h i n c Hwf Hn (or_introl Hc)). split; [done|lia]. }
  rewrite Hleft. simpl.
  destruct (search_wf _ _ _ _ _ _ Hwf
              (fun c Hc => wf_child h i n c Hwf Hn (or_introl Hc)) Hr Hleft) as [Hwf1 _].
  destruct (decide (t >= 0)); [eauto|].
  assert (length h1 = length h) as Hlen
    by (destruct Hwf as (? & _), Hwf1 as (? & _); lia).
  destruct (lookup_lt_is_Some_2 h1 i) as [m1 Hn1]; [lia|].
  rewrite (list_lookup_total_correct _ _ _ Hn1).
  apply IH; [done|lia|].
  intros c Hc. destruct (wf_child_below h1 i m1 c Hwf1 Hn1 (or_intror Hc)). split; [done|lia].
Qed.

(** The same for the search that splits. *)
Lemma split_total fuel h node r :
  heap_wf h -> 0 < r -> (0 < fuel)%nat ->
  (forall i, node = Some i -> good_at h i /\ (length h - i < fuel)%nat) ->
  exists res h', MemorySplitNode fuel h node r = Done (res, h').
Proof.
  intros Hwf Hr. revert h node Hwf.
  induction fuel as [|fuel IH]; intros h node Hwf Hfuel Hnode; [lia|]. simpl.
  destruct node as [i|]; [|eauto].
  destruct (Hnode i eq_refl) as ((Hi & n & Hn & Hg) & Hlt). rewrite Hn.
  pose proof (lookup_lt_Some _ _ _ Hn) as Hilt.
  assert (forall h0, heap_wf h0 -> length h0 = length h ->
    exists res h',
      ('(t, h1) ← MemorySplitNode fuel h0 (left (h0 !!! i)) r;
       if decide (t >= 0) then Done (t, h1)
       else MemorySplitNode fuel h1 (right (h1 !!! i)) r) = Done (res, h')) as Hdescend.
  { intros h0 Hwf0 Hlen0.
    destruct (lookup_lt_is_Some_2 h0 i) as [m0 Hn0]; [lia|].
    rewrite (list_lookup_total_correct _ _ _ Hn0).
    destruct (IH h0 (left m0) Hwf0) as (t & h1 & Hleft); [lia| |].
    { intros c Hc. destruct (wf_child_below h0 i m0 c Hwf0 Hn0 (or_introl Hc)).
      split; [done|lia]. }
    rewrite Hleft. simpl.
    destruct (split_wf Hconst _ _ _ _ _ _ Hwf0
                (fun c Hc => wf_child h0 i m0 c Hwf0 Hn0 (or_introl Hc)) Hr Hleft)
      as [Hwf1 _].
    destruct (decide (t >= 0)); [eauto|].
    assert (length h1 = length h) as Hlen
      by (destruct Hwf0 as (? & _), Hwf1 as (? & _); lia).
    destruct (lookup_lt_is_Some_2 h1 i) as [m1 Hn1]; [lia|].
    rewrite (list_lookup_total_correct _ _ _ Hn1).
    apply IH; [done|lia|].
    intros c Hc. destruct (wf_child_below h1 i m1 c Hwf1 Hn1 (or_intror Hc)).
    split; [done|lia]. }
  destruct (decide (free_leaf n)) as [Hfree|_]; [|by apply Hdescend].
  destruct (decide (fits r n)); [eauto|].
  destruct (decide (Z.quot (size n) 2 < r)); [eauto|].
  destruct (decide (order n = 0)) as [|Ho]; [eauto|].
  pose proof (good_order_bound Hconst i n Hi Hg) as Hob.
  assert (Z.of_nat (2 * i + 1) < Z.of_nat (length h)) as Hroom.
  { destruct Hg as (_ & _ & _ & _ & Hfit). destruct Hwf as (Hlen & _).
    assert (2 ^ 1 <= 2 ^ order n) by (apply Z.pow_le_mono_r; lia). nia. }
  destruct Hconst as (Hnum & _).
  assert (slot h (to_int (2 * index n)) = Some (2 * i)%nat) as Hl.
  { rewrite (wf_index h i n Hwf Hn). unfold slot.
    destruct Hwf as (Hlen & _). rewrite to_int_small by lia.
    rewrite decide_True by lia. f_equal. lia. }
  assert (slot h (to_int (2 * index n + 1)) = Some (2 * i + 1)%nat) as Hr'.
  { rewrite (wf_index h i n Hwf Hn). unfold slot.
    destruct Hwf as (Hlen & _). rewrite to_int_small by lia.
    rewrite decide_True by lia. f_equal. lia. }
  rewrite Hl, Hr'.
  destruct (wf_split Hconst h i n _ _ Hwf Hi Hn Hg Ho Hl Hr') as (Hwf' & _).
  apply Hdescend; [done|].
  destruct Hwf as (? & _), Hwf' as (? & _). lia.
Qed.

Lemma search_fail_same fuel h node r res h' :
  heap_wf h -> (forall i, node = Some i -> good_at h i) ->
  MemoryNodeSearch fuel h node r = Done (res, h') -> ~ res >= 0 -> h' = h.
Proof.
  intros Hwf. revert node res h'.
  induction fuel as [|fuel IH]; intros node res h' Hnode; simpl; [done|].
  destruct node as [i|]; [|by intros [= <- <-]].
  destruct (Hnode i eq_refl) as (Hi & n & Hn & Hg). rewrite Hn.
  destruct (decide (free_leaf n)) as [Hfree|_].
  - destruct (decide (fits r n)); intros [= <- <-]; [|done].
    intros Hneg. destruct Hg as (? & _). lia.
  - destruct (MemoryNodeSearch fuel h (left n) r) as [[t h1]| |] eqn:Hl; simpl; [|done..].
    destruct (decide (t >= 0)) as [Ht|Ht]; [by intros [= <- <-]|].
    apply IH in Hl; [|intros c Hc; eapply wf_child; eauto|done]. subst h1.
    rewrite (list_lookup_total_correct _ _ _ Hn).
    intros Hright Hneg. eapply IH; [|exact Hright|done].
    intros c Hc. eapply wf_child; eauto.
Qed.

Lemma read_size_overrun pcb block :
  heap_wf (heap_array pcb) -> block >= 0 ->
  (exists sz, read_size pcb block = Done sz) \/
  (read_size pcb block = Undefined /\ MEM_NUM_NODES <= block).
Proof.
  intros (Hlen & _) Hb. unfold read_size, slot. case_decide as Hin; [eauto|].
  right. split; [done|]. lia.
Qed.

(** X12.  On a reachable heap and with fuel for the length of the heap
    array, the two walks over the tree that [malloc] makes come to an end.
    The call then returns, unless the address of the block that was found
    is not an index of the node array: [malloc] reads
    [pcb->heap_array[block].size] with that address as index, outside the
    array from MEM_NUM_NODES on. *)
Theorem malloc_ends_or_overruns max_order fuel pcb r :
  0 <= max_order -> 2 * 2 ^ max_order <= MEM_NUM_NODES ->
  heap_reachable max_order (heap_array pcb) ->
  (length (heap_array pcb) <= fuel)%nat ->
  (exists ptr pcb', malloc fuel pcb r = Done (ptr, pcb')) \/
  (malloc fuel pcb r = Undefined /\
   exists block h',
     MEM_NUM_NODES <= block /\
     (MemoryNodeSearch fuel (heap_array pcb) (Some 1%nat) r = Done (block, h') \/
      MemorySplitNode fuel (heap_array pcb) (Some 1%nat) r = Done (block, h'))).
Proof.
  intros Ho Hfit Hreach Hfuel.
  pose proof (reachable_wf Hconst max_order _ Ho Hfit Hreach) as Hwf.
  unfold malloc. destruct (decide (r <= 0 \/ r > MEM_PAGESIZE)) as [|Hr]; [eauto|].
  pose proof (wf_root _ Hwf) as Hroot.
  assert (forall c, Some 1%nat = Some c -> good_at (heap_array pcb) c) as Hstart
    by (by intros ? [= <-]).
  assert (1 < length (heap_array pcb))%nat as Hlen.
  { destruct Hroot as (_ & root & Hn & _). by apply lookup_lt_Some in Hn. }
  assert (0 < r) as Hr0 by lia.
  destruct (search_total fuel (heap_array pcb) (Some 1%nat) r) as (block & h1 & Hs);
    [done|lia|lia|intros ? [= <-]; split; [done|lia]|].
  destruct (search_wf _ _ _ _ _ _ Hwf Hstart Hr0 Hs) as [Hwf1 _].
  rewrite Hs. cbn [mbind outcome_bind]. destruct (decide (block >= 0)) as [Hb|Hb].
  { destruct (read_size_overrun (set_heap_array h1 pcb) block Hwf1 Hb)
      as [[sz ->]|[-> Hover]]; cbn [mbind outcome_bind]; [eauto|].
    right. split; [done|]. exists block, h1. auto. }
  pose proof (search_fail_same _ _ _ _ _ _ Hwf Hstart Hs Hb) as ->.
  cbn [heap_array set_heap_array].
  destruct (split_total fuel (heap_array pcb) (Some 1%nat) r) as (block' & h2 & Hsp);
    [done|lia|lia|intros ? [= <-]; split; [by apply wf_root|lia]|].
  destruct (split_wf Hconst _ _ _ _ _ _ Hwf Hstart Hr0 Hsp) as [Hwf2 _].
  rewrite Hsp. cbn [mbind outcome_bind]. destruct (decide (block' >= 0)) as [Hb'|Hb']; [|eauto].
  destruct (read_size_overrun (set_heap_array h2 (set_heap_array (heap_array pcb) pcb))
              block' Hwf2 Hb') as [[sz ->]|[-> Hover]]; cbn [mbind outcome_bind]; [eauto|].
  right. split; [done|]. exists block', h2. auto.
Qed.

End Buddy_heap_termination.

(** * Further properties of the frame allocator *)

Section Frame_allocator_further.
Context {C : MemConstants}.

Lemma to_int_add_idemp x y : to_int (to_int x + y) = to_int (x + y).
Proof.
  unfold to_int.
  replace ((x + 2 ^ 31) mod 2 ^ 32 - 2 ^ 31 + y + 2 ^ 31)
    with ((x + 2 ^ 31) mod 2 ^ 32 + y) by lia.
  rewrite Zplus_mod_idemp_l. do 2 f_equal. lia.
Qed.

(** X1.  On a 32-bit value, [invert] is the bitwise complement: it yields
    0xFFFFFFFF minus the value, stays within 32 bits, and applied twice
    gives the value back. *)
Theorem invert_complement n :
  0 <= n < 2 ^ 32 ->
  invert n = 0xFFFFFFFF - n /\ 0 <= invert n < 2 ^ 32 /\ invert (invert n) = n.
Proof.
  intros Hn.
  assert (invert n = 0xFFFFFFFF - n) as Hsub.
  { change 0xFFFFFFFF with (Z.ones 32).
    rewrite Z.sub_nocarry_ldiff.
    - apply Z.bits_inj'. intros j Hj.
      rewrite invert_testbit, Z.ldiff_spec, Z.testbit_ones_nonneg by lia.
      destruct (Z.ltb_spec j 32); simpl.
      + by rewrite xorb_true_r.
      + rewrite testbit_uint32_high by lia. done.
    - apply Z.bits_inj'. intros j Hj.
      rewrite Z.ldiff_spec, Z.bits_0, Z.testbit_ones_nonneg by lia.
      destruct (Z.ltb_spec j 32); simpl; [by rewrite andb_false_r|].
      rewrite testbit_uint32_high by lia. done. }
  split; [done|]. split; [lia|].
  unfold invert. rewrite Z.lxor_assoc, Z.lxor_nilpotent, Z.lxor_0_r. done.
Qed.

(** The word that MemoryEditFreemap writes for a value of 0 or 1. *)
Lemma write_bit_testbit w b v j :
  0 <= w < 2 ^ 32 -> 0 <= b < 32 -> v = 0 \/ v = 1 -> 0 <= j ->
  Z.testbit (Z.lor (Z.land w (invert (bit_mask b))) (to_uint32 (Z.shiftl v b))) j =
  if decide (j = b) then bool_decide (v = 1) else Z.testbit w j.
Proof.
  intros Hw Hb [-> | ->] Hj.
  - rewrite Z.shiftl_0_l. change (to_uint32 0) with 0. rewrite Z.lor_0_r.
    rewrite clear_bit_testbit by lia. by case_decide.
  - rewrite set_bit_testbit by lia. by case_decide.
Qed.

Lemma write_bit_range w b v :
  0 <= w < 2 ^ 32 -> 0 <= b < 32 -> v = 0 \/ v = 1 ->
  0 <= Z.lor (Z.land w (invert (bit_mask b))) (to_uint32 (Z.shiftl v b)) < 2 ^ 32.
Proof.
  intros Hw Hb [-> | ->].
  - rewrite Z.shiftl_0_l. change (to_uint32 0) with 0. rewrite Z.lor_0_r.
    by apply clear_bit_range.
  - by apply set_bit_range.
Qed.

(** X2.  MemoryEditFreemap(page, val) with [val] 0 or 1, on a frame number
    below 512: it returns, frame [page] then reads as free exactly when
    [val] is 1, every other frame reads as before, and the free count and
    the bounds of the bitmap are not touched. *)
Theorem edit_freemap_writes_bit st page val :
  bitmap_ok st -> 0 <= page < 512 -> val = 0 \/ val = 1 ->
  exists st',
    MemoryEditFreemap page val st = Done st' /\
    frame_free st' page = bool_decide (val = 1) /\
    (forall q, q <> page -> frame_free st' q = frame_free st q) /\
    bitmap_ok st' /\ freemapmax st' = freemapmax st /\
    pagestart st' = pagestart st /\ nfreepages st' = nfreepages st.
Proof.
  intros Hok Hp Hv. unfold MemoryEditFreemap.
  rewrite Z.quot_div_nonneg, Z.rem_mod_nonneg by lia.
  assert (0 <= page / 32 < 16) by (Z.div_mod_to_equations; lia).
  assert (0 <= page mod 32 < 32) by (apply Z.mod_pos_bound; lia).
  rewrite !to_uint32_small by lia. rewrite decide_False by lia.
  destruct (freemap st !! Z.to_nat (page / 32)) as [w|] eqn:Hw.
  2:{ apply lookup_ge_None in Hw. destruct Hok. lia. }
  pose proof (bitmap_ok_word _ _ _ Hok Hw) as Hwr.
  eexists. split; [reflexivity|].
  assert (forall q, frame_free
            (set_freemap (<[Z.to_nat (page / 32) :=
               Z.lor (Z.land w (invert (bit_mask (page mod 32))))
                     (to_uint32 (Z.shiftl val (page mod 32)))]> (freemap st)) st) q
          = if decide (q = page) then bool_decide (val = 1) else frame_free st q) as Hread.
  { intros q.
    erewrite frame_free_update; [| | |exact Hw|reflexivity|]; [|lia|..].
    - replace (32 * (page / 32) + page mod 32) with page by (Z.div_mod_to_equations; lia).
      done.
    - apply Z.mod_pos_bound. lia.
    - intros j Hj. apply write_bit_testbit; (done || lia). }
  split; [by rewrite Hread, decide_True|].
  split; [intros q Hq; by rewrite Hread, decide_False|].
  split; [|done].
  eapply bitmap_ok_update; [exact Hok|reflexivity|reflexivity|].
  by apply write_bit_range.
Qed.

Lemma count_interval (f : Z -> bool) a b n :
  0 <= a -> b <= n ->
  (forall p, f p = true <-> a <= p < b) ->
  length (filter (fun p => f p = true) (seqZ 0 n)) = Z.to_nat (b - a).
Proof.
  intros Ha Hbn Hf. destruct (Z.le_gt_cases b a) as [Hle|Hgt].
  - rewrite filter_none; [simpl; lia|].
    apply Forall_seqZ. intros p Hp. rewrite Hf. lia.
  - replace n with (a + ((b - a) + (n - b))) by lia.
    rewrite seqZ_app, seqZ_app, !filter_app by lia.
    rewrite (filter_none _ (seqZ 0 a)), filter_all, (filter_none _ (seqZ _ (n - b))).
    + rewrite app_nil_r. simpl. by rewrite length_seqZ.
    + apply Forall_seqZ. intros p Hp. rewrite Hf. lia.
    + apply Forall_seqZ. intros p Hp. rewrite Hf. lia.
    + apply Forall_seqZ. intros p Hp. rewrite Hf. lia.
Qed.

(** X3.  MemoryModuleInit, run on the zeroed static variables for a memory
    of at most 512 frames, returns; [pagestart] is one more than the frame
    that holds [lastosaddress & 0x1FFFFC]; a frame is then free exactly
    when it lies from [pagestart] up to the last frame of the memory, so
    that no frame of the kernel image is ever free; and the free count is
    the number of bits set in the bitmap. *)
Theorem init_frees_frames_above_kernel memsize lastosaddress :
  0 < MEM_PAGESIZE -> 0 <= memsize -> Z.quot memsize MEM_PAGESIZE <= 512 ->
  0 <= lastosaddress ->
  exists st0,
    MemoryModuleInit memsize lastosaddress static_state = Done st0 /\
    pagestart st0 = Z.land lastosaddress 0x1FFFFC / MEM_PAGESIZE + 1 /\
    freemapmax st0 = (Z.quot memsize MEM_PAGESIZE + 31) / 32 /\
    (forall p, frame_free st0 p = true <->
               pagestart st0 <= p < Z.quot memsize MEM_PAGESIZE) /\
    nfreepages st0 = Z.max 0 (Z.quot memsize MEM_PAGESIZE - pagestart st0) /\
    frames_consistent st0.
Proof.
  intros Hps Hmem Hmax Hlast. unfold MemoryModuleInit.
  set (maxpage := Z.quot memsize MEM_PAGESIZE) in *.
  assert (0 <= maxpage) by (apply Z.quot_pos; lia).
  assert (0 <= Z.land lastosaddress 0x1FFFFC < 2 ^ 21) as Hland.
  { rewrite Z.land_comm. apply land_bounded_l; lia. }
  set (os := Z.land lastosaddress 0x1FFFFC / MEM_PAGESIZE).
  assert (0 <= os < 2 ^ 21) as Hos.
  { subst os. split; [apply Z.div_pos; lia|].
    apply Z.div_lt_upper_bound; [lia|]. nia. }
  rewrite (to_uint32_small os), (to_uint32_small (os + 1)) by lia.
  rewrite Z.quot_div_nonneg by lia.
  assert (0 <= (maxpage + 31) / 32 <= 16) by (Z.div_mod_to_equations; lia).
  rewrite (to_int_small ((maxpage + 31) / 32)) by lia.
  set (fmax := (maxpage + 31) / 32) in *.
  set (st1 := mkFreeMapState fmax (replicate 16 0) (os + 1) 0).
  assert (for_loop clear_word (seqZ 0 fmax) st1 = Done st1) as Hclear.
  { replace fmax with (Z.of_nat (Z.to_nat fmax)) by lia. apply clear_loop; (done || lia). }
  change (exists st0,
    (for_loop clear_word (seqZ 0 fmax) st1 ≫=
       (fun st => for_loop mark_free
          (seqZ (to_int (pagestart st)) (maxpage - to_int (pagestart st))) st)) = Done st0 /\
    pagestart st0 = os + 1 /\ freemapmax st0 = fmax /\
    (forall p, frame_free st0 p = true <-> pagestart st0 <= p < maxpage) /\
    nfreepages st0 = Z.max 0 (maxpage - pagestart st0) /\
    frames_consistent st0).
  rewrite Hclear. simpl.
  rewrite (to_int_small (os + 1)) by lia.
  assert (marked_up_to (os + 1) (os + 1) fmax st1) as Hm.
  { unfold marked_up_to. split.
    { unfold bitmap_ok, st1. cbn [freemap freemapmax].
      split; [done|]. split; [lia|]. apply Forall_replicate. lia. }
    split; [done|]. split; [done|]. split; [|simpl; lia].
    intros p. split; [|lia]. unfold frame_free, st1. cbn [freemap].
    intros [_ Hbit]%andb_true_iff.
    destruct (replicate 16 0 !! _) as [w|] eqn:Hw; [|done].
    apply lookup_replicate in Hw as [-> _]. by rewrite Z.bits_0 in Hbit. }
  destruct (mark_loop (os + 1) fmax (Z.to_nat (maxpage - (os + 1))) (os + 1) st1)
    as (st0 & Hloop & Hok & Hfmax & Hpst & Hfree & Hn); [done|lia|lia|].
  exists st0. split.
  { destruct (Z.le_gt_cases (maxpage - (os + 1)) 0).
    - rewrite seqZ_nil in * by lia. done.
    - by rewrite Z2Nat.id in Hloop by lia. }
  assert (forall p, frame_free st0 p = true <-> os + 1 <= p < maxpage) as Hfree'.
  { intros p. rewrite Hfree. lia. }
  rewrite Hpst. split; [done|]. split; [done|]. split; [done|]. split; [lia|].
  split; [done|]. unfold free_frames.
  rewrite (count_interval (frame_free st0) (os + 1) maxpage (32 * freemapmax st0)).
  - lia.
  - lia.
  - rewrite Hfmax. subst fmax. Z.div_mod_to_equations. lia.
  - done.
Qed.

Lemma set_bit_of_set w b :
  0 <= w < 2 ^ 32 -> 0 <= b < 32 -> Z.testbit w b = true ->
  Z.lor (Z.land w (invert (bit_mask b))) (to_uint32 (Z.shiftl 1 b)) = w.
Proof.
  intros Hw Hb Hbit. apply Z.bits_inj'. intros j Hj.
  rewrite set_bit_testbit by (done || lia).
  destruct (decide (j = b)) as [->|]; done.
Qed.

Lemma set_bit_of_cleared w b :
  0 <= w < 2 ^ 32 -> 0 <= b < 32 -> Z.testbit w b = true ->
  Z.lor (Z.land (Z.land w (invert (bit_mask b))) (invert (bit_mask b)))
        (to_uint32 (Z.shiftl 1 b)) = w.
Proof.
  intros Hw Hb Hbit. apply Z.bits_inj'. intros j Hj.
  rewrite set_bit_testbit by (done || lia || by apply clear_bit_range).
  rewrite clear_bit_testbit by (done || lia).
  destruct (decide (j = b)) as [->|]; done.
Qed.

(** X4.  Giving back the frame that MemoryAllocPage has just handed out
    undoes the allocation: MemoryFreePage on that frame returns the static
    variables exactly as they were before the allocation, bitmap and free
    count alike. *)
Theorem alloc_then_free_restores fuel st q st' :
  bitmap_ok st -> nfreepages st <> 0 ->
  - 2 ^ 31 <= nfreepages st < 2 ^ 31 ->
  MemoryAllocPage fuel st = Done (q, st') ->
  MemoryFreePage q st' = Done st.
Proof.
  intros Hok Hn Hrange Halloc.
  destruct (alloc_done _ _ _ _ Hok Hn Halloc)
    as (i & b & w & Hi & Hb & Hw & Hbit & _ & _ & _ & -> & ->).
  pose proof (bitmap_ok_word _ _ _ Hok Hw) as Hwr.
  unfold MemoryFreePage, MemoryEditFreemap.
  rewrite (to_int_small (32 * i + b)) by lia.
  rewrite Z.quot_div_nonneg, Z.rem_mod_nonneg by lia.
  replace ((32 * i + b) / 32) with i by (Z.div_mod_to_equations; lia).
  replace ((32 * i + b) mod 32) with b by (Z.div_mod_to_equations; lia).
  rewrite !to_uint32_small by lia. rewrite decide_False by lia.
  cbn [freemap freemapmax pagestart nfreepages set_freemap set_nfreepages].
  rewrite list_lookup_insert_eq by (apply lookup_lt_Some in Hw; done).
  cbn [mbind outcome_bind freemap freemapmax pagestart nfreepages set_freemap set_nfreepages].
  rewrite list_insert_insert_eq, set_bit_of_cleared by (done || lia).
  rewrite list_insert_id by done.
  rewrite to_int_add_idemp. replace (nfreepages st - 1 + 1) with (nfreepages st) by lia.
  rewrite to_int_small by lia. by destruct st.
Qed.

(** X5.  MemoryFreePage does not look at the bit it sets.  Called on a
    frame that is already free it leaves the bitmap as it is and still
    adds one to the free count, so that the count no longer is the number
    of bits set: freeing a frame twice makes the bookkeeping inconsistent. *)
Theorem free_of_free_frame_miscounts st p :
  frames_consistent st -> 0 <= p < 512 -> frame_free st p = true ->
  exists st',
    MemoryFreePage p st = Done st' /\
    freemap st' = freemap st /\
    nfreepages st' = nfreepages st + 1 /\
    ~ frames_consistent st'.
Proof.
  intros [Hok Hcount] Hp Hfree.
  assert (0 <= nfreepages st <= 512) as Hn.
  { rewrite Hcount. split; [lia|]. unfold free_frames.
    pose proof (length_filter (fun p => frame_free st p = true) (seqZ 0 (32 * freemapmax st))) as Hlen.
    rewrite length_seqZ in Hlen. destruct Hok as (_ & ? & _). lia. }
  unfold frame_free in Hfree. apply andb_true_iff in Hfree as [_ Hbit].
  destruct (freemap st !! Z.to_nat (p / 32)) as [w|] eqn:Hw; [|done].
  pose proof (bitmap_ok_word _ _ _ Hok Hw) as Hwr.
  unfold MemoryFreePage, MemoryEditFreemap.
  rewrite (to_int_small p) by lia.
  rewrite Z.quot_div_nonneg, Z.rem_mod_nonneg by lia.
  assert (0 <= p / 32 < 16) by (Z.div_mod_to_equations; lia).
  assert (0 <= p mod 32 < 32) by (apply Z.mod_pos_bound; lia).
  rewrite !to_uint32_small by lia. rewrite decide_False by lia.
  rewrite Hw. rewrite set_bit_of_set, list_insert_id by done.
  eexists. split; [reflexivity|].
  cbn [freemap freemapmax pagestart nfreepages set_freemap set_nfreepages].
  rewrite to_int_small by lia.
  split; [done|]. split; [done|].
  intros [_ Hcount']. unfold free_frames, frame_free in *.
  cbn [freemap freemapmax pagestart nfreepages set_freemap set_nfreepages] in Hcount'.
  lia.
Qed.

(** X6.  In any run of MemoryAllocPage and MemoryFreePage calls that
    starts from the state left by the initialisation, an allocation either
    hands out a usable frame that no one holds, or it returns MEM_FAIL with
    the state unchanged, and it does so only when every usable frame is
    held. *)
Theorem alloc_hands_out_unheld_frame st0 maxpage st held fuel q st' :
  MEM_FAIL < 0 -> maxpage <= 512 ->
  frames_inv st0 maxpage st0 [] ->
  frames_run st0 st held ->
  MemoryAllocPage fuel st = Done (q, st') ->
  (q = MEM_FAIL /\ st' = st /\ forall p, p ∈ usable_frames st0 maxpage -> p ∈ held) \/
  (pagestart st0 <= q < maxpage /\ ~ q ∈ held /\ frame_free st' q = false).
Proof.
  intros Hfail Hmax Hinit Hrun Halloc.
  pose proof (run_preserves_inv _ _ _ _ Hfail Hmax Hinit Hrun)
    as (Hok & Hfm & Hps & Hps0 & Hmaxp & Hfree & Hcount & Hheld).
  destruct (decide (nfreepages st = 0)) as [Hz|Hnz].
  - left. rewrite alloc_exhausted in Halloc by done. injection Halloc as <- <-.
    split; [done|]. split; [done|]. intros p Hp. apply Hheld.
    unfold usable_frames in *. rewrite Hps. split; [apply elem_of_seqZ in Hp; lia|].
    destruct (frame_free st p) eqn:Hfp; [|done]. exfalso.
    rewrite Hz in Hcount. symmetry in Hcount.
    apply (f_equal Z.to_nat) in Hcount. rewrite Nat2Z.id in Hcount. simpl in Hcount.
    apply nil_length_inv in Hcount.
    assert (p ∈ filter (fun p => frame_free st p = true) (seqZ (pagestart st) (maxpage - pagestart st))) as Hin.
    { apply list_elem_of_filter. split; [done|]. by rewrite Hps. }
    rewrite Hcount in Hin. by apply elem_of_nil in Hin.
  - right.
    destruct (alloc_frame_free _ _ _ _ Hok Hnz Halloc)
      as (_ & Hq & _ & Hq' & _).
    split; [rewrite <- Hps; by apply Hfree|].
    split; [intros [_ Hc]%Hheld; congruence|].
    by rewrite Hq', decide_True.
Qed.

Lemma find_word_spins fuel st idx :
  (forall j, 0 <= j < Z.max 1 (freemapmax st) -> freemap st !! Z.to_nat j = Some 0) ->
  freemapmax st <= 16 ->
  0 <= idx < Z.max 1 (freemapmax st) ->
  find_word fuel st idx = Timeout.
Proof.
  intros Hz Hmax. revert idx. induction fuel as [|fuel IH]; intros idx Hidx; simpl.
  - rewrite (Hz idx) by done. by rewrite decide_True.
  - rewrite (Hz idx) by done. rewrite decide_True by done.
    rewrite to_int_small by lia. apply IH. destruct (decide _); lia.
Qed.

Lemma no_free_frame_zero_word st i w :
  bitmap_ok st -> (forall p, frame_free st p = false) ->
  0 <= i -> freemap st !! Z.to_nat i = Some w -> w = 0.
Proof.
  intros Hok Hnone Hi Hw. pose proof (bitmap_ok_word _ _ _ Hok Hw) as Hwr.
  apply Z.bits_inj_0. intros b.
  destruct (Z.lt_ge_cases b 0); [by apply Z.testbit_neg_r|].
  destruct (Z.lt_ge_cases b 32); [|apply (testbit_high 32); lia].
  specialize (Hnone (32 * i + b)). unfold frame_free in Hnone.
  replace ((32 * i + b) / 32) with i in Hnone by (Z.div_mod_to_equations; lia).
  replace ((32 * i + b) mod 32) with b in Hnone by (Z.div_mod_to_equations; lia).
  rewrite Hw, bool_decide_eq_true_2 in Hnone by lia. done.
Qed.

(** X22.  MemoryAllocPage trusts the free count.  When the count is not
    zero although no frame is free, as after a frame was freed twice, the
    [while] loop that looks for a non-zero word goes round the bitmap for
    ever: the call does not return, whatever the fuel. *)
Theorem alloc_spins_on_empty_bitmap st fuel :
  bitmap_ok st -> nfreepages st <> 0 ->
  (forall p, frame_free st p = false) ->
  MemoryAllocPage fuel st = Timeout.
Proof.
  intros Hok Hn Hnone. unfold MemoryAllocPage. rewrite decide_False by done.
  rewrite find_word_spins; [done| |destruct Hok as (_ & ? & _); lia|lia].
  intros j Hj. destruct Hok as (Hlen & Hmax & Hall).
  destruct (lookup_lt_is_Some_2 (freemap st) (Z.to_nat j)) as [w Hw]; [lia|].
  rewrite Hw. f_equal.
  apply (no_free_frame_zero_word st j w); [done|done|lia|done].
Qed.

Lemma for_loop_app {S : Type} (body : Z -> S -> outcome S) l1 l2 s :
  for_loop body (l1 ++ l2) s = (s' ← for_loop body l1 s; for_loop body l2 s').
Proof.
  revert s. induction l1 as [|i l1 IH]; intros s; [done|].
  simpl. destruct (body i s); [|done..]. apply IH.
Qed.

(** X23.  The bitmap has room for 512 frames and MemoryModuleInit does not
    check the size of the memory: for a memory of more than 512 frames its
    first loop writes [freemap[16]], outside the array. *)
Theorem init_overruns_bitmap memsize lastosaddress :
  0 < MEM_PAGESIZE -> 512 < Z.quot memsize MEM_PAGESIZE < 2 ^ 31 - 31 ->
  MemoryModuleInit memsize lastosaddress static_state = Undefined.
Proof.
  intros Hps Hmax. unfold MemoryModuleInit.
  set (maxpage := Z.quot memsize MEM_PAGESIZE) in *.
  rewrite Z.quot_div_nonneg by lia.
  assert (17 <= (maxpage + 31) / 32 < 2 ^ 31) by (Z.div_mod_to_equations; lia).
  rewrite (to_int_small ((maxpage + 31) / 32)) by lia.
  set (fmax := (maxpage + 31) / 32) in *.
  cbn [freemapmax freemap pagestart nfreepages set_nfreepages static_state].
  match goal with |- for_loop clear_word _ ?s ≫= _ = _ => set (st1 := s) end.
  assert (freemap st1 = replicate 16 0) as Hfm by reflexivity.
  replace (seqZ 0 fmax) with (seqZ 0 16 ++ seqZ (0 + 16) 1 ++ seqZ (0 + 16 + 1) (fmax - 17)).
  2:{ rewrite <- seqZ_app, <- seqZ_app by lia. f_equal. lia. }
  rewrite for_loop_app.
  assert (for_loop clear_word (seqZ 0 16) st1 = Done st1) as ->
    by (apply (clear_loop st1 16 0); (done || lia)).
  cbn [mbind outcome_bind]. rewrite for_loop_app.
  change (seqZ (0 + 16) 1) with [16]. cbn [for_loop].
  assert (clear_word 16 st1 = Undefined) as ->; [|done].
  unfold clear_word. rewrite decide_False; [done|].
  rewrite Hfm, length_replicate. lia.
Qed.

End Frame_allocator_further.

(** * Further properties of address translation, copies and page faults *)

Section Paging_further.
Context {C : MemConstants}.

Lemma land_page_low k a v :
  0 <= k -> 0 <= v < 2 ^ k -> Z.land (a * 2 ^ k) v = 0.
Proof.
  intros Hk Hv. apply Z.bits_inj'. intros j Hj.
  rewrite Z.land_spec, Z.bits_0.
  destruct (Z.lt_ge_cases j k).
  - by rewrite Z.mul_pow2_bits_low by lia.
  - rewrite (testbit_high k v) by lia. apply andb_false_r.
Qed.

Lemma lor_page_offset k a o :
  0 <= k -> 0 <= o < 2 ^ k -> Z.lor (a * 2 ^ k) o = a * 2 ^ k + o.
Proof.
  intros Hk Ho. symmetry. apply Z.add_nocarry_lor. by apply land_page_low.
Qed.

Lemma translate_nonneg pcb addr v :
  0 < MEM_PAGESIZE -> MemoryTranslateUserToSystem pcb addr = Done v -> 0 <= v.
Proof.
  intros Hps. unfold MemoryTranslateUserToSystem.
  destruct (pagetable pcb !! _) as [pte|]; [|done].
  pose proof (to_uint32_range MEM_MASK_PTE2PAGE).
  pose proof (to_uint32_range MEM_FAIL).
  destruct (decide _); intros [= <-]; [|lia].
  apply Z.lor_nonneg. split.
  - apply Z.land_nonneg. lia.
  - unfold MEM_ADDR2OFFS. apply Z.mod_pos_bound. lia.
Qed.

Lemma translate_not_timeout pcb addr : MemoryTranslateUserToSystem pcb addr <> Timeout.
Proof.
  unfold MemoryTranslateUserToSystem.
  destruct (pagetable pcb !! _); [|done]. by destruct (decide _).
Qed.

Lemma setup_pte_entry k pcb addr f :
  0 <= k < 32 -> MEM_PAGESIZE = 2 ^ k ->
  0 < MEM_PTE_VALID < MEM_PAGESIZE ->
  Z.land MEM_PTE_VALID (to_uint32 MEM_MASK_PTE2PAGE) = 0 ->
  pte_page_representable f ->
  pagetable pcb !! Z.to_nat (MEM_ADDR2PAGE addr) = Some (MemorySetupPte f) ->
  MemoryTranslateUserToSystem pcb addr = Done (Z.lor (f * MEM_PAGESIZE) (MEM_ADDR2OFFS addr)).
Proof.
  intros Hk Hps Hv Hvm (Hf & Hfit & Hmask) Hpte.
  assert (0 < 2 ^ k < 2 ^ 32) as Hpow.
  { split; [apply Z.pow_pos_nonneg; lia|apply Z.pow_lt_mono_r; lia]. }
  unfold MemoryTranslateUserToSystem. rewrite Hpte. unfold MemorySetupPte.
  rewrite (to_uint32_small (f * MEM_PAGESIZE)), (to_uint32_small MEM_PTE_VALID) by lia.
  assert (Z.land (Z.lor (f * MEM_PAGESIZE) MEM_PTE_VALID) MEM_PTE_VALID = MEM_PTE_VALID) as ->.
  { rewrite Z.land_lor_distr_l, Z.land_diag, Hps, land_page_low by lia. apply Z.lor_0_l. }
  rewrite decide_True by lia.
  by rewrite Z.land_lor_distr_l, Hmask, Hvm, Z.lor_0_r.
Qed.

(** X7.  MemoryTranslateUserToSystem undoes MemorySetupPte: when the page
    size is a power of two, the valid bit lies among the offset bits and
    outside MEM_MASK_PTE2PAGE, and the entry of the page of [addr] was
    built by MemorySetupPte for frame [f], the translation of [addr] is
    the address with the same offset in frame [f]. *)
Theorem translate_of_setup_pte k pcb addr f :
  0 <= k < 32 -> MEM_PAGESIZE = 2 ^ k ->
  0 < MEM_PTE_VALID < MEM_PAGESIZE ->
  Z.land MEM_PTE_VALID (to_uint32 MEM_MASK_PTE2PAGE) = 0 ->
  pte_page_representable f ->
  pagetable pcb !! Z.to_nat (MEM_ADDR2PAGE addr) = Some (MemorySetupPte f) ->
  MemoryTranslateUserToSystem pcb addr = Done (f * MEM_PAGESIZE + MEM_ADDR2OFFS addr) /\
  f * MEM_PAGESIZE <= f * MEM_PAGESIZE + MEM_ADDR2OFFS addr < (f + 1) * MEM_PAGESIZE.
Proof.
  intros Hk Hps Hv Hvm Hf Hpte.
  assert (0 < 2 ^ k) as Hpow by (apply Z.pow_pos_nonneg; lia).
  assert (0 <= MEM_ADDR2OFFS addr < 2 ^ k) as Hoff.
  { unfold MEM_ADDR2OFFS. rewrite Hps. apply Z.mod_pos_bound. lia. }
  rewrite (setup_pte_entry k pcb addr f) by done.
  rewrite Hps, lor_page_offset by (done || lia). split; [done|]. lia.
Qed.

Lemma to_uint32_add_idemp x y : to_uint32 (to_uint32 x + y) = to_uint32 (x + y).
Proof. unfold to_uint32. apply Zplus_mod_idemp_l. Qed.

Lemma bytes_left_in_page k v :
  0 <= k < 31 -> MEM_PAGESIZE = 2 ^ k -> to_uint32 MEM_ADDR_OFFS_MASK = MEM_PAGESIZE - 1 ->
  0 <= v ->
  to_int (MEM_PAGESIZE - Z.land v (to_uint32 MEM_ADDR_OFFS_MASK)) = MEM_PAGESIZE - v mod MEM_PAGESIZE /\
  0 < MEM_PAGESIZE - v mod MEM_PAGESIZE <= MEM_PAGESIZE /\ MEM_PAGESIZE < 2 ^ 31.
Proof.
  intros Hk Hps Hm Hv. rewrite Hm, Hps.
  replace (2 ^ k - 1) with (Z.ones k) by (rewrite Z.ones_equiv; lia).
  rewrite Z.land_ones by lia.
  assert (0 < 2 ^ k < 2 ^ 31) as Hpow.
  { split; [apply Z.pow_pos_nonneg; lia|apply Z.pow_lt_mono_r; lia]. }
  pose proof (Z.mod_pos_bound v (2 ^ k) ltac:(lia)).
  rewrite to_int_small by lia. lia.
Qed.

Lemma move_loop_count k pcb dir fuel :
  0 <= k < 31 -> MEM_PAGESIZE = 2 ^ k -> to_uint32 MEM_ADDR_OFFS_MASK = MEM_PAGESIZE - 1 ->
  forall m system user n bc,
    n < 2 ^ 31 -> 0 <= bc -> bc + Z.max 0 n < 2 ^ 31 -> (Z.to_nat n <= fuel)%nat ->
    match move_loop fuel pcb dir m system user n bc with
    | Done (c, _) =>
        bc <= c <= bc + Z.max 0 n /\
        (c < bc + n ->
         MemoryTranslateUserToSystem pcb (to_uint32 (user + (c - bc))) = Done 0)
    | Undefined => True
    | Timeout => False
    end.
Proof.
  intros Hk Hps Hm. induction fuel as [|fuel IH]; intros m system user n bc Hn Hbc Hsum Hfuel.
  - simpl. destruct (decide (n > 0)); [lia|]. split; lia.
  - simpl. destruct (decide (n > 0)) as [Hpos|]; [|split; lia].
    destruct (MemoryTranslateUserToSystem pcb (to_uint32 user)) as [v| |] eqn:Htr;
      [|done|by apply translate_not_timeout in Htr].
    simpl. destruct (decide (v = 0)) as [->|Hv].
    { split; [lia|]. intros _. by rewrite Z.sub_diag, Z.add_0_r. }
    assert (0 <= v) as Hv0.
    { eapply translate_nonneg; [|exact Htr]. rewrite Hps. apply Z.pow_pos_nonneg; lia. }
    destruct (bytes_left_in_page k v Hk Hps Hm Hv0) as (-> & Hleft & Hpsb).
    set (btc := if decide (MEM_PAGESIZE - v mod MEM_PAGESIZE > n) then n
                else MEM_PAGESIZE - v mod MEM_PAGESIZE).
    assert (0 < btc <= n) as Hbtc by (subst btc; destruct (decide _); lia).
    rewrite (to_int_small (n - btc)), (to_int_small (bc + btc)) by lia.
    specialize (IH (if decide (dir >= 0) then bcopy system v btc m else bcopy v system btc m)
                   (to_uint32 (system + btc)) (to_uint32 (user + btc)) (n - btc) (bc + btc)).
    destruct (move_loop fuel pcb dir _ _ _ (n - btc) (bc + btc)) as [[c m']| |];
      [|done|apply IH; lia].
    destruct IH as [Hc Hstop]; [lia..|]. split; [lia|].
    intros Hlt. rewrite <- Hstop by lia. f_equal.
    rewrite to_uint32_add_idemp. f_equal. lia.
Qed.

(** X8.  With a page size that is a power of two and MEM_ADDR_OFFS_MASK its
    offset mask, the loop of MemoryMoveBetweenSpaces is left after at most
    [n] rounds; the count it returns lies between 0 and [n]; and it is less
    than [n] only if the translation of the user address just after the
    bytes copied is the null pointer. *)
Theorem move_between_spaces_count k fuel pcb m system user n dir :
  0 <= k < 31 -> MEM_PAGESIZE = 2 ^ k ->
  to_uint32 MEM_ADDR_OFFS_MASK = MEM_PAGESIZE - 1 ->
  0 <= n < 2 ^ 31 -> (Z.to_nat n <= fuel)%nat ->
  match MemoryMoveBetweenSpaces fuel pcb m system user n dir with
  | Done (c, _) =>
      0 <= c <= n /\
      (c < n -> MemoryTranslateUserToSystem pcb (to_uint32 (user + c)) = Done 0)
  | Undefined => True
  | Timeout => False
  end.
Proof.
  intros Hk Hps Hm Hn Hfuel. unfold MemoryMoveBetweenSpaces.
  pose proof (move_loop_count k pcb dir fuel Hk Hps Hm m system user n 0) as Hloop.
  destruct (move_loop fuel pcb dir m system user n 0) as [[c m']| |]; [|done|apply Hloop; lia].
  destruct Hloop as [Hc Hstop]; [lia..|]. rewrite Z.sub_0_r in Hstop.
  split; [lia|]. intros Hlt. apply Hstop. lia.
Qed.

Lemma move_within_page k fuel pcb dir m system user n pa :
  0 <= k < 31 -> MEM_PAGESIZE = 2 ^ k -> to_uint32 MEM_ADDR_OFFS_MASK = MEM_PAGESIZE - 1 ->
  MemoryTranslateUserToSystem pcb (to_uint32 user) = Done pa -> pa <> 0 ->
  0 < n -> pa mod MEM_PAGESIZE + n <= MEM_PAGESIZE ->
  move_loop (S fuel) pcb dir m system user n 0 =
  Done (n, if decide (dir >= 0) then bcopy system pa n m else bcopy pa system n m).
Proof.
  intros Hk Hps Hm Htr Hpa Hn Hfit.
  assert (0 <= pa) as Hpa0.
  { eapply translate_nonneg; [|exact Htr]. rewrite Hps. apply Z.pow_pos_nonneg; lia. }
  destruct (bytes_left_in_page k pa Hk Hps Hm Hpa0) as (Hleft & Hrange & Hpsb).
  simpl. rewrite decide_True by lia. rewrite Htr. simpl.
  rewrite decide_False by done. rewrite Hleft.
  assert ((if decide (MEM_PAGESIZE - pa mod MEM_PAGESIZE > n) then n
           else MEM_PAGESIZE - pa mod MEM_PAGESIZE) = n) as ->
    by (destruct (decide _); lia).
  rewrite Z.sub_diag, Z.add_0_l.
  rewrite (to_int_small 0) by lia.
  rewrite (to_int_small n) by lia.
  destruct fuel; cbn [move_loop]; rewrite decide_False by lia; done.
Qed.

(** X9.  A copy that fits in what is left of one mapped user page is done
    in one round and returns [n], in both directions; MemoryCopyUserToSystem
    reads from its first argument although it passes its arguments the
    other way round.  Copying [n] bytes from kernel address [src] to the
    user address and then from the user address to kernel address [dst]
    leaves at [dst] the bytes that were at [src]. *)
Theorem copy_round_trip_within_page k f1 f2 pcb m src user dst n pa :
  0 <= k < 31 -> MEM_PAGESIZE = 2 ^ k ->
  to_uint32 MEM_ADDR_OFFS_MASK = MEM_PAGESIZE - 1 ->
  MemoryTranslateUserToSystem pcb (to_uint32 user) = Done pa -> pa <> 0 ->
  0 < n -> pa mod MEM_PAGESIZE + n <= MEM_PAGESIZE ->
  exists m1 m2,
    MemoryCopySystemToUser (S f1) pcb m src user n = Done (n, m1) /\
    MemoryCopyUserToSystem (S f2) pcb m1 user dst n = Done (n, m2) /\
    (forall i, 0 <= i < n -> m1 (pa + i) = m (src + i)) /\
    (forall i, 0 <= i < n -> m2 (dst + i) = m (src + i)).
Proof.
  intros Hk Hps Hm Htr Hpa Hn Hfit.
  unfold MemoryCopySystemToUser, MemoryCopyUserToSystem, MemoryMoveBetweenSpaces.
  rewrite (move_within_page k f1 pcb 1 m src user n pa) by done.
  eexists. rewrite (move_within_page k f2 pcb (-1) _ dst user n pa) by done.
  eexists. split; [reflexivity|]. split; [reflexivity|].
  rewrite decide_True by lia. rewrite decide_False by lia.
  assert (forall i, 0 <= i < n -> bcopy src pa n m (pa + i) = m (src + i)) as Hfirst.
  { intros i Hi. unfold bcopy. rewrite decide_True by lia. f_equal. lia. }
  split; [done|]. intros i Hi. unfold bcopy at 1. rewrite decide_True by lia.
  replace (pa + (dst + i - dst)) with (pa + i) by lia. by apply Hfirst.
Qed.

(** X10.  A fault at or above the page of the saved stack pointer, taken
    while a frame is free, grows the process by one page: the handler
    returns MEM_SUCCESS without terminating the process, takes a frame [q]
    that was free out of the bitmap, counts one page more, leaves the
    other page table entries alone, and from then on the faulting address
    translates to the same offset in frame [q]. *)
Theorem page_fault_maps_faulting_page kk fuel k user_stack_ptr fault_addr p :
  0 < kk < 32 -> MEM_PAGESIZE = 2 ^ kk ->
  0 < MEM_PTE_VALID < MEM_PAGESIZE ->
  Z.land MEM_PTE_VALID (to_uint32 MEM_MASK_PTE2PAGE) = 0 ->
  (forall q, 0 <= q < 512 -> pte_page_representable q) ->
  MEM_FAIL < 0 ->
  currentSavedFrame (k_pcb k) !! PROCESS_STACK_USER_STACKPOINTER = Some user_stack_ptr ->
  currentSavedFrame (k_pcb k) !! PROCESS_STACK_FAULT = Some fault_addr ->
  0 <= fault_addr < 2 ^ 32 ->
  ~ fault_addr < Z.land user_stack_ptr 0x1FF000 ->
  (Z.to_nat (MEM_ADDR2PAGE fault_addr) < length (pagetable (k_pcb k)))%nat ->
  bitmap_ok (k_frames k) -> nfreepages (k_frames k) <> 0 ->
  0 <= p < 32 * freemapmax (k_frames k) -> frame_free (k_frames k) p = true ->
  (16 <= fuel)%nat ->
  exists q k',
    MemoryPageFaultHandler fuel k = Done (MEM_SUCCESS, k') /\
    k_killed k' = k_killed k /\
    frame_free (k_frames k) q = true /\ frame_free (k_frames k') q = false /\
    npages (k_pcb k') = to_int (npages (k_pcb k) + 1) /\
    (forall j, j <> Z.to_nat (MEM_ADDR2PAGE fault_addr) ->
               pagetable (k_pcb k') !! j = pagetable (k_pcb k) !! j) /\
    MemoryTranslateUserToSystem (k_pcb k') fault_addr
      = Done (q * MEM_PAGESIZE + MEM_ADDR2OFFS fault_addr).
Proof.
  intros Hkk Hps Hv Hvm Hrep Hfail Hsp Hfa Hfr Hge Hlen Hok Hn Hp Hfree Hfuel.
  assert (2 <= 2 ^ kk) as Hpow.
  { change 2 with (2 ^ 1) at 1. apply Z.pow_le_mono_r; lia. }
  assert (0 <= MEM_ADDR2PAGE fault_addr < 2 ^ 31) as Hpg.
  { unfold MEM_ADDR2PAGE. rewrite Hps. split; [apply Z.div_pos; lia|].
    apply Z.div_lt_upper_bound; lia. }
  destruct (alloc_total fuel _ p Hok Hn Hp Hfree Hfuel) as (q & fr & Halloc).
  destruct (alloc_frame_free _ _ _ _ Hok Hn Halloc)
    as (Hq & Hqfree & _ & Hfr' & _).
  unfold MemoryPageFaultHandler. rewrite Hsp, Hfa.
  rewrite decide_False by done. rewrite Halloc.
  cbn [mbind outcome_bind k_pcb k_frames k_killed].
  rewrite (decide_False (P := q = MEM_FAIL)) by lia.
  cbn [k_pcb k_frames k_killed].
  rewrite (to_int_small (MEM_ADDR2PAGE fault_addr)) by lia.
  rewrite decide_True by (split; [lia|done]).
  rewrite (to_uint32_small q) by lia.
  eexists q, _. split; [reflexivity|].
  cbn [k_pcb k_frames k_killed npages pagetable set_npages set_pagetable].
  split; [done|]. split; [done|].
  split; [by rewrite Hfr', decide_True|]. split; [done|].
  split; [intros j Hj; by apply list_lookup_insert_ne|].
  erewrite (setup_pte_entry kk _ fault_addr q); [|lia|done|done|done|by apply Hrep|].
  - f_equal. rewrite Hps. apply lor_page_offset; [lia|].
    unfold MEM_ADDR2OFFS. rewrite Hps. apply Z.mod_pos_bound. lia.
  - cbn [pagetable]. by apply list_lookup_insert_eq.
Qed.

End Paging_further.

(** * Further properties of the buddy heap *)

Section Buddy_heap_further.
Context {C : MemConstants}.
Hypothesis Hconst : heap_constants_ok.

Lemma find_node_skip h a idx node :
  (forall i, i ∈ idx -> exists n, h !! Z.to_nat i = Some n /\ address n <> a) ->
  find_node h a idx node = Done node.
Proof.
  revert node. induction idx as [|i idx IH]; intros node Hno; [done|].
  simpl. destruct (Hno i) as (n & -> & Hn); [by constructor|].
  rewrite decide_False by done. apply IH. intros j Hj. apply Hno. by constructor.
Qed.

Lemma find_node_defined h a idx node :
  (forall i, i ∈ idx -> is_Some (h !! Z.to_nat i)) ->
  exists node', find_node h a idx node = Done node'.
Proof.
  revert node. induction idx as [|i idx IH]; intros node Hall; [by eexists|].
  simpl. destruct (Hall i) as [n ->]; [by constructor|].
  apply IH. intros j Hj. apply Hall. by constructor.
Qed.

Lemma find_node_app h a l1 l2 node :
  find_node h a (l1 ++ l2) node = (node' ← find_node h a l1 node; find_node h a l2 node').
Proof.
  revert node. induction l1 as [|i l1 IH]; intros node; [done|].
  simpl. destruct (h !! Z.to_nat i); [|done]. apply IH.
Qed.

Lemma find_node_last h a k n node :
  Z.of_nat (length h) = MEM_NUM_NODES ->
  (1 <= k)%nat -> h !! k = Some n -> address n = a ->
  (forall j m, (k < j)%nat -> h !! j = Some m -> address m <> a) ->
  find_node h a (seqZ 1 (MEM_NUM_NODES - 1)) node = Done (Some k).
Proof.
  intros Hlen Hk Hn Ha Hlast.
  pose proof (lookup_lt_Some _ _ _ Hn) as Hlt.
  replace (MEM_NUM_NODES - 1)
    with ((Z.of_nat k - 1) + (1 + (MEM_NUM_NODES - 1 - Z.of_nat k))) by lia.
  rewrite seqZ_app, find_node_app by lia.
  destruct (find_node_defined h a (seqZ 1 (Z.of_nat k - 1)) node) as [node1 ->].
  { intros i Hi%elem_of_seqZ. apply lookup_lt_is_Some. lia. }
  cbn [mbind outcome_bind].
  rewrite seqZ_app, find_node_app by lia.
  replace (1 + (Z.of_nat k - 1)) with (Z.of_nat k) by lia.
  change (seqZ (Z.of_nat k) 1) with [Z.of_nat k].
  cbn [find_node]. rewrite Nat2Z.id, Hn. rewrite decide_True by done.
  cbn [mbind outcome_bind]. apply find_node_skip.
  intros i Hi%elem_of_seqZ.
  destruct (lookup_lt_is_Some_2 h (Z.to_nat i)) as [m Hm]; [lia|].
  exists m. split; [done|]. apply (Hlast (Z.to_nat i)); [lia|done].
Qed.

Lemma keeps_refl n : keeps n n.
Proof. unfold keeps. auto 10. Qed.

Lemma keeps_trans n1 n2 n3 : keeps n1 n2 -> keeps n2 n3 -> keeps n1 n3.
Proof.
  unfold keeps. intros (? & ? & ? & ? & ? & H12) (? & ? & ? & ? & ? & H23).
  repeat split; try congruence.
  destruct H23 as [[? ?]|[? ?]]; [|by right].
  destruct H12 as [[? ?]|[? ?]]; [left|right]; split; congruence.
Qed.

Lemma coalescing_keeps fuel h node h' :
  MemoryCoalescing fuel h node = Done h' ->
  length h' = length h /\
  forall i n, h !! i = Some n -> exists n', h' !! i = Some n' /\ keeps n n'.
Proof.
  revert h node. induction fuel as [|fuel IH]; intros h node; simpl; [done|].
  assert (forall h0 : list Node, length h0 = length h0 /\
            forall i n, h0 !! i = Some n -> exists n', h0 !! i = Some n' /\ keeps n n') as Hsame.
  { intros h0. split; [done|]. intros i n Hn. exists n. split; [done|apply keeps_refl]. }
  destruct node as [k|]; [|intros [= <-]; apply Hsame].
  destruct (h !! k) as [nk|] eqn:Hnk; [|done].
  rewrite (alter_as_insert _ _ _ _ Hnk).
  set (h1 := <[k := reset_node nk]> h).
  assert (length h1 = length h /\
          forall i n, h !! i = Some n -> exists n', h1 !! i = Some n' /\ keeps n n') as Hstep.
  { unfold h1. split; [apply length_insert|]. intros i n Hn.
    destruct (decide (i = k)) as [->|Hne].
    - exists (reset_node nk). split; [apply list_lookup_insert_eq; by eapply lookup_lt_Some|].
      assert (n = nk) as -> by congruence. apply keeps_reset.
    - exists n. split; [by rewrite list_lookup_insert_ne|apply keeps_refl]. }
  destruct (parent (h1 !!! k)) as [p|]; [|by intros [= <-]].
  destruct (h1 !! p) as [np|]; [|done].
  destruct (if decide (left np = Some k) then right np else left np) as [b|]; [|done].
  destruct (h1 !! b) as [nb|]; [|done].
  destruct (decide (inuse nb = 0)); [|by intros [= <-]].
  intros Hrec. apply IH in Hrec as [Hlen Hrec]. destruct Hstep as [Hlen1 Hstep].
  split; [congruence|]. intros i n Hn.
  destruct (Hstep i n Hn) as (n1 & Hn1 & Hk1).
  destruct (Hrec i n1 Hn1) as (n' & Hn' & Hk'). exists n'. split; [done|].
  by eapply keeps_trans.
Qed.

Lemma free_block_last_match fuel pcb ptr k n :
  Z.of_nat (length (heap_array pcb)) = MEM_NUM_NODES ->
  (1 <= k)%nat -> heap_array pcb !! k = Some n ->
  address n = Z.land (to_int ptr) MEM_PAGE_OFFSET_MASK ->
  (forall j m, (k < j)%nat -> heap_array pcb !! j = Some m ->
               address m <> Z.land (to_int ptr) MEM_PAGE_OFFSET_MASK) ->
  free_block fuel pcb ptr =
    (h ← MemoryCoalescing fuel (heap_array pcb) (Some k);
     Done (size n, set_heap_array h pcb)).
Proof.
  intros Hlen Hk Hn Ha Hlast. unfold free_block.
  rewrite (find_node_last _ _ k n) by done. cbn [mbind outcome_bind].
  destruct (MemoryCoalescing fuel (heap_array pcb) (Some k)) as [h'| |] eqn:Hco; [|done..].
  destruct (coalescing_keeps _ _ _ _ Hco) as [_ Hkeeps].
  destruct (Hkeeps k n Hn) as (n' & Hn' & (_ & _ & Hsize & _)).
  cbn [mbind outcome_bind]. by rewrite (list_lookup_total_correct _ _ _ Hn'), Hsize.
Qed.

(** X13.  [mfree] of a pointer that passes the two guards acts on the
    node of the highest index that records the heap address, whatever the
    state of that node: it hands that node to MemoryCoalescing and, when
    MemoryCoalescing returns, returns the size recorded in it. *)
Theorem mfree_frees_last_match fuel pcb ptr k n :
  ~ mfree_rejects ptr ->
  Z.of_nat (length (heap_array pcb)) = MEM_NUM_NODES ->
  (1 <= k)%nat -> heap_array pcb !! k = Some n ->
  address n = Z.land (to_int ptr) MEM_PAGE_OFFSET_MASK ->
  (forall j m, (k < j)%nat -> heap_array pcb !! j = Some m ->
               address m <> Z.land (to_int ptr) MEM_PAGE_OFFSET_MASK) ->
  mfree fuel pcb ptr =
    (h ← MemoryCoalescing fuel (heap_array pcb) (Some k);
     Done (size n, set_heap_array h pcb)).
Proof.
  intros Hpass Hlen Hk Hn Ha Hlast.
  rewrite mfree_guard, decide_False by done. by apply free_block_last_match.
Qed.

(** X14.  When the node that [mfree] picks is a stale one, a node whose
    parent has no children any more, MemoryCoalescing reads the [inuse]
    field through the parent's null [left] pointer: the call leaves
    defined behaviour, and the block is not freed. *)
Theorem mfree_of_stale_node_undefined fuel pcb ptr k n p np :
  ~ mfree_rejects ptr ->
  Z.of_nat (length (heap_array pcb)) = MEM_NUM_NODES ->
  (1 <= k)%nat -> heap_array pcb !! k = Some n ->
  address n = Z.land (to_int ptr) MEM_PAGE_OFFSET_MASK ->
  (forall j m, (k < j)%nat -> heap_array pcb !! j = Some m ->
               address m <> Z.land (to_int ptr) MEM_PAGE_OFFSET_MASK) ->
  parent n = Some p -> p <> k -> heap_array pcb !! p = Some np -> left np = None ->
  mfree (S fuel) pcb ptr = Undefined.
Proof.
  intros Hpass Hlen Hk Hn Ha Hlast Hp Hpk Hnp Hleft.
  rewrite mfree_guard, decide_False by done.
  rewrite (free_block_last_match _ _ _ k n) by done. cbn [mbind outcome_bind MemoryCoalescing].
  rewrite Hn, (alter_as_insert _ _ _ _ Hn).
  rewrite (list_lookup_total_correct _ _ (reset_node n))
    by (apply list_lookup_insert_eq; by eapply lookup_lt_Some).
  cbn [reset_node parent set_right set_left set_inuse]. rewrite Hp.
  rewrite list_lookup_insert_ne by done. rewrite Hnp.
  rewrite decide_False by (rewrite Hleft; done). by rewrite Hleft.
Qed.

(** ** The layout of the blocks *)

Lemma layout_keeps mo mb j m m' : keeps m m' -> layout mo mb j m -> layout mo mb j m'.
Proof.
  intros (_ & Ho & Hs & Ha & _) (? & ? & ?). unfold layout. rewrite Ho, Hs, Ha. done.
Qed.

Lemma laid_pointwise mo mb h h' :
  length h' = length h ->
  (forall i n, h !! i = Some n -> exists n', h' !! i = Some n' /\ keeps n n') ->
  heap_laid mo mb h -> heap_laid mo mb h'.
Proof.
  intros Hlen Hpt [Hroot Hchild].
  assert (forall i n', h' !! i = Some n' -> exists n, h !! i = Some n /\ keeps n n') as Hback.
  { intros i n' Hn'. destruct (lookup_lt_is_Some_2 h i) as [n Hn].
    { apply lookup_lt_Some in Hn'. lia. }
    destruct (Hpt i n Hn) as (n'' & Hn'' & Hk). exists n. split; [done|]. congruence. }
  split.
  - intros n' Hn'. destruct (Hback _ _ Hn') as (n & Hn & Hk). eapply layout_keeps; eauto.
  - intros i n' c m' Hn' Hc Hm'.
    destruct (Hback _ _ Hn') as (n & Hn & Hk). destruct (Hback _ _ Hm') as (m & Hm & Hkm).
    eapply layout_keeps; [exact Hkm|]. eapply (Hchild i n c m); [done| |done].
    destruct Hk as (_ & _ & _ & _ & _ & [[Hl Hr]|[Hl Hr]]).
    + by rewrite <- Hl, <- Hr.
    + rewrite Hl, Hr in Hc. by destruct Hc.
Qed.

Lemma insert_keeps h i n n' :
  h !! i = Some n -> keeps n n' ->
  length (<[i := n']> h) = length h /\
  forall j m, h !! j = Some m -> exists m', <[i := n']> h !! j = Some m' /\ keeps m m'.
Proof.
  intros Hn Hk. split; [apply length_insert|]. intros j m Hm.
  destruct (decide (j = i)) as [->|Hne].
  - exists n'. split; [apply list_lookup_insert_eq; by eapply lookup_lt_Some|].
    by assert (m = n) as -> by congruence.
  - exists m. split; [by rewrite list_lookup_insert_ne|apply keeps_refl].
Qed.

Lemma live_mono h h' :
  (forall x n c, live h x -> h !! x = Some n -> left n = Some c \/ right n = Some c ->
     exists n', h' !! x = Some n' /\ (left n' = Some c \/ right n' = Some c)) ->
  forall j, live h j -> live h' j.
Proof.
  intros Hstep j Hj. induction Hj as [|i n l Hi IH Hn Hl|i n r Hi IH Hn Hr].
  - constructor.
  - destruct (Hstep i n l Hi Hn (or_introl Hl)) as (n' & Hn' & [?|?]).
    + eapply live_left; eauto.
    + eapply live_right; eauto.
  - destruct (Hstep i n r Hi Hn (or_intror Hr)) as (n' & Hn' & [?|?]).
    + eapply live_left; eauto.
    + eapply live_right; eauto.
Qed.

Lemma live_set_inuse h i n v j :
  h !! i = Some n -> live h j -> live (<[i := set_inuse v n]> h) j.
Proof.
  intros Hn. apply live_mono. intros x m c _ Hm Hc.
  destruct (decide (x = i)) as [->|Hne].
  - exists (set_inuse v n). split; [apply list_lookup_insert_eq; by eapply lookup_lt_Some|].
    by assert (m = n) as -> by congruence.
  - exists m. by rewrite list_lookup_insert_ne.
Qed.

Lemma leaf_children_not_live h i n c :
  heap_wf h -> (1 <= i)%nat -> h !! i = Some n -> left n = None ->
  c = (2 * i)%nat \/ c = (2 * i + 1)%nat -> ~ live h c.
Proof.
  intros Hwf Hi Hn Hleaf Hc Hlive.
  destruct (live_parent h c Hwf Hlive) as (p & m & np & _ & Hcp & _ & _ & _ & Hnp & Hl & _);
    [lia|].
  assert (p = i) as -> by lia. congruence.
Qed.

Lemma layout_children mo mb i n ml mr :
  (1 <= i)%nat -> good i n -> layout mo mb i n -> order n <> 0 ->
  order ml = order n - 1 -> size ml = Z.quot (size n) 2 -> address ml = address n ->
  order mr = order n - 1 -> size mr = Z.quot (size n) 2 ->
  address mr = address n + Z.quot (size n) 2 ->
  layout mo mb (2 * i) ml /\ layout mo mb (2 * i + 1) mr.
Proof.
  intros Hi (_ & _ & _ & Ho0 & _) (Ho & Hs & Ha) Hne Hol Hsl Hal Hor Hsr Har.
  assert (Z.log2 (Z.of_nat (2 * i)) = Z.log2 (Z.of_nat i) + 1) as Hlog0.
  { rewrite Nat2Z.inj_mul. change (Z.of_nat 2) with 2. rewrite Z.log2_double by lia. lia. }
  assert (Z.log2 (Z.of_nat (2 * i + 1)) = Z.log2 (Z.of_nat i) + 1) as Hlog1.
  { rewrite Nat2Z.inj_add, Nat2Z.inj_mul. change (Z.of_nat 2) with 2.
    change (Z.of_nat 1) with 1. rewrite Z.log2_succ_double by lia. lia. }
  pose proof (Z.log2_nonneg (Z.of_nat i)) as Hl0.
  assert (2 ^ (Z.log2 (Z.of_nat i) + 1) = 2 * 2 ^ Z.log2 (Z.of_nat i)) as Hpl
    by (rewrite Z.pow_add_r by lia; lia).
  assert (2 ^ order n = 2 ^ (order n - 1) * 2) as Hpo.
  { rewrite Z.mul_comm, <- Z.pow_succ_r by lia. f_equal. lia. }
  assert (Z.quot (size n) 2 = mb * 2 ^ (order n - 1)) as Hhalf.
  { rewrite Hs, Hpo, Z.mul_assoc. apply Z.quot_mul. lia. }
  assert (size n = 2 * (mb * 2 ^ (order n - 1))) as Hsize by (rewrite Hs, Hpo; ring).
  unfold layout. rewrite Hlog0, Hlog1, Hol, Hor, Hsl, Hsr, Hal, Har, Hhalf, Hpl, Ha, Hsize.
  rewrite Nat2Z.inj_add, Nat2Z.inj_mul. change (Z.of_nat 2) with 2. change (Z.of_nat 1) with 1.
  split; (split; [lia|]; split; [done|ring]).
Qed.

Lemma laid_split mo mb h i n l r :
  heap_wf h -> heap_laid mo mb h -> (1 <= i)%nat -> h !! i = Some n -> good i n ->
  layout mo mb i n -> left n = None -> order n <> 0 ->
  slot h (to_int (2 * index n)) = Some l ->
  slot h (to_int (2 * index n + 1)) = Some r ->
  heap_laid mo mb (split_children h i l r) /\
  (forall j, live h j -> live (split_children h i l r) j) /\
  (forall j, live h j -> j <> i -> split_children h i l r !! j = h !! j).
Proof.
  intros Hwf [Hroot Hchild] Hi Hn Hg Hlay Hleaf Ho Hl Hr.
  pose proof Hwf as (Hlen & _ & Hnodes).
  pose proof Hconst as (Hnum & Hps0 & Hps).
  pose proof (lookup_lt_Some _ _ _ Hn) as Hilt.
  rewrite (wf_index h i n Hwf Hn) in Hl, Hr.
  unfold slot in Hl, Hr. rewrite to_int_small in Hl, Hr by lia.
  case_decide as Hl'; [|done]. case_decide as Hr'; [|done].
  injection Hl as <-. injection Hr as <-.
  replace (Z.to_nat (2 * Z.of_nat i)) with (2 * i)%nat in * by lia.
  replace (Z.to_nat (2 * Z.of_nat i + 1)) with (2 * i + 1)%nat in * by lia.
  destruct (lookup_lt_is_Some_2 h (2 * i)) as [nl Hnl]; [lia|].
  destruct (lookup_lt_is_Some_2 h (2 * i + 1)) as [nr Hnr]; [lia|].
  destruct (split_children_lookup h i (2 * i) (2 * i + 1) n nl nr)
    as (Hlen' & Hi' & Hl'' & Hr'' & Hother); try done; try lia.
  set (h' := split_children h i (2 * i) (2 * i + 1)) in *.
  pose proof (good_order_bound Hconst i n Hi Hg) as Hob.
  pose proof Hg as (Ha & Hs & Has & _ & Hfit).
  assert (0 <= Z.quot (size n) 2 /\ 2 * Z.quot (size n) 2 <= size n) as Hq.
  { rewrite Z.quot_div_nonneg by lia. Z.div_mod_to_equations. lia. }
  set (ml := mkNode (index nl) _ _ (address n) _ _ _ _) in Hl''.
  set (mr := mkNode (index nr) _ _ _ _ _ _ _) in Hr''.
  assert (layout mo mb (2 * i) ml /\ layout mo mb (2 * i + 1) mr) as [Hlayl Hlayr].
  { apply (layout_children mo mb i n ml mr); try done;
      unfold ml, mr; simpl; rewrite ?to_int_small by lia; done. }
  assert (forall x, live h x -> x <> (2 * i)%nat /\ x <> (2 * i + 1)%nat) as Hfresh.
  { intros x Hx. split; intros ->.
    - by apply (leaf_children_not_live h i n (2 * i)); auto.
    - by apply (leaf_children_not_live h i n (2 * i + 1)); auto. }
  split; [split|split].
  - intros n1 Hn1. destruct (decide (i = 1%nat)) as [->|Hne].
    + rewrite Hi' in Hn1. injection Hn1 as <-. done.
    + rewrite Hother in Hn1 by lia. by apply Hroot.
  - intros x nx c m Hx Hc Hm.
    destruct (decide (x = i)) as [->|Hxi]; [|destruct (decide (x = (2 * i)%nat)) as [->|Hxl];
      [|destruct (decide (x = (2 * i + 1)%nat)) as [->|Hxr]]].
    + rewrite Hi' in Hx. injection Hx as <-.
      assert (c = (2 * i)%nat \/ c = (2 * i + 1)%nat) as [-> | ->]
        by (destruct Hc as [Hc|Hc]; simpl in Hc; injection Hc; lia).
      * rewrite Hl'' in Hm. by injection Hm as <-.
      * rewrite Hr'' in Hm. by injection Hm as <-.
    + rewrite Hl'' in Hx. injection Hx as <-. simpl in Hc. by destruct Hc.
    + rewrite Hr'' in Hx. injection Hx as <-. simpl in Hc. by destruct Hc.
    + rewrite Hother in Hx by done.
      assert (c = (2 * x)%nat \/ c = (2 * x + 1)%nat) as Hcx.
      { destruct (Hnodes x nx Hx) as [_ [[? ?]|(_ & ? & ? & _)]]; [|destruct Hc; [left|right]];
          [destruct Hc|..]; congruence. }
      destruct (decide (c = i)) as [->|Hci].
      * rewrite Hi' in Hm. injection Hm as <-. done.
      * rewrite Hother in Hm by lia. by apply (Hchild x nx c m).
  - apply live_mono. intros x nx c Hlive Hx Hc.
    destruct (decide (x = i)) as [->|Hxi].
    { assert (nx = n) as -> by congruence.
      destruct (Hnodes i n Hn) as [_ [[? ?]|(_ & ? & _)]]; [|congruence].
      destruct Hc; congruence. }
    destruct (Hfresh x Hlive) as [? ?]. exists nx. by rewrite Hother.
  - intros j Hj Hji. destruct (Hfresh j Hj) as [? ?]. by apply Hother.
Qed.

(** ** Where the block that is handed out comes from *)

Lemma below_le a j : below a j -> (a <= j)%nat.
Proof. induction 1; lia. Qed.

Lemma below_trans a b c : below a b -> below b c -> below a c.
Proof. intros Hab Hbc. induction Hbc; [done|by apply below_left|by apply below_right]. Qed.

Lemma comes_from_trans h h1 x nx a1 n1 :
  leaves_from h h1 -> (forall y, live h y -> live h1 y) ->
  comes_from h1 x nx a1 n1 -> exists a na, comes_from h x nx a na.
Proof.
  intros Hfrom Hmono (Hb1 & Hl1 & Hn1 & Hf1 & Heq1 & Hne1).
  destruct (Hfrom a1 n1 Hl1 Hn1 Hf1) as (a & na & Hb & Hl & Hn & Hf & Heq & Hne).
  exists a, na. split; [by eapply below_trans|]. split; [done|]. split; [done|].
  split; [done|]. split.
  - intros ->. assert (a1 = x) as Ha1.
    { apply below_le in Hb, Hb1. lia. }
    rewrite Heq by done. by apply Heq1.
  - intros Hax Hlive. destruct (decide (a1 = x)) as [->|Hne'].
    + by apply Hne.
    + apply Hne1; [done|]. by apply Hmono.
Qed.

Lemma leaves_from_refl h : leaves_from h h.
Proof.
  intros x nx Hlive Hx Hfree. exists x, nx.
  split; [constructor|]. split; [done|]. split; [done|]. split; [done|]. split; done.
Qed.

Lemma leaves_from_trans h h1 h2 :
  leaves_from h h1 -> (forall y, live h y -> live h1 y) ->
  leaves_from h1 h2 -> leaves_from h h2.
Proof.
  intros H01 Hmono H12 x nx Hlive Hx Hfree.
  destruct (H12 x nx Hlive Hx Hfree) as (a1 & n1 & Hc). by eapply comes_from_trans.
Qed.

Lemma leaves_from_set_inuse h i n :
  h !! i = Some n -> leaves_from h (<[i := set_inuse 1 n]> h).
Proof.
  intros Hn x nx Hlive Hx Hfree.
  assert (x <> i) as Hxi.
  { intros ->. rewrite list_lookup_insert_eq in Hx by (by eapply lookup_lt_Some).
    injection Hx as <-. by destruct Hfree as [_ ?]. }
  rewrite list_lookup_insert_ne in Hx by done.
  assert (live h x) as Hlive0.
  { revert Hlive. apply live_mono. intros y ny c _ Hy Hc.
    destruct (decide (y = i)) as [->|Hyi].
    - rewrite list_lookup_insert_eq in Hy by (by eapply lookup_lt_Some).
      injection Hy as <-. exists n. done.
    - rewrite list_lookup_insert_ne in Hy by done. by exists ny. }
  exists x, nx. split; [constructor|]. split; [done|]. split; [done|]. split; [done|].
  split; done.
Qed.

Lemma leaves_from_split h i n l r :
  heap_wf h -> (1 <= i)%nat -> h !! i = Some n -> good i n -> live h i ->
  free_leaf n ->
  slot h (to_int (2 * index n)) = Some l ->
  slot h (to_int (2 * index n + 1)) = Some r ->
  leaves_from h (split_children h i l r).
Proof.
  intros Hwf Hi Hn Hg Hlivei Hfree Hl Hr.
  pose proof Hwf as (Hlen & _ & Hnodes).
  pose proof Hconst as (Hnum & Hps0 & Hps).
  pose proof (lookup_lt_Some _ _ _ Hn) as Hilt.
  rewrite (wf_index h i n Hwf Hn) in Hl, Hr.
  unfold slot in Hl, Hr. rewrite to_int_small in Hl, Hr by lia.
  case_decide as Hl'; [|done]. case_decide as Hr'; [|done].
  injection Hl as <-. injection Hr as <-.
  replace (Z.to_nat (2 * Z.of_nat i)) with (2 * i)%nat in * by lia.
  replace (Z.to_nat (2 * Z.of_nat i + 1)) with (2 * i + 1)%nat in * by lia.
  destruct (lookup_lt_is_Some_2 h (2 * i)) as [nl Hnl]; [lia|].
  destruct (lookup_lt_is_Some_2 h (2 * i + 1)) as [nr Hnr]; [lia|].
  destruct (split_children_lookup h i (2 * i) (2 * i + 1) n nl nr)
    as (Hlen' & Hi' & Hl'' & Hr'' & Hother); try done; try lia.
  set (h' := split_children h i (2 * i) (2 * i + 1)) in *.
  pose proof Hfree as [Hleaf _].
  assert (forall x, live h x -> x <> (2 * i)%nat /\ x <> (2 * i + 1)%nat) as Hfresh.
  { intros x Hx. split; intros ->.
    - by apply (leaf_children_not_live h i n (2 * i)); auto.
    - by apply (leaf_children_not_live h i n (2 * i + 1)); auto. }
  assert (forall x, live h' x ->
            x = (2 * i)%nat \/ x = (2 * i + 1)%nat \/ live h x) as Hback.
  { intros x Hx. induction Hx as [|p np c Hp IH Hnp Hc|p np c Hp IH Hnp Hc].
    - right; right. constructor.
    - destruct IH as [->|[->|Hlp]].
      + rewrite Hl'' in Hnp. by injection Hnp as <-.
      + rewrite Hr'' in Hnp. by injection Hnp as <-.
      + destruct (decide (p = i)) as [->|Hpi].
        * rewrite Hi' in Hnp. injection Hnp as <-. left. simpl in Hc. injection Hc. lia.
        * destruct (Hfresh p Hlp) as [? ?]. rewrite Hother in Hnp by done.
          right; right. by eapply live_left.
    - destruct IH as [->|[->|Hlp]].
      + rewrite Hl'' in Hnp. by injection Hnp as <-.
      + rewrite Hr'' in Hnp. by injection Hnp as <-.
      + destruct (decide (p = i)) as [->|Hpi].
        * rewrite Hi' in Hnp. injection Hnp as <-. right; left. simpl in Hc.
          injection Hc. lia.
        * destruct (Hfresh p Hlp) as [? ?]. rewrite Hother in Hnp by done.
          right; right. by eapply live_right. }
  assert (forall c nc, c = (2 * i)%nat \/ c = (2 * i + 1)%nat ->
            comes_from h c nc i n) as Hnew.
  { intros c nc Hc. split.
    { destruct Hc as [-> | ->]; [apply below_left|apply below_right]; constructor. }
    split; [done|]. split; [done|]. split; [done|]. split; [lia|].
    intros _. by apply (leaf_children_not_live h i n c). }
  intros x nx Hlive Hx Hfx.
  destruct (decide (x = i)) as [->|Hxi].
  { rewrite Hi' in Hx. injection Hx as <-. by destruct Hfx as [? _]. }
  destruct (Hback x Hlive) as [->|[->|Hlx]]; [exists i, n; apply Hnew; auto..|].
  destruct (Hfresh x Hlx) as [? ?]. rewrite Hother in Hx by done.
  exists x, nx. split; [constructor|]. split; [done|]. split; [done|]. split; [done|].
  split; done.
Qed.

Lemma placed_child mo mb h i n c :
  heap_wf h -> heap_laid mo mb h -> live h i -> h !! i = Some n ->
  left n = Some c \/ right n = Some c -> placed mo mb h c.
Proof.
  intros Hwf [_ Hchild] Hlive Hn Hc.
  pose proof (wf_child h i n c Hwf Hn Hc) as Hg.
  split; [done|]. destruct Hg as (_ & m & Hm & _). split.
  - exists m. split; [done|]. by apply (Hchild i n c m).
  - destruct Hc; [eapply live_left|eapply live_right]; eauto.
Qed.

Lemma placed_root mo mb h : heap_wf h -> heap_laid mo mb h -> placed mo mb h 1.
Proof.
  intros Hwf [Hroot _]. pose proof (wf_root h Hwf) as Hg. split; [done|].
  destruct Hg as (_ & n & Hn & _). split; [|constructor].
  exists n. split; [done|by apply Hroot].
Qed.

Lemma serves_here mo mb h i n r :
  placed mo mb h i -> h !! i = Some n -> free_leaf n -> fits r n ->
  serves mo mb r (address n) (<[i := set_inuse 1 n]> h) i n.
Proof.
  intros ((_ & n1 & Hn1 & Hg) & (n2 & Hn2 & Hlay) & Hlive) Hn Hfree Hfits.
  assert (n1 = n) as -> by congruence. assert (n2 = n) as -> by congruence.
  split; [apply list_lookup_insert_eq; by eapply lookup_lt_Some|].
  split; [done|]. split; [done|]. split; [done|]. split; [done|]. split; [done|].
  by apply live_set_inuse.
Qed.

Lemma laid_set_inuse mo mb h i n v :
  h !! i = Some n -> heap_laid mo mb h -> heap_laid mo mb (<[i := set_inuse v n]> h).
Proof.
  intros Hn Hlaid.
  destruct (insert_keeps h i n (set_inuse v n) Hn (keeps_set_inuse v n)) as [Hlen Hpt].
  by eapply laid_pointwise.
Qed.

Lemma search_spec mo mb fuel h node r res h' :
  heap_wf h -> heap_laid mo mb h ->
  (forall i, node = Some i -> placed mo mb h i) ->
  MemoryNodeSearch fuel h node r = Done (res, h') ->
  (res = -1 /\ h' = h) \/
  (0 <= res /\ exists j m, h !! j = Some m /\ live h j /\
                           h' = <[j := set_inuse 1 m]> h /\
                           serves mo mb r res h' j m).
Proof.
  intros Hwf Hlaid. revert node res h'.
  induction fuel as [|fuel IH]; intros node res h' Hnode; simpl; [done|].
  destruct node as [i|]; [|intros [= <- <-]; by left].
  pose proof (Hnode i eq_refl) as Hpl.
  pose proof Hpl as ((Hi & n & Hn & Hg) & _ & Hlive). rewrite Hn.
  destruct (decide (free_leaf n)) as [Hfree|_].
  - destruct (decide (fits r n)) as [Hfits|_]; intros [= <- <-]; [|by left].
    right. split; [by destruct Hg|]. exists i, n. split; [done|]. split; [done|].
    split; [done|]. by apply serves_here.
  - destruct (MemoryNodeSearch fuel h (left n) r) as [[t h1]| |] eqn:Hl; simpl; [|done..].
    apply IH in Hl; [|intros c Hc; eapply placed_child; eauto].
    destruct (decide (t >= 0)) as [Ht|Ht]; [intros [= <- <-]|].
    { destruct Hl as [[-> _]|?]; [lia|by right]. }
    destruct Hl as [[_ ->]|[? _]]; [|lia].
    rewrite (list_lookup_total_correct _ _ _ Hn).
    intros Hright. apply IH in Hright; [done|].
    intros c Hc. eapply placed_child; eauto.
Qed.

Lemma split_spec mo mb fuel h node r res h' :
  0 < r ->
  heap_wf h -> heap_laid mo mb h ->
  (forall i, node = Some i -> placed mo mb h i) ->
  MemorySplitNode fuel h node r = Done (res, h') ->
  heap_laid mo mb h' /\ (forall x, live h x -> live h' x) /\ leaves_from h h' /\
  served mo mb r res h h'.
Proof.
  intros Hr. revert h node res h'.
  induction fuel as [|fuel IH]; intros h node res h' Hwf Hlaid Hnode; simpl; [done|].
  assert (forall h0 : list Node,
            heap_laid mo mb h0 ->
            heap_laid mo mb h0 /\ (forall x, live h0 x -> live h0 x) /\
            leaves_from h0 h0 /\ served mo mb r (-1) h0 h0) as Hnothing.
  { intros h0 ?. split; [done|]. split; [done|]. split; [apply leaves_from_refl|by left]. }
  destruct node as [i|]; [|intros [= <- <-]; by apply Hnothing].
  pose proof (Hnode i eq_refl) as Hpl.
  pose proof Hpl as ((Hi & n & Hn & Hg) & (n0 & Hn0 & Hlay) & Hlive).
  assert (n0 = n) as -> by congruence. clear Hn0. rewrite Hn.
  assert (forall h0, heap_wf h0 -> heap_laid mo mb h0 -> live h0 i ->
    ('(t, h1) ← MemorySplitNode fuel h0 (left (h0 !!! i)) r;
     if decide (t >= 0) then Done (t, h1)
     else MemorySplitNode fuel h1 (right (h1 !!! i)) r) = Done (res, h') ->
    heap_laid mo mb h' /\ (forall x, live h0 x -> live h' x) /\ leaves_from h0 h' /\
    served mo mb r res h0 h') as Hdescend.
  { intros h0 Hwf0 Hlaid0 Hlive0.
    assert (forall hx c, heap_wf hx -> heap_laid mo mb hx -> live hx i ->
              left (hx !!! i) = Some c \/ right (hx !!! i) = Some c ->
              placed mo mb hx c) as Hchild.
    { intros hx c Hwfx Hlaidx Hlivex Hc. destruct (wf_lookup hx i Hwfx) as [nx Hnx].
      { destruct Hwf as (Hlen & _). apply lookup_lt_Some in Hn. lia. }
      rewrite (list_lookup_total_correct _ _ _ Hnx) in Hc. eapply placed_child; eauto. }
    destruct (MemorySplitNode fuel h0 (left (h0 !!! i)) r) as [[t h1]| |] eqn:Hl;
      simpl; [|done..].
    pose proof Hl as Hlwf.
    apply (split_wf Hconst) in Hlwf as [Hwf1 _];
      [|done|intros c Hc; by destruct (Hchild h0 c Hwf0 Hlaid0 Hlive0 (or_introl Hc))|done].
    apply IH in Hl as (Hlaid1 & Hmono1 & Hfrom1 & Hres1);
      [|done|done|intros c Hc; apply Hchild; auto].
    destruct (decide (t >= 0)) as [Ht|Ht]; [by intros [= <- <-]|].
    intros Hright. apply IH in Hright as (Hlaid2 & Hmono2 & Hfrom2 & Hres2);
      [|done|done|intros c Hc; apply Hchild; auto].
    split; [done|]. split; [auto|]. split; [by eapply leaves_from_trans|].
    destruct Hres2 as [->|(Hres & j & m & Hserves & a1 & n1 & Hcomes)]; [by left|].
    right. split; [done|]. exists j, m. split; [done|]. by eapply comes_from_trans. }
  destruct (decide (free_leaf n)) as [Hfree|_]; [|by apply Hdescend].
  destruct (decide (fits r n)) as [Hfits|_].
  { intros [= <- <-]. split; [by apply laid_set_inuse|].
    split; [intros x; by apply live_set_inuse|].
    split; [by apply leaves_from_set_inuse|].
    right. split; [by destruct Hg|]. exists i, n. split; [by apply serves_here|].
    exists i, n. split; [constructor|]. split; [done|]. split; [done|]. split; [done|].
    split; done. }
  destruct (decide (Z.quot (size n) 2 < r)); [intros [= <- <-]; by apply Hnothing|].
  destruct (decide (order n = 0)) as [|Ho]; [intros [= <- <-]; by apply Hnothing|].
  destruct (slot h (to_int (2 * index n))) as [l|] eqn:Hl; [|done].
  destruct (slot h (to_int (2 * index n + 1))) as [r'|] eqn:Hr'; [|done].
  destruct (wf_split Hconst h i n l r') as (Hwf0 & _); try done.
  destruct (laid_split mo mb h i n l r') as (Hlaid0 & Hmono0 & _); try done.
  { by destruct Hfree. }
  pose proof (leaves_from_split h i n l r' Hwf Hi Hn Hg Hlive Hfree Hl Hr') as Hfrom0.
  intros Hd. apply Hdescend in Hd as (? & Hmono & Hfrom & Hres); [|done|done|by apply Hmono0].
  split; [done|]. split; [auto|]. split; [by eapply leaves_from_trans|].
  destruct Hres as [->|(Hres & j & m & Hserves & a1 & n1 & Hcomes)]; [by left|].
  right. split; [done|]. exists j, m. split; [done|]. by eapply comes_from_trans.
Qed.

Lemma malloc_spec mo mb fuel pcb r ptr pcb' :
  heap_wf (heap_array pcb) -> heap_laid mo mb (heap_array pcb) ->
  malloc fuel pcb r = Done (ptr, pcb') ->
  heap_laid mo mb (heap_array pcb') /\
  (forall x, live (heap_array pcb) x -> live (heap_array pcb') x) /\
  (ptr <> NULL ->
   0 < r <= MEM_PAGESIZE /\
   exists res j m, serves mo mb r res (heap_array pcb') j m /\ 0 <= res /\
                   ptr = to_uint32 (to_int (Z.lor (MEM_PAGESIZE * 4) res)) /\
                   exists a na, comes_from (heap_array pcb) j m a na).
Proof.
  intros Hwf Hlaid. unfold malloc.
  destruct (decide (r <= 0 \/ r > MEM_PAGESIZE)) as [|Hr]; [by intros [= <- <-]|].
  destruct (MemoryNodeSearch fuel (heap_array pcb) (Some 1%nat) r)
    as [[block h1]| |] eqn:Hsearch; simpl; [|done..].
  apply (search_spec mo mb) in Hsearch;
    [|done|done|intros ? [= <-]; by apply placed_root].
  destruct (decide (block >= 0)) as [Hb|Hb].
  { destruct (read_size _ block) as [sz| |]; simpl; [|done..].
    intros [= <- <-]. simpl.
    destruct Hsearch as [[-> _]|(Hres & j & m & Hm & Hlive & -> & Hserves)]; [lia|].
    split; [by apply laid_set_inuse|]. split; [intros x; by apply live_set_inuse|].
    intros _. split; [lia|]. exists block, j, m. split; [done|]. split; [done|].
    split; [done|]. exists j, m. split; [constructor|]. split; [done|]. split; [done|].
    split; [by destruct Hserves as (_ & ? & _)|]. split; done. }
  destruct Hsearch as [[_ ->]|[? _]]; [|lia].
  destruct (MemorySplitNode fuel (heap_array pcb) (Some 1%nat) r)
    as [[block' h2]| |] eqn:Hsplit; simpl; [|done..].
  apply (split_spec mo mb) in Hsplit as (Hlaid2 & Hmono & _ & Hres);
    [|lia|done|done|intros ? [= <-]; by apply placed_root].
  destruct (decide (block' >= 0));
    [destruct (read_size _ block') as [sz| |]; simpl; [|done..]|];
    intros [= <- <-]; simpl; (split; [done|split; [done|]]); [|done].
  intros _. split; [lia|].
  destruct Hres as [->|(? & j & m & ? & ?)]; [lia|]. by exists block', j, m.
Qed.

Lemma mfree_laid mo mb fuel pcb ptr res pcb' :
  heap_laid mo mb (heap_array pcb) ->
  mfree fuel pcb ptr = Done (res, pcb') ->
  heap_laid mo mb (heap_array pcb').
Proof.
  intros Hlaid. rewrite mfree_guard. case_decide; [by intros [= <- <-]|].
  unfold free_block.
  destruct (find_node _ _ _ _) as [[k|]| |]; simpl; [|done..].
  destruct (MemoryCoalescing fuel (heap_array pcb) (Some k)) as [h| |] eqn:Hc;
    simpl; [|done..].
  intros [= <- <-]. simpl. destruct (coalescing_keeps _ _ _ _ Hc) as [Hlen Hpt].
  by eapply laid_pointwise.
Qed.

Lemma initial_laid mo mb h :
  MEM_PAGESIZE = mb * 2 ^ mo -> heap_initial mo h -> heap_laid mo mb h.
Proof.
  intros Hpage (_ & Hnodes & root & Hroot & Hro & Hrs & Hra). split.
  - intros n Hn. assert (n = root) as -> by congruence.
    unfold layout. change (Z.of_nat 1) with 1. change (Z.log2 1) with 0.
    rewrite Hro, Hrs, Hra. split; [lia|]. split; [done|]. lia.
  - intros i n c m Hn Hc. destruct (Hnodes i n Hn) as (_ & _ & Hl & Hrt & _).
    rewrite Hl, Hrt in Hc. by destruct Hc.
Qed.

Lemma reachable_laid mo mb h :
  0 <= mo -> 2 * 2 ^ mo <= MEM_NUM_NODES -> MEM_PAGESIZE = mb * 2 ^ mo ->
  heap_reachable mo h -> heap_wf h /\ heap_laid mo mb h.
Proof.
  intros Ho Hfit Hpage.
  induction 1 as [h Hinit|fuel pcb r ptr pcb' _ [IHwf IHlaid] Hm
                 |fuel pcb ptr res pcb' _ [IHwf IHlaid] Hm].
  - split; [by eapply (initial_wf Hconst)|by apply initial_laid].
  - split; [by destruct (malloc_wf Hconst _ _ _ _ _ IHwf Hm)|].
    by destruct (malloc_spec mo mb _ _ _ _ _ IHwf IHlaid Hm).
  - split; [by eapply mfree_wf|by eapply mfree_laid].
Qed.

Lemma live_layout mo mb h j :
  heap_wf h -> heap_laid mo mb h -> live h j ->
  exists m, h !! j = Some m /\ layout mo mb j m /\ good j m.
Proof.
  intros Hwf Hlaid Hlive. destruct (decide (j = 1%nat)) as [->|Hne].
  - destruct (placed_root mo mb h Hwf Hlaid) as ((_ & n & Hn & Hg) & (n' & Hn' & Hlay) & _).
    exists n. assert (n' = n) as -> by congruence. done.
  - destruct (live_parent h j Hwf Hlive Hne)
      as (p & n & np & _ & Hjp & Hn & _ & Hg & Hnp & Hl & Hr & _).
    exists n. split; [done|]. split; [|done]. destruct Hlaid as [_ Hchild].
    apply (Hchild p np j n); [done| |done]. destruct Hjp as [-> | ->]; auto.
Qed.

Lemma live_positive h j : heap_wf h -> live h j -> (1 <= j)%nat.
Proof.
  intros Hwf Hlive. destruct (decide (j = 1%nat)) as [->|Hne]; [done|].
  destruct (live_parent h j Hwf Hlive Hne) as (p & _ & _ & ? & ? & _). lia.
Qed.

Lemma child_block mo mb h p np c :
  heap_wf h -> heap_laid mo mb h -> live h p -> h !! p = Some np ->
  left np = Some c \/ right np = Some c ->
  exists nc, h !! c = Some nc /\ live h c /\ good c nc /\
    order nc = order np - 1 /\ size np = 2 * size nc /\
    (left np = Some c -> c = (2 * p)%nat /\ address nc = address np) /\
    (right np = Some c -> c = (2 * p + 1)%nat /\ address nc = address np + size nc).
Proof.
  intros Hwf Hlaid Hlive Hnp Hc.
  destruct (placed_child mo mb h p np c Hwf Hlaid Hlive Hnp Hc)
    as ((_ & nc & Hnc & Hg) & (nc' & Hnc' & Hlayc) & Hlivec).
  assert (nc' = nc) as -> by congruence. clear Hnc'.
  destruct (live_layout mo mb h p Hwf Hlaid Hlive) as (np' & Hnp' & Hlayp & Hgp).
  assert (np' = np) as -> by congruence. clear Hnp'.
  pose proof (live_positive h p Hwf Hlive) as Hp.
  pose proof Hwf as (_ & _ & Hnodes).
  destruct (Hnodes p np Hnp) as [_ [[Hl Hr]|(_ & Hl & Hr & _)]].
  { rewrite Hl, Hr in Hc. by destruct Hc. }
  exists nc. split; [done|]. split; [done|]. split; [done|].
  destruct Hg as (_ & _ & _ & Hoc & _).
  destruct Hlayp as (Hop & Hsp & Hap). destruct Hlayc as (Hoc' & Hsc & Hac).
  pose proof (Z.log2_nonneg (Z.of_nat p)) as Hl0.
  assert (2 ^ (Z.log2 (Z.of_nat p) + 1) = 2 * 2 ^ Z.log2 (Z.of_nat p)) as Hpl
    by (rewrite Z.pow_add_r by lia; lia).
  assert (Z.log2 (Z.of_nat c) = Z.log2 (Z.of_nat p) + 1 /\
          (left np = Some c -> c = (2 * p)%nat) /\
          (right np = Some c -> c = (2 * p + 1)%nat)) as (Hlog & Hcl & Hcr).
  { destruct Hc as [Hc|Hc].
    - assert (c = (2 * p)%nat) as -> by congruence.
      split; [|split; [done|rewrite Hr; intros [= ?]; lia]].
      rewrite Nat2Z.inj_mul. change (Z.of_nat 2) with 2. rewrite Z.log2_double by lia. lia.
    - assert (c = (2 * p + 1)%nat) as -> by congruence.
      split; [|split; [rewrite Hl; intros [= ?]; lia|done]].
      rewrite Nat2Z.inj_add, Nat2Z.inj_mul. change (Z.of_nat 2) with 2.
      change (Z.of_nat 1) with 1. rewrite Z.log2_succ_double by lia. lia. }
  assert (order nc = order np - 1) as Ho by lia.
  assert (2 ^ order np = 2 * 2 ^ order nc) as Hpo.
  { rewrite <- Z.pow_succ_r by lia. f_equal. lia. }
  assert (size np = 2 * size nc) as Hs by (rewrite Hsp, Hsc, Hpo; ring).
  split; [done|]. split; [done|]. split.
  - intros Hcl'. specialize (Hcl Hcl'). split; [done|]. subst c.
    rewrite Hac, Hap, Hlog, Hpl, Hs, Nat2Z.inj_mul. change (Z.of_nat 2) with 2. ring.
  - intros Hcr'. specialize (Hcr Hcr'). split; [done|]. subst c.
    rewrite Hac, Hap, Hlog, Hpl, Hs, Nat2Z.inj_add, Nat2Z.inj_mul.
    change (Z.of_nat 2) with 2. change (Z.of_nat 1) with 1. ring.
Qed.

(** X15.  In every heap that [malloc] and [mfree] calls can produce, each
    node of the tree holds the block that the buddy scheme assigns to its
    index: a node at depth [d] has order [max_order - d] and size
    [min_block * 2 ^ order], it starts at a multiple of its size, at block
    number [j - 2 ^ d], and it lies within the heap page. *)
Theorem reachable_blocks_follow_layout mo mb h j :
  0 <= mo -> 2 * 2 ^ mo <= MEM_NUM_NODES -> MEM_PAGESIZE = mb * 2 ^ mo ->
  heap_reachable mo h -> live h j ->
  exists m, h !! j = Some m /\
    order m = mo - Z.log2 (Z.of_nat j) /\ 0 <= order m <= mo /\
    size m = mb * 2 ^ order m /\
    address m = (Z.of_nat j - 2 ^ Z.log2 (Z.of_nat j)) * size m /\
    0 <= address m /\ address m + size m <= MEM_PAGESIZE.
Proof.
  intros Ho Hfit Hpage Hreach Hlive.
  destruct (reachable_laid mo mb h Ho Hfit Hpage Hreach) as [Hwf Hlaid].
  destruct (live_layout mo mb h j Hwf Hlaid Hlive)
    as (m & Hm & (Hom & Hsm & Ham) & (Ha & _ & Has & Ho0 & _)).
  pose proof (Z.log2_nonneg (Z.of_nat j)).
  exists m. split; [done|]. split; [done|]. split; [lia|]. split; [done|].
  split; [done|]. split; [done|]. done.
Qed.

(** X16.  In every reachable heap the two children of a node of the tree
    are the nodes at [2p] and [2p+1]; they are buddies: both are one
    order below the parent and half its size, the left one starts where
    the parent starts and the right one where the left one ends. *)
Theorem buddies_halve_parent mo mb h p np l r :
  0 <= mo -> 2 * 2 ^ mo <= MEM_NUM_NODES -> MEM_PAGESIZE = mb * 2 ^ mo ->
  heap_reachable mo h -> live h p -> h !! p = Some np ->
  left np = Some l -> right np = Some r ->
  exists nl nr,
    h !! l = Some nl /\ h !! r = Some nr /\
    l = (2 * p)%nat /\ r = (2 * p + 1)%nat /\
    order nl = order np - 1 /\ order nr = order np - 1 /\
    size np = 2 * size nl /\ size nr = size nl /\
    address nl = address np /\ address nr = address nl + size nl.
Proof.
  intros Ho Hfit Hpage Hreach Hlive Hnp Hl Hr.
  destruct (reachable_laid mo mb h Ho Hfit Hpage Hreach) as [Hwf Hlaid].
  destruct (child_block mo mb h p np l Hwf Hlaid Hlive Hnp (or_introl Hl))
    as (nl & Hnl & _ & _ & Hol & Hsl & Hal & _).
  destruct (child_block mo mb h p np r Hwf Hlaid Hlive Hnp (or_intror Hr))
    as (nr & Hnr & _ & _ & Hor & Hsr & _ & Har).
  destruct (Hal Hl) as [-> Hal']. destruct (Har Hr) as [-> Har'].
  exists nl, nr. split; [done|]. split; [done|]. split; [done|]. split; [done|].
  split; [done|]. split; [done|]. split; [done|]. split; [lia|]. split; [done|]. lia.
Qed.

Lemma block_inside mo mb a j na m :
  below a j -> (1 <= a)%nat -> 0 <= mb ->
  layout mo mb a na -> layout mo mb j m -> 0 <= order m ->
  address na <= address m /\ address m + size m <= address na + size na.
Proof.
  intros Hbelow Ha Hmb (Hoa & Hsa & Haa) (Hom & Hsm & Ham) Ho.
  rewrite Hoa in Hsa. rewrite Hom in Hsm, Ho. rewrite Haa, Ham, Hsa, Hsm.
  clear Hoa Hsa Haa Hom Hsm Ham na m. revert Ho.
  induction Hbelow as [|x Hx IH|x Hx IH]; intros Ho; [lia|..].
  - pose proof (below_le _ _ Hx) as Hle.
    assert (Z.log2 (Z.of_nat (2 * x)) = Z.log2 (Z.of_nat x) + 1) as Hlog.
    { rewrite Nat2Z.inj_mul. change (Z.of_nat 2) with 2. rewrite Z.log2_double by lia. lia. }
    rewrite Hlog in *.
    pose proof (Z.log2_nonneg (Z.of_nat x)) as HL.
    set (L := Z.log2 (Z.of_nat x)) in *.
    assert (2 ^ (L + 1) = 2 * 2 ^ L) as HpL by (rewrite Z.pow_add_r by lia; lia).
    assert (2 ^ (mo - L) = 2 * 2 ^ (mo - (L + 1))) as HpO.
    { rewrite <- Z.pow_succ_r by lia. f_equal. lia. }
    assert (0 < 2 ^ (mo - (L + 1))) as HQ by (apply Z.pow_pos_nonneg; lia).
    specialize (IH ltac:(lia)).
    rewrite HpO in IH. rewrite HpL, Nat2Z.inj_mul. change (Z.of_nat 2) with 2.
    set (Q := 2 ^ (mo - (L + 1))) in *. set (P := 2 ^ L) in *.
    assert (0 <= mb * Q) as HT by (apply Z.mul_nonneg_nonneg; lia).
    replace ((Z.of_nat x - P) * (mb * (2 * Q)))
      with (2 * ((Z.of_nat x - P) * (mb * Q))) in IH by ring.
    replace (mb * (2 * Q)) with (2 * (mb * Q)) in IH by ring.
    replace ((2 * Z.of_nat x - 2 * P) * (mb * Q))
      with (2 * ((Z.of_nat x - P) * (mb * Q))) by ring.
    lia.
  - pose proof (below_le _ _ Hx) as Hle.
    assert (Z.log2 (Z.of_nat (2 * x + 1)) = Z.log2 (Z.of_nat x) + 1) as Hlog.
    { rewrite Nat2Z.inj_add, Nat2Z.inj_mul. change (Z.of_nat 2) with 2.
      change (Z.of_nat 1) with 1. rewrite Z.log2_succ_double by lia. lia. }
    rewrite Hlog in *.
    pose proof (Z.log2_nonneg (Z.of_nat x)) as HL.
    set (L := Z.log2 (Z.of_nat x)) in *.
    assert (2 ^ (L + 1) = 2 * 2 ^ L) as HpL by (rewrite Z.pow_add_r by lia; lia).
    assert (2 ^ (mo - L) = 2 * 2 ^ (mo - (L + 1))) as HpO.
    { rewrite <- Z.pow_succ_r by lia. f_equal. lia. }
    assert (0 < 2 ^ (mo - (L + 1))) as HQ by (apply Z.pow_pos_nonneg; lia).
    specialize (IH ltac:(lia)).
    rewrite HpO in IH. rewrite HpL, Nat2Z.inj_add, Nat2Z.inj_mul.
    change (Z.of_nat 2) with 2. change (Z.of_nat 1) with 1.
    set (Q := 2 ^ (mo - (L + 1))) in *. set (P := 2 ^ L) in *.
    assert (0 <= mb * Q) as HT by (apply Z.mul_nonneg_nonneg; lia).
    replace ((Z.of_nat x - P) * (mb * (2 * Q)))
      with (2 * ((Z.of_nat x - P) * (mb * Q))) in IH by ring.
    replace (mb * (2 * Q)) with (2 * (mb * Q)) in IH by ring.
    replace ((2 * Z.of_nat x + 1 - 2 * P) * (mb * Q))
      with (2 * ((Z.of_nat x - P) * (mb * Q)) + mb * Q) by ring.
    lia.
Qed.

(** X17.  A [malloc] that does not return NULL, on a reachable heap, has
    marked in use a leaf [j] of the tree.  Before the call that node was a
    free leaf of the tree, or it was not in the tree and has been split off
    from a free leaf [a] of the tree, inside whose block its block lies.
    The block has between [r] and [2r - 1] bytes, a size of
    [min_block * 2 ^ order], and starts at a multiple of its size inside
    the page; the pointer returned is that address in virtual page 4.
    Requests of at most half the minimal block are therefore never
    served. *)
Theorem malloc_serves_buddy_block mo mb k fuel pcb r ptr pcb' :
  0 <= mo -> 2 * 2 ^ mo <= MEM_NUM_NODES -> MEM_PAGESIZE = mb * 2 ^ mo ->
  0 <= k -> MEM_PAGESIZE = 2 ^ k ->
  heap_reachable mo (heap_array pcb) ->
  malloc fuel pcb r = Done (ptr, pcb') -> ptr <> NULL ->
  mb < 2 * r /\
  exists j m,
    live (heap_array pcb') j /\ heap_array pcb' !! j = Some (set_inuse 1 m) /\
    free_leaf m /\ r <= size m < 2 * r /\
    0 <= order m <= mo /\ size m = mb * 2 ^ order m /\
    address m = (Z.of_nat j - 2 ^ Z.log2 (Z.of_nat j)) * size m /\
    0 <= address m /\ address m + size m <= MEM_PAGESIZE /\
    ptr = 4 * MEM_PAGESIZE + address m /\
    exists a na,
      below a j /\ live (heap_array pcb) a /\ heap_array pcb !! a = Some na /\
      free_leaf na /\
      (a = j -> na = m) /\ (a <> j -> ~ live (heap_array pcb) j) /\
      address na <= address m /\ address m + size m <= address na + size na.
Proof.
  intros Ho Hfit Hpage Hk Hps Hreach Hm Hptr.
  destruct (reachable_laid mo mb _ Ho Hfit Hpage Hreach) as [Hwf Hlaid].
  destruct (malloc_spec mo mb _ _ _ _ _ Hwf Hlaid Hm) as (_ & _ & Hres).
  destruct (Hres Hptr) as (Hr & res & j & m & Hserves & Hres0 & -> & a & na & Hcomes).
  destruct Hserves as (Hj & Hfree & Hfits & Ha & (Hom & Hsm & Ham) & Hg & Hlive).
  pose proof (fits_bounds r m ltac:(lia) Hfits) as Hsize.
  pose proof Hg as (Ha0 & _ & Has & Ho0 & _).
  pose proof (Z.log2_nonneg (Z.of_nat j)).
  assert (0 < 2 ^ order m) as Hpow by (apply Z.pow_pos_nonneg; lia).
  assert (0 <= mb) as Hmb by nia.
  split; [nia|]. exists j, m.
  split; [done|]. split; [done|]. split; [done|]. split; [done|]. split; [lia|].
  split; [done|]. split; [done|]. split; [done|]. split; [done|]. split.
  { destruct Hconst as (_ & _ & Hps5).
    rewrite <- Ha, (heap_page_tag k (address m)) by (done || lia).
    rewrite to_int_small, to_uint32_small by lia. done. }
  destruct Hcomes as (Hbelow & Hla & Hna & Hfa & Heq & Hne).
  exists a, na. split; [done|]. split; [done|]. split; [done|]. split; [done|].
  split; [done|]. split; [done|].
  destruct (live_layout mo mb _ a Hwf Hlaid Hla) as (na' & Hna' & Hlaya & _).
  assert (na' = na) as -> by congruence.
  apply (block_inside mo mb a j); try done.
  by apply (live_positive _ a Hwf).
Qed.

(** X19.  [mfree], given the address of a node of the tree that no node of
    a higher index records as well, returns when it has fuel enough: its
    result is the size of that node, the node is a free leaf afterwards,
    and no node of a higher index is touched. *)
Theorem mfree_of_live_block mo mb k pcb j m ptr :
  0 <= mo -> 2 * 2 ^ mo <= MEM_NUM_NODES -> MEM_PAGESIZE = mb * 2 ^ mo -> 0 < mb ->
  0 <= k -> MEM_PAGESIZE = 2 ^ k -> MEM_PAGE_OFFSET_MASK = MEM_PAGESIZE - 1 ->
  heap_reachable mo (heap_array pcb) ->
  live (heap_array pcb) j -> heap_array pcb !! j = Some m ->
  ptr = 4 * MEM_PAGESIZE + address m ->
  (forall i n, (j < i)%nat -> heap_array pcb !! i = Some n -> address n <> address m) ->
  exists fuel0 pcb',
    (forall fuel, (fuel0 <= fuel)%nat -> mfree fuel pcb ptr = Done (size m, pcb')) /\
    heap_array pcb' !! j = Some (reset_node m) /\
    (forall i, (j < i)%nat -> heap_array pcb' !! i = heap_array pcb !! i).
Proof.
  intros Ho Hfit Hpage Hmb Hk Hps Hmask Hreach Hlive Hm -> Hlast.
  destruct (reachable_laid mo mb _ Ho Hfit Hpage Hreach) as [Hwf Hlaid].
  destruct (live_layout mo mb _ j Hwf Hlaid Hlive)
    as (m' & Hm' & (Hom & Hsm & Ham) & (Ha0 & _ & Has & Ho0 & _)).
  assert (m' = m) as -> by congruence. clear Hm'.
  pose proof (live_positive _ j Hwf Hlive) as Hj.
  destruct Hconst as (_ & _ & Hps5).
  assert (0 < 2 ^ order m) by (apply Z.pow_pos_nonneg; lia).
  assert (0 < size m) by (rewrite Hsm; nia).
  assert (0 < 2 ^ k) as Hpow by (apply Z.pow_pos_nonneg; lia).
  assert (to_int (4 * MEM_PAGESIZE + address m) = 4 * MEM_PAGESIZE + address m) as Hint
    by (apply to_int_small; lia).
  assert (~ mfree_rejects (4 * MEM_PAGESIZE + address m)) as Hpass.
  { unfold mfree_rejects, NULL. rewrite Hint. lia. }
  assert (Z.land (to_int (4 * MEM_PAGESIZE + address m)) MEM_PAGE_OFFSET_MASK = address m)
    as Hland.
  { rewrite Hint, Hmask, Hps.
    replace (2 ^ k - 1) with (Z.ones k) by (rewrite Z.ones_equiv; lia).
    rewrite Z.land_ones by lia.
    rewrite Z.add_comm, Z.mod_add by lia. apply Z.mod_small. lia. }
  destruct (coalescing_chain j _ Hwf Hlive) as (path & h' & Hchain & Hrun & Hin & Hout & Hle).
  destruct (reset_chain_head _ _ _ Hchain) as [rest ->].
  exists (length (j :: rest)), (set_heap_array h' pcb). split; [|split].
  - intros fuel Hfuel. rewrite mfree_guard, decide_False by done.
    rewrite (free_block_last_match _ _ _ j m); [|by destruct Hwf|done|done|by rewrite Hland|].
    + by rewrite (Hrun fuel Hfuel).
    + intros i n Hi Hn. rewrite Hland. by eapply Hlast.
  - cbn [heap_array set_heap_array]. rewrite Hin by constructor. by rewrite Hm.
  - intros i Hi. cbn [heap_array set_heap_array]. apply Hout.
    intros Hin'%Hle. lia.
Qed.

(** X20.  MemoryCoalescing looks at the [inuse] flag of the sibling only.
    When the sibling is split and a child of it is in use, freeing node
    [k] still merges: the parent becomes a free leaf of its full size,
    while the node below the sibling stays as it is, in use, and its
    block lies inside the block of that free leaf. *)
Theorem coalescing_frees_parent_over_used_block mo mb h k n p np b nb d nd :
  0 <= mo -> 2 * 2 ^ mo <= MEM_NUM_NODES -> MEM_PAGESIZE = mb * 2 ^ mo ->
  heap_reachable mo h -> live h k ->
  h !! k = Some n -> parent n = Some p -> h !! p = Some np ->
  sibling np k = Some b -> h !! b = Some nb -> inuse nb = 0 ->
  left nb = Some d \/ right nb = Some d -> h !! d = Some nd -> inuse nd <> 0 ->
  exists fuel0 h',
    (forall fuel, (fuel0 <= fuel)%nat -> MemoryCoalescing fuel h (Some k) = Done h') /\
    h' !! p = Some (reset_node np) /\ free_leaf (reset_node np) /\
    h' !! d = Some nd /\
    address np <= address nd /\ address nd + size nd <= address np + size np.
Proof.
  intros Ho Hfit Hpage Hreach Hlive Hn Hpar Hnp Hsib Hnb Hfree Hd Hnd Huse.
  destruct (reachable_laid mo mb h Ho Hfit Hpage Hreach) as [Hwf Hlaid].
  assert (k <> 1%nat) as Hk.
  { intros ->. destruct Hwf as (_ & (root & ? & _ & ?) & _). congruence. }
  destruct (live_parent h k Hwf Hlive Hk)
    as (p' & n' & np' & Hp & Hkp & Hn' & Hpar' & _ & Hnp' & Hl & Hr & Hlivep & _).
  assert (n' = n) as -> by congruence. assert (p' = p) as -> by congruence.
  assert (np' = np) as -> by congruence.
  assert (left np = Some b \/ right np = Some b) as Hb.
  { unfold sibling in Hsib. destruct (decide _); auto. }
  assert (b = (2 * p)%nat \/ b = (2 * p + 1)%nat) as Hbp
    by (destruct Hb; [left|right]; congruence).
  assert (b <> k) as Hbk.
  { unfold sibling in Hsib. destruct (decide (left np = Some k)) as [Hlk|Hlk].
    - intros ->. rewrite Hl in Hlk. rewrite Hr in Hsib. injection Hlk. injection Hsib. lia.
    - intros ->. rewrite Hsib in Hlk. done. }
  destruct (child_block mo mb h p np b Hwf Hlaid Hlivep Hnp Hb)
    as (nb' & Hnb' & Hliveb & Hgb & Hob & Hsb & Hbl & Hbr).
  assert (nb' = nb) as -> by congruence. clear Hnb'.
  destruct (child_block mo mb h b nb d Hwf Hlaid Hliveb Hnb Hd)
    as (nd' & Hnd' & _ & Hgd & Hod & Hsd & Hdl & Hdr).
  assert (nd' = nd) as -> by congruence. clear Hnd'.
  destruct (coalescing_chain k h Hwf Hlive) as (path & h' & Hchain & Hrun & Hin & Hout & Hle).
  assert (p ∈ path) as Hpin.
  { inversion Hchain as [h0 k0 n0 Hn0 Hp0|h0 k0 n0 p0 np0 b0 nb0 Hn0 Hp0 Hnp0 Hb0 Hnb0 Hu0
                        |h0 k0 n0 p0 np0 b0 nb0 path0 Hn0 Hp0 Hnp0 Hb0 Hnb0 Hu0 Hrest]; subst.
    - congruence.
    - assert (n0 = n) as -> by congruence. assert (p0 = p) as -> by congruence.
      assert (np0 = np) as -> by congruence. assert (b0 = b) as -> by congruence.
      assert (nb0 = nb) as -> by congruence. done.
    - assert (n0 = n) as -> by congruence. assert (p0 = p) as -> by congruence.
      destruct (reset_chain_head _ _ _ Hrest) as [rest ->]. right; left. }
  assert (d = (2 * b)%nat \/ d = (2 * b + 1)%nat) as Hdb.
  { destruct Hd as [Hd|Hd]; [left; by apply Hdl|right; by apply Hdr]. }
  exists (length path), h'. split; [done|].
  split; [by rewrite (Hin p Hpin), Hnp|]. split; [done|].
  split.
  { rewrite Hout; [done|]. intros Hdin%Hle. lia. }
  destruct Hgd as (_ & Hsd0 & _). destruct Hgb as (_ & Hsb0 & _).
  assert (address np <= address nb <= address np + size nb) as Hab.
  { destruct Hb as [Hb|Hb]; [destruct (Hbl Hb)|destruct (Hbr Hb)]; lia. }
  assert (address nb <= address nd <= address nb + size nd) as Had.
  { destruct Hd as [Hd|Hd]; [destruct (Hdl Hd)|destruct (Hdr Hd)]; lia. }
  lia.
Qed.

Lemma split_keeps_used mo mb fuel h node r res h' :
  0 < r ->
  heap_wf h -> heap_laid mo mb h ->
  (forall i, node = Some i -> placed mo mb h i) ->
  MemorySplitNode fuel h node r = Done (res, h') ->
  forall j m, live h j -> h !! j = Some m -> inuse m <> 0 -> h' !! j = Some m.
Proof.
  intros Hr. revert h node res h'.
  induction fuel as [|fuel IH]; intros h node res h' Hwf Hlaid Hnode; simpl; [done|].
  destruct node as [i|]; [|by intros [= <- <-]].
  pose proof (Hnode i eq_refl) as Hpl.
  pose proof Hpl as ((Hi & n & Hn & Hg) & (n0 & Hn0 & Hlay) & Hlive).
  assert (n0 = n) as -> by congruence. clear Hn0. rewrite Hn.
  assert (forall h0, heap_wf h0 -> heap_laid mo mb h0 -> live h0 i ->
    ('(t, h1) ← MemorySplitNode fuel h0 (left (h0 !!! i)) r;
     if decide (t >= 0) then Done (t, h1)
     else MemorySplitNode fuel h1 (right (h1 !!! i)) r) = Done (res, h') ->
    forall j m, live h0 j -> h0 !! j = Some m -> inuse m <> 0 -> h' !! j = Some m)
    as Hdescend.
  { intros h0 Hwf0 Hlaid0 Hlive0.
    assert (forall hx c, heap_wf hx -> heap_laid mo mb hx -> live hx i ->
              left (hx !!! i) = Some c \/ right (hx !!! i) = Some c ->
              placed mo mb hx c) as Hchild.
    { intros hx c Hwfx Hlaidx Hlivex Hc. destruct (wf_lookup hx i Hwfx) as [nx Hnx].
      { destruct Hwf as (Hlen & _). apply lookup_lt_Some in Hn. lia. }
      rewrite (list_lookup_total_correct _ _ _ Hnx) in Hc. eapply placed_child; eauto. }
    destruct (MemorySplitNode fuel h0 (left (h0 !!! i)) r) as [[t h1]| |] eqn:Hl;
      simpl; [|done..].
    pose proof Hl as Hlwf. pose proof Hl as Hlspec.
    apply (split_wf Hconst) in Hlwf as [Hwf1 _];
      [|done|intros c Hc; by destruct (Hchild h0 c Hwf0 Hlaid0 Hlive0 (or_introl Hc))|done].
    apply (split_spec mo mb) in Hlspec as (Hlaid1 & Hmono1 & _);
      [|done|done|done|intros c Hc; apply Hchild; auto].
    pose proof (IH _ _ _ _ Hwf0 Hlaid0
                  (fun c Hc => Hchild h0 c Hwf0 Hlaid0 Hlive0 (or_introl Hc)) Hl) as Hkeep1.
    destruct (decide (t >= 0)) as [Ht|Ht]; [by intros [= <- <-]|].
    intros Hright j m Hj Hm Hu.
    eapply (IH _ _ _ _ Hwf1 Hlaid1); [|exact Hright|by apply Hmono1|by eapply Hkeep1|done].
    intros c Hc. apply Hchild; auto. }
  destruct (decide (free_leaf n)) as [Hfree|_]; [|by apply Hdescend].
  destruct (decide (fits r n)) as [Hfits|_].
  { intros [= <- <-] j m Hj Hm Hu. rewrite list_lookup_insert_ne; [done|].
    intros ->. destruct Hfree as [_ Hz]. congruence. }
  destruct (decide (Z.quot (size n) 2 < r)); [by intros [= <- <-]|].
  destruct (decide (order n = 0)) as [|Ho]; [by intros [= <- <-]|].
  destruct (slot h (to_int (2 * index n))) as [l|] eqn:Hl; [|done].
  destruct (slot h (to_int (2 * index n + 1))) as [r'|] eqn:Hr'; [|done].
  destruct (wf_split Hconst h i n l r') as (Hwf0 & _); try done.
  destruct (laid_split mo mb h i n l r') as (Hlaid0 & Hmono0 & Hsame0); try done.
  { by destruct Hfree. }
  intros Hd j m Hj Hm Hu.
  eapply (Hdescend _ Hwf0 Hlaid0 (Hmono0 i Hlive) Hd); [by apply Hmono0| |done].
  rewrite Hsame0; [done|done|]. intros ->. destruct Hfree as [_ Hz]. congruence.
Qed.

(** X18.  [malloc] does not disturb the blocks that are in use: on a
    reachable heap, every node of the tree whose [inuse] flag is set is
    the same node after the call, and still belongs to the tree. *)
Theorem malloc_keeps_used_blocks mo mb fuel pcb r ptr pcb' j m :
  0 <= mo -> 2 * 2 ^ mo <= MEM_NUM_NODES -> MEM_PAGESIZE = mb * 2 ^ mo ->
  heap_reachable mo (heap_array pcb) ->
  malloc fuel pcb r = Done (ptr, pcb') ->
  live (heap_array pcb) j -> heap_array pcb !! j = Some m -> inuse m <> 0 ->
  heap_array pcb' !! j = Some m /\ live (heap_array pcb') j.
Proof.
  intros Ho Hfit Hpage Hreach Hmalloc Hj Hm Hu.
  destruct (reachable_laid mo mb _ Ho Hfit Hpage Hreach) as [Hwf Hlaid].
  destruct (malloc_spec mo mb _ _ _ _ _ Hwf Hlaid Hmalloc) as (_ & Hmono & _).
  split; [|by apply Hmono]. revert Hmalloc. unfold malloc.
  destruct (decide (r <= 0 \/ r > MEM_PAGESIZE)) as [|Hr]; [by intros [= <- <-]|].
  destruct (MemoryNodeSearch fuel (heap_array pcb) (Some 1%nat) r)
    as [[block h1]| |] eqn:Hsearch; simpl; [|done..].
  apply (search_spec mo mb) in Hsearch;
    [|done|done|intros ? [= <-]; by apply placed_root].
  destruct (decide (block >= 0)) as [Hb|Hb].
  { destruct (read_size _ block) as [sz| |]; simpl; [|done..].
    intros [= <- <-]. simpl.
    destruct Hsearch as [[-> _]|(_ & j0 & m0 & Hm0 & _ & -> & Hserves)]; [lia|].
    rewrite list_lookup_insert_ne; [done|].
    intros ->. destruct Hserves as (_ & [_ Hz] & _). congruence. }
  destruct Hsearch as [[_ ->]|[? _]]; [|lia].
  destruct (MemorySplitNode fuel (heap_array pcb) (Some 1%nat) r)
    as [[block' h2]| |] eqn:Hsplit; simpl; [|done..].
  assert (0 < r) as Hr0 by lia.
  assert (forall i, Some 1%nat = Some i -> placed mo mb (heap_array pcb) i) as Hroot
    by (intros ? [= <-]; by apply placed_root).
  pose proof (split_keeps_used mo mb _ _ _ _ _ _ Hr0 Hwf Hlaid Hroot Hsplit j m Hj Hm Hu)
    as Hkeep.
  destruct (decide (block' >= 0));
    [destruct (read_size _ block') as [sz| |]; simpl; [|done..]|];
    by intros [= <- <-].
Qed.

Lemma coalescing_resets fuel h node h' :
  MemoryCoalescing fuel h node = Done h' ->
  forall i n, h !! i = Some n -> h' !! i = Some n \/ h' !! i = Some (reset_node n).
Proof.
  revert h node. induction fuel as [|fuel IH]; intros h node; simpl; [done|].
  destruct node as [k|]; [|intros [= <-]; auto].
  destruct (h !! k) as [nk|] eqn:Hnk; [|done].
  rewrite (alter_as_insert _ _ _ _ Hnk).
  assert (forall i n, h !! i = Some n ->
            <[k := reset_node nk]> h !! i = Some n \/
            <[k := reset_node nk]> h !! i = Some (reset_node n)) as Hstep.
  { intros i n Hn. destruct (decide (i = k)) as [->|Hne].
    - right. assert (n = nk) as -> by congruence.
      apply list_lookup_insert_eq. by eapply lookup_lt_Some.
    - left. by rewrite list_lookup_insert_ne. }
  destruct (parent (<[k := reset_node nk]> h !!! k)) as [p|]; [|by intros [= <-]].
  destruct (<[k := reset_node nk]> h !! p) as [np|]; [|done].
  destruct (if decide (left np = Some k) then right np else left np) as [b|]; [|done].
  destruct (<[k := reset_node nk]> h !! b) as [nb|]; [|done].
  destruct (decide (inuse nb = 0)); [|by intros [= <-]].
  intros Hrec i n Hn.
  destruct (Hstep i n Hn) as [Hi|Hi]; destruct (IH _ _ Hrec i _ Hi) as [Hi'|Hi']; auto.
Qed.

(** X21.  [mfree] only clears: whenever it returns, every node of the heap
    array is either the node it was or that node with its [inuse] flag and
    its child pointers reset, so that no index, order, size, address or
    parent pointer changes and no node becomes in use; the other fields of
    the process are left alone, and a pointer that the guards reject costs
    MEM_FAIL and changes nothing. *)
Theorem mfree_only_resets fuel pcb ptr res pcb' :
  mfree fuel pcb ptr = Done (res, pcb') ->
  currentSavedFrame pcb' = currentSavedFrame pcb /\
  pagetable pcb' = pagetable pcb /\ npages pcb' = npages pcb /\
  (forall i n, heap_array pcb !! i = Some n ->
     heap_array pcb' !! i = Some n \/ heap_array pcb' !! i = Some (reset_node n)) /\
  (mfree_rejects ptr -> res = MEM_FAIL /\ pcb' = pcb).
Proof.
  rewrite mfree_guard. case_decide as Hrej.
  { intros [= <- <-]. split; [done|]. split; [done|]. split; [done|]. split; [auto|done]. }
  unfold free_block.
  destruct (find_node _ _ _ _) as [[k|]| |]; simpl; [|done..].
  destruct (MemoryCoalescing fuel (heap_array pcb) (Some k)) as [h| |] eqn:Hc;
    simpl; [|done..].
  intros [= <- <-]. simpl. split; [done|]. split; [done|]. split; [done|].
  split; [by eapply coalescing_resets|done].
Qed.

(** ** The spec's merge chain *)

Lemma used_child_not_free h b nb d nd :
  h !! b = Some nb -> left nb = Some d ->
  h !! d = Some nd -> inuse nd <> 0 -> ~ block_free h b.
Proof.
  intros Hnb Hd Hnd Hu Hfree.
  assert (~ block_free h d) as Hnot.
  { intros Hfd. inversion Hfd; congruence. }
  inversion Hfree as [b' nb' Hnb' _ Hl|b' nb' l r Hnb' _ Hl Hr Hfl Hfr]; subst.
  - congruence.
  - assert (l = d) as -> by congruence. done.
Qed.

Lemma merge_chain_stops h k n p np b path :
  h !! k = Some n -> parent n = Some p -> h !! p = Some np ->
  sibling np k = Some b -> ~ block_free h b ->
  merge_chain h k path -> path = [k].
Proof.
  intros Hn Hp Hnp Hb Hnot Hchain.
  inversion Hchain as [h0 k0 n0 Hn0 Hp0|h0 k0 n0 p0 np0 b0 Hn0 Hp0 Hnp0 Hb0 Hf0
                      |h0 k0 n0 p0 np0 b0 path0 Hn0 Hp0 Hnp0 Hb0 Hf0 Hrest]; subst.
  - congruence.
  - done.
  - assert (n0 = n) as -> by congruence. assert (p0 = p) as -> by congruence.
    assert (np0 = np) as -> by congruence. assert (b0 = b) as -> by congruence.
    done.
Qed.

End Buddy_heap_further.

(** * The properties at concrete inputs *)

Section Concrete_inputs.
Local Existing Instance dlx_constants.

Example boot_state_is_initial :
  MemoryModuleInit 0x200000 0x1F123 static_state = Done boot_state.
Proof. vm_compute. reflexivity. Qed.

Lemma boot_state_consistent : frames_consistent boot_state.
Proof.
  split; [|vm_compute; reflexivity].
  split; [reflexivity|]. split; [simpl; lia|].
  apply Forall_forall. intros w Hw. unfold boot_state in Hw. cbn [freemap] in Hw.
  rewrite elem_of_cons, elem_of_replicate in Hw. destruct Hw as [->|[-> _]]; lia.
Qed.

Lemma fresh_heap_initial : heap_initial 7 fresh_heap.
Proof.
  split; [reflexivity|]. split.
  - intros i n. unfold fresh_heap. destruct (decide (i = 1%nat)) as [->|Hi].
    + intros [= <-]. done.
    + rewrite list_lookup_insert_ne, list_lookup_fmap by done.
      destruct (seq 0 256 !! i) as [j|] eqn:Hj; simpl; [|done].
      apply lookup_seq in Hj as [-> _]. intros [= <-]. done.
  - eexists. split; [reflexivity|done].
Qed.

Lemma dlx_heap_constants : heap_constants_ok.
Proof. unfold heap_constants_ok. simpl. lia. Qed.

(** On [boot_state], with fuel for one pass over the bitmap,
    MemoryAllocPage returns frame 32, the lowest free frame. *)
Lemma alloc_lowest_free_frame_witness :
  exists q st', MemoryAllocPage 16 boot_state = Done (q, st') /\
                head (free_frames boot_state) = Some q.
Proof.
  apply (proj1 (alloc_lowest_free_frame boot_state boot_state_consistent));
    [vm_compute; reflexivity|lia].
Defined.

(** Between [boot_state] and the state that hands out frame 32, only bit 0
    of word 1 differs. *)
Lemma alloc_changes_one_bit_witness :
  length (freemap boot_state_one_held) = length (freemap boot_state) /\
  Z.testbit (freemap boot_state !!! Z.to_nat (32 / 32)) (32 mod 32) = true /\
  Z.testbit (freemap boot_state_one_held !!! Z.to_nat (32 / 32)) (32 mod 32) = false /\
  forall (i : nat) (j : Z),
    0 <= j -> ~ (i = Z.to_nat (32 / 32) /\ j = 32 mod 32) ->
    Z.testbit (freemap boot_state_one_held !!! i) j = Z.testbit (freemap boot_state !!! i) j.
Proof.
  apply (alloc_changes_one_bit 16 boot_state 32 boot_state_one_held).
  - apply boot_state_consistent.
  - vm_compute. discriminate.
  - vm_compute. reflexivity.
Defined.

Lemma dlx_frames_representable q : 0 <= q < 512 -> pte_page_representable q.
Proof.
  intros Hq.
  assert (Forall (fun q => 0 <= q /\ q * 4096 < 2 ^ 32 /\
                           Z.land (q * 4096) (to_uint32 0xFFFFFFF8) = q * 4096)
                 (seqZ 0 512)) as Hall.
  { apply (bool_decide_unpack _). vm_compute. exact I. }
  rewrite Forall_forall in Hall. apply Hall. apply elem_of_seqZ. lia.
Qed.

(** Frame 32, which [boot_state_one_held] has handed out, and the entry
    0x20001 built for it. *)
Lemma pte_setup_free_round_trip_witness :
  Z.land (MemorySetupPte 32) (to_uint32 MEM_MASK_PTE2PAGE) / to_uint32 MEM_PAGESIZE = 32 /\
  exists st',
    MemoryFreePageTableEntry (MemorySetupPte 32) boot_state_one_held = Done st' /\
    frame_free st' 32 = true /\
    (forall q, q <> 32 -> frame_free st' q = frame_free boot_state_one_held q) /\
    nfreepages st' = to_int (nfreepages boot_state_one_held + 1) /\
    freemapmax st' = freemapmax boot_state_one_held /\
    pagestart st' = pagestart boot_state_one_held /\
    bitmap_ok st'.
Proof.
  apply (pte_setup_free_round_trip 12 32 boot_state_one_held).
  - lia.
  - reflexivity.
  - simpl. lia.
  - apply dlx_frames_representable. lia.
  - lia.
  - split; [reflexivity|]. split; [simpl; lia|].
    apply (bool_decide_unpack _). vm_compute. exact I.
Defined.

(** A frame number that the page-number field can hold and the bitmap
    cannot: for frame 1000 the entry is 0x3E8001 and the frame extracted
    from it is 1000 again, but freeing the entry writes [freemap[31]],
    outside the 16 words of the bitmap, and no frame is freed. *)
Lemma pte_free_beyond_bitmap :
  pte_page_representable 1000 /\
  Z.land (MemorySetupPte 1000) (to_uint32 MEM_MASK_PTE2PAGE) / to_uint32 MEM_PAGESIZE = 1000 /\
  MemoryFreePageTableEntry (MemorySetupPte 1000) boot_state = Undefined.
Proof.
  split; [|split; vm_compute; reflexivity].
  split; [lia|]. split; [vm_compute; reflexivity|vm_compute; reflexivity].
Qed.

(** Frames 32 and 33 handed out, then frame 32 given back: 479 free
    frames and 1 allocated frame among the 480 usable ones. *)
Lemma frame_conservation_witness :
  free_count boot_state_after_free
  + allocated_count boot_state_after_free (Z.quot 0x200000 MEM_PAGESIZE)
  = total_usable_frames boot_state_after_free (Z.quot 0x200000 MEM_PAGESIZE).
Proof.
  apply (frame_conservation 0x200000 0x1F123 boot_state boot_state_after_free
           (filter (fun q => q <> 32) [33; 32])).
  - simpl. lia.
  - simpl. lia.
  - lia.
  - vm_compute. discriminate.
  - lia.
  - vm_compute. reflexivity.
  - eapply (run_free boot_state _ [33; 32] 32).
    + eapply (run_alloc boot_state boot_state_one_held [32] 16 33).
      * eapply (run_alloc boot_state boot_state [] 16 32).
        -- apply run_start.
        -- vm_compute. reflexivity.
        -- vm_compute. discriminate.
      * vm_compute. reflexivity.
      * vm_compute. discriminate.
    + apply elem_of_cons. right. apply elem_of_cons. by left.
    + vm_compute. reflexivity.
Defined.

Lemma one_block_reachable : heap_reachable 7 (heap_array one_block_pcb).
Proof.
  apply (reach_malloc 7 20%nat fresh_pcb 2048 0x4000 one_block_pcb).
  - apply reach_initial, fresh_heap_initial.
  - vm_compute. reflexivity.
Qed.

(** [malloc(100)] on the fresh heap splits down to a block of 128 bytes. *)
Lemma malloc_block_size_witness :
  0 < 100 <= MEM_PAGESIZE /\
  exists j m h0,
    heap_array (pcb_after (malloc 20 fresh_pcb 100)) = <[j := set_inuse 1 m]> h0 /\
    h0 !! j = Some m /\ free_leaf m /\ 100 <= size m < 2 * 100 /\
    0x4000 = to_uint32 (to_int (Z.lor (MEM_PAGESIZE * 4) (address m))).
Proof.
  apply (proj2 malloc_block_size 20%nat fresh_pcb 100 0x4000
           (pcb_after (malloc 20 fresh_pcb 100))).
  - vm_compute. reflexivity.
  - discriminate.
Defined.

Lemma small_block_reachable : heap_reachable 7 (heap_array small_block_pcb).
Proof.
  apply (reach_malloc 7 20%nat fresh_pcb 32 0x4000 small_block_pcb).
  - apply reach_initial, fresh_heap_initial.
  - vm_compute. reflexivity.
Qed.

Lemma two_leaves_reachable : heap_reachable 7 (heap_array two_leaves_pcb).
Proof.
  apply (reach_malloc 7 20%nat small_block_pcb 64 0x4040 two_leaves_pcb).
  - apply small_block_reachable.
  - vm_compute. reflexivity.
Qed.

(** [malloc(64)] after [malloc(32)] returns 0x4040, inside the heap page;
    the block is at byte 64, which is an index of the node array. *)
Lemma malloc_result_in_heap_page_witness :
  4 * MEM_PAGESIZE <= 0x4040 < 5 * MEM_PAGESIZE /\
  ~ mfree_rejects 0x4040 /\
  forall fuel' pcb'', mfree fuel' pcb'' 0x4040 = free_block fuel' pcb'' 0x4040.
Proof.
  apply (malloc_result_in_heap_page dlx_heap_constants 7 12 20%nat
           small_block_pcb 64 0x4040 two_leaves_pcb).
  - lia.
  - reflexivity.
  - lia.
  - simpl. lia.
  - apply small_block_reachable.
  - vm_compute. reflexivity.
  - discriminate.
Defined.

(** One step down the tree of a concrete heap. *)
Ltac tree_step h i :=
  first [ apply (live_left h i (h !!! i)); [|vm_compute; reflexivity..]
        | apply (live_right h i (h !!! i)); [|vm_compute; reflexivity..] ].

Lemma small_block_live_128 : live (heap_array small_block_pcb) 128.
Proof.
  tree_step (heap_array small_block_pcb) 64%nat. tree_step (heap_array small_block_pcb) 32%nat.
  tree_step (heap_array small_block_pcb) 16%nat. tree_step (heap_array small_block_pcb) 8%nat.
  tree_step (heap_array small_block_pcb) 4%nat. tree_step (heap_array small_block_pcb) 2%nat.
  tree_step (heap_array small_block_pcb) 1%nat. apply live_root.
Qed.

Lemma two_leaves_live_32 : live (heap_array two_leaves_pcb) 32.
Proof.
  tree_step (heap_array two_leaves_pcb) 16%nat. tree_step (heap_array two_leaves_pcb) 8%nat.
  tree_step (heap_array two_leaves_pcb) 4%nat. tree_step (heap_array two_leaves_pcb) 2%nat.
  tree_step (heap_array two_leaves_pcb) 1%nat. apply live_root.
Qed.

Lemma two_leaves_live_65 : live (heap_array two_leaves_pcb) 65.
Proof. tree_step (heap_array two_leaves_pcb) 32%nat. apply two_leaves_live_32. Qed.

Lemma two_leaves_live_128 : live (heap_array two_leaves_pcb) 128.
Proof.
  tree_step (heap_array two_leaves_pcb) 64%nat. tree_step (heap_array two_leaves_pcb) 32%nat.
  apply two_leaves_live_32.
Qed.

(** C5 (the code departs from it).  With the DLX constants, after
    [malloc(32)] and [malloc(64)] on the fresh heap the blocks at 0x4000
    (node 128) and 0x4040 (node 65) are in use.  The sibling of node 65 is
    node 64, which is split and holds the block of node 128: it is still
    allocated, and the spec's chain for freeing node 65 stops at once,
    with the parent, node 32, left split.  [mfree] of 0x4040 tests the
    [inuse] field of node 64 alone, which is 0: it merges, node 32 and all
    the nodes above it are cleared and the root ends as a free leaf, while
    node 128 is still in use; the next [malloc(4096)] then hands out
    0x4000, the address of a block that was never freed. *)
Theorem coalescing_merges_past_allocated_sibling :
  heap_reachable 7 (heap_array two_leaves_pcb) /\
  malloc 20 fresh_pcb 32 = Done (0x4000, small_block_pcb) /\
  malloc 20 small_block_pcb 64 = Done (0x4040, two_leaves_pcb) /\
  (live (heap_array two_leaves_pcb) 65 /\
   inuse (heap_array two_leaves_pcb !!! 65%nat) = 1 /\
   parent (heap_array two_leaves_pcb !!! 65%nat) = Some 32%nat /\
   left (heap_array two_leaves_pcb !!! 32%nat) = Some 64%nat /\
   right (heap_array two_leaves_pcb !!! 32%nat) = Some 65%nat /\
   sibling (heap_array two_leaves_pcb !!! 32%nat) 65 = Some 64%nat) /\
  (live (heap_array two_leaves_pcb) 128 /\
   left (heap_array two_leaves_pcb !!! 64%nat) = Some 128%nat /\
   inuse (heap_array two_leaves_pcb !!! 128%nat) = 1 /\
   ~ block_free (heap_array two_leaves_pcb) 64) /\
  (forall path, merge_chain (heap_array two_leaves_pcb) 65 path -> path = [65%nat]) /\
  mfree 20 two_leaves_pcb 0x4040 = Done (64, merged_pcb) /\
  (left (heap_array merged_pcb !!! 32%nat) = None /\
   right (heap_array merged_pcb !!! 32%nat) = None /\
   free_leaf (heap_array merged_pcb !!! 1%nat) /\
   inuse (heap_array merged_pcb !!! 128%nat) = 1) /\
  exists pcb', malloc 20 merged_pcb 4096 = Done (0x4000, pcb').
Proof.
  assert (~ block_free (heap_array two_leaves_pcb) 64) as Hnot.
  { apply (used_child_not_free _ 64 (heap_array two_leaves_pcb !!! 64%nat)
             128 (heap_array two_leaves_pcb !!! 128%nat));
      vm_compute; (reflexivity || discriminate). }
  split; [apply two_leaves_reachable|].
  split; [vm_compute; reflexivity|]. split; [vm_compute; reflexivity|].
  split; [split; [apply two_leaves_live_65|vm_compute; done]|].
  split.
  { split; [apply two_leaves_live_128|]. split; [vm_compute; reflexivity|].
    split; [vm_compute; reflexivity|done]. }
  split.
  { intros path.
    apply (merge_chain_stops _ 65 (heap_array two_leaves_pcb !!! 65%nat)
             32 (heap_array two_leaves_pcb !!! 32%nat) 64);
      [vm_compute; reflexivity..|done]. }
  split; [vm_compute; reflexivity|].
  split; [vm_compute; done|].
  eexists. vm_compute. reflexivity.
Qed.

(** C3 (the code departs from it).  With the DLX constants and the fresh
    heap array, [mfree] of 0x4064: the pointer passes the guards, no node
    records the offset 100, and the call runs into the use of the
    uninitialised [node]; it does not return MEM_FAIL. *)
Theorem mfree_unmatched_address_undefined fuel :
  ~ mfree_rejects 0x4064 /\
  Forall (fun n => address n <> Z.land (to_int 0x4064) MEM_PAGE_OFFSET_MASK) fresh_heap /\
  mfree fuel fresh_pcb 0x4064 = Undefined /\
  mfree fuel fresh_pcb 0x4064 <> Done (MEM_FAIL, fresh_pcb).
Proof.
  assert (~ mfree_rejects 0x4064) as Hpass.
  { unfold mfree_rejects, NULL. rewrite to_int_small by lia. simpl. lia. }
  assert (Forall (fun n => address n <> Z.land (to_int 0x4064) MEM_PAGE_OFFSET_MASK)
                 fresh_heap) as Hno.
  { apply (bool_decide_unpack _). vm_compute. exact I. }
  assert (mfree fuel fresh_pcb 0x4064 = Undefined) as Hundef.
  { apply mfree_no_match; [done|]. intros i n _ Hn.
    rewrite Forall_lookup in Hno. by apply (Hno i). }
  rewrite Hundef. done.
Qed.

End Concrete_inputs.

(** * The further properties at concrete inputs *)

Section Concrete_inputs_further.
Local Existing Instance dlx_constants.

Lemma boot_state_ok : bitmap_ok boot_state.
Proof. apply boot_state_consistent. Qed.

Lemma boot_state_inv : frames_inv boot_state 512 boot_state [].
Proof.
  destruct (init_establishes_inv 0x200000 0x1F123) as (st0 & Hinit & Hinv);
    [simpl; lia|lia|vm_compute; discriminate|lia|].
  rewrite boot_state_is_initial in Hinit. injection Hinit as <-. exact Hinv.
Qed.

(** The complement of 0xFFFF. *)
Lemma invert_complement_witness :
  invert 0xFFFF = 0xFFFFFFFF - 0xFFFF /\ 0 <= invert 0xFFFF < 2 ^ 32 /\
  invert (invert 0xFFFF) = 0xFFFF.
Proof. apply (invert_complement 0xFFFF). lia. Defined.

(** Clearing the bit of frame 32 in [boot_state]. *)
Lemma edit_freemap_writes_bit_witness :
  exists st',
    MemoryEditFreemap 32 0 boot_state = Done st' /\
    frame_free st' 32 = bool_decide (0 = 1) /\
    (forall q, q <> 32 -> frame_free st' q = frame_free boot_state q) /\
    bitmap_ok st' /\ freemapmax st' = freemapmax boot_state /\
    pagestart st' = pagestart boot_state /\ nfreepages st' = nfreepages boot_state.
Proof.
  apply (edit_freemap_writes_bit boot_state 32 0).
  - apply boot_state_ok.
  - lia.
  - by left.
Defined.

(** 2MB of memory and a kernel image that ends at 0x1F123: frames 32 to
    511 are free. *)
Lemma init_frees_frames_above_kernel_witness :
  exists st0,
    MemoryModuleInit 0x200000 0x1F123 static_state = Done st0 /\
    pagestart st0 = Z.land 0x1F123 0x1FFFFC / MEM_PAGESIZE + 1 /\
    freemapmax st0 = (Z.quot 0x200000 MEM_PAGESIZE + 31) / 32 /\
    (forall p, frame_free st0 p = true <->
               pagestart st0 <= p < Z.quot 0x200000 MEM_PAGESIZE) /\
    nfreepages st0 = Z.max 0 (Z.quot 0x200000 MEM_PAGESIZE - pagestart st0) /\
    frames_consistent st0.
Proof.
  apply (init_frees_frames_above_kernel 0x200000 0x1F123).
  - simpl. lia.
  - lia.
  - vm_compute. discriminate.
  - lia.
Defined.

(** Frame 32 handed out of [boot_state] and given back. *)
Lemma alloc_then_free_restores_witness :
  MemoryFreePage 32 boot_state_one_held = Done boot_state.
Proof.
  apply (alloc_then_free_restores 16 boot_state 32 boot_state_one_held).
  - apply boot_state_ok.
  - vm_compute. discriminate.
  - simpl. lia.
  - vm_compute. reflexivity.
Defined.

(** Frame 40 is free in [boot_state]; freeing it counts 481 free frames
    among 480. *)
Lemma free_of_free_frame_miscounts_witness :
  exists st',
    MemoryFreePage 40 boot_state = Done st' /\
    freemap st' = freemap boot_state /\
    nfreepages st' = nfreepages boot_state + 1 /\
    ~ frames_consistent st'.
Proof.
  apply (free_of_free_frame_miscounts boot_state 40).
  - apply boot_state_consistent.
  - lia.
  - vm_compute. reflexivity.
Defined.

Lemma one_held_run : frames_run boot_state boot_state_one_held [32].
Proof.
  eapply (run_alloc boot_state boot_state [] 16 32).
  - apply run_start.
  - vm_compute. reflexivity.
  - vm_compute. discriminate.
Qed.

(** With frame 32 held, the next allocation hands out frame 33. *)
Lemma alloc_hands_out_unheld_frame_witness :
  (33 = MEM_FAIL /\ boot_state_two_held = boot_state_one_held /\
   forall p, p ∈ usable_frames boot_state 512 -> p ∈ [32]) \/
  (pagestart boot_state <= 33 < 512 /\ ~ 33 ∈ [32] /\
   frame_free boot_state_two_held 33 = false).
Proof.
  apply (alloc_hands_out_unheld_frame boot_state 512 boot_state_one_held [32] 16 33
           boot_state_two_held).
  - simpl. lia.
  - lia.
  - apply boot_state_inv.
  - apply one_held_run.
  - vm_compute. reflexivity.
Defined.

(** With frame 32 held, both calls return. *)
Lemma run_calls_return_witness :
  (forall fuel, (16 <= fuel)%nat ->
     exists q st', MemoryAllocPage fuel boot_state_one_held = Done (q, st')) /\
  (forall p, p ∈ [32] -> exists st', MemoryFreePage p boot_state_one_held = Done st').
Proof.
  apply (run_calls_return boot_state 512 boot_state_one_held [32]).
  - simpl. lia.
  - lia.
  - apply boot_state_inv.
  - apply one_held_run.
Defined.

(** With no bit set and a free count of 1, an allocation does not return
    within 1000 rounds of the loop. *)
Lemma alloc_spins_on_empty_bitmap_witness :
  MemoryAllocPage 1000 miscounted_state = Timeout.
Proof.
  apply (alloc_spins_on_empty_bitmap miscounted_state 1000).
  - split; [reflexivity|]. split; [simpl; lia|]. apply Forall_replicate. lia.
  - vm_compute. discriminate.
  - intros p. unfold frame_free, miscounted_state. cbn [freemap].
    destruct (replicate 16 0 !! Z.to_nat (p / 32)) as [w|] eqn:Hw;
      [|apply andb_false_r].
    apply lookup_replicate in Hw as [-> _]. rewrite Z.bits_0. apply andb_false_r.
Defined.

(** A memory of 4MB has 1024 frames. *)
Lemma init_overruns_bitmap_witness :
  MemoryModuleInit 0x400000 0x1F123 static_state = Undefined.
Proof.
  apply (init_overruns_bitmap 0x400000 0x1F123).
  - simpl. lia.
  - vm_compute. split; reflexivity.
Defined.

(** Page 0 of [one_page_pcb] holds the entry built for frame 5: address
    0x123 translates to 0x5123. *)
Lemma translate_of_setup_pte_witness :
  MemoryTranslateUserToSystem one_page_pcb 0x123
    = Done (5 * MEM_PAGESIZE + MEM_ADDR2OFFS 0x123) /\
  5 * MEM_PAGESIZE <= 5 * MEM_PAGESIZE + MEM_ADDR2OFFS 0x123 < (5 + 1) * MEM_PAGESIZE.
Proof.
  apply (translate_of_setup_pte 12 one_page_pcb 0x123 5).
  - lia.
  - reflexivity.
  - simpl. lia.
  - vm_compute. reflexivity.
  - apply dlx_frames_representable. lia.
  - vm_compute. reflexivity.
Defined.

(** A copy of 100 bytes to user address 0 of [one_page_pcb]. *)
Lemma move_between_spaces_count_witness :
  match MemoryMoveBetweenSpaces 100 one_page_pcb (fun a => a) 0x9000 0 100 1 with
  | Done (c, _) =>
      0 <= c <= 100 /\
      (c < 100 -> MemoryTranslateUserToSystem one_page_pcb (to_uint32 (0 + c)) = Done 0)
  | Undefined => True
  | Timeout => False
  end.
Proof.
  apply (move_between_spaces_count 12 100 one_page_pcb (fun a => a) 0x9000 0 100 1).
  - lia.
  - reflexivity.
  - vm_compute. reflexivity.
  - lia.
  - lia.
Defined.

(** 100 bytes copied from kernel address 0x9000 to user address 0x10 of
    [one_page_pcb], which is physical address 0x5010, and back from there
    to kernel address 0xA000. *)
Lemma copy_round_trip_within_page_witness :
  exists m1 m2,
    MemoryCopySystemToUser 1 one_page_pcb (fun a => a) 0x9000 0x10 100 = Done (100, m1) /\
    MemoryCopyUserToSystem 1 one_page_pcb m1 0x10 0xA000 100 = Done (100, m2) /\
    (forall i, 0 <= i < 100 -> m1 (0x5010 + i) = 0x9000 + i) /\
    (forall i, 0 <= i < 100 -> m2 (0xA000 + i) = 0x9000 + i).
Proof.
  apply (copy_round_trip_within_page 12 0 0 one_page_pcb (fun a => a)
           0x9000 0x10 0xA000 100 0x5010).
  - lia.
  - reflexivity.
  - vm_compute. reflexivity.
  - vm_compute. reflexivity.
  - lia.
  - lia.
  - vm_compute. discriminate.
Defined.

(** The fault of [faulting_kernel] at 0x1FD000, above the page of the
    saved stack pointer, while frame 32 is free. *)
Lemma page_fault_maps_faulting_page_witness :
  exists q k',
    MemoryPageFaultHandler 16 faulting_kernel = Done (MEM_SUCCESS, k') /\
    k_killed k' = k_killed faulting_kernel /\
    frame_free (k_frames faulting_kernel) q = true /\
    frame_free (k_frames k') q = false /\
    npages (k_pcb k') = to_int (npages (k_pcb faulting_kernel) + 1) /\
    (forall j, j <> Z.to_nat (MEM_ADDR2PAGE 0x1FD000) ->
               pagetable (k_pcb k') !! j = pagetable (k_pcb faulting_kernel) !! j) /\
    MemoryTranslateUserToSystem (k_pcb k') 0x1FD000
      = Done (q * MEM_PAGESIZE + MEM_ADDR2OFFS 0x1FD000).
Proof.
  apply (page_fault_maps_faulting_page 12 16 faulting_kernel 0x1FDFF0 0x1FD000 32).
  - lia.
  - reflexivity.
  - simpl. lia.
  - vm_compute. reflexivity.
  - apply dlx_frames_representable.
  - simpl. lia.
  - reflexivity.
  - reflexivity.
  - lia.
  - vm_compute. discriminate.
  - vm_compute. lia.
  - apply boot_state_ok.
  - vm_compute. discriminate.
  - simpl. lia.
  - vm_compute. reflexivity.
  - lia.
Defined.

Lemma no_alias_above (h : list Node) (k : nat) (a : Z) :
  Forall (fun n => address n <> a) (drop (S k) h) ->
  forall j m, (k < j)%nat -> h !! j = Some m -> address m <> a.
Proof.
  intros Hall j m Hj Hm. rewrite Forall_lookup in Hall.
  apply (Hall (j - S k)%nat m). rewrite lookup_drop.
  by replace (S k + (j - S k))%nat with j by lia.
Qed.

Lemma passes_guards_0x4000 : ~ mfree_rejects 0x4000.
Proof. unfold mfree_rejects, NULL. rewrite to_int_small by lia. simpl. lia. Qed.

Lemma one_block_live_2 : live (heap_array one_block_pcb) 2.
Proof.
  eapply (live_left _ 1%nat); [apply live_root|vm_compute; reflexivity|reflexivity].
Qed.

(** The second [malloc(2048)], with fuel for the 256 nodes: the block found
    is at byte 2048, and [heap_array[2048]] is outside the array. *)
Lemma malloc_ends_or_overruns_witness :
  (exists ptr pcb', malloc 256 one_block_pcb 2048 = Done (ptr, pcb')) \/
  (malloc 256 one_block_pcb 2048 = Undefined /\
   exists block h',
     MEM_NUM_NODES <= block /\
     (MemoryNodeSearch 256 (heap_array one_block_pcb) (Some 1%nat) 2048 = Done (block, h') \/
      MemorySplitNode 256 (heap_array one_block_pcb) (Some 1%nat) 2048 = Done (block, h'))).
Proof.
  apply (malloc_ends_or_overruns dlx_heap_constants 7 256 one_block_pcb 2048).
  - lia.
  - simpl. lia.
  - apply one_block_reachable.
  - vm_compute. lia.
Defined.

Example second_large_block_overruns : malloc 256 one_block_pcb 2048 = Undefined.
Proof. vm_compute. reflexivity. Qed.

(** In [one_block_pcb] the nodes 1 and 2 record address 0: [mfree] of
    0x4000 acts on node 2. *)
Lemma mfree_frees_last_match_witness :
  mfree 20 one_block_pcb 0x4000 =
    (h ← MemoryCoalescing 20 (heap_array one_block_pcb) (Some 2%nat);
     Done (size (heap_array one_block_pcb !!! 2%nat), set_heap_array h one_block_pcb)).
Proof.
  apply (mfree_frees_last_match 20 one_block_pcb 0x4000 2
           (heap_array one_block_pcb !!! 2%nat)).
  - apply passes_guards_0x4000.
  - vm_compute. reflexivity.
  - lia.
  - vm_compute. reflexivity.
  - vm_compute. reflexivity.
  - apply no_alias_above. apply (bool_decide_unpack _). vm_compute. exact I.
Defined.

(** In [reused_pcb] the block at address 0 is node 64, and the stale node
    128 records address 0 as well: [mfree] of the pointer that [malloc]
    returned is undefined. *)
Lemma mfree_of_stale_node_undefined_witness :
  malloc 20 freed_pcb 64 = Done (0x4000, reused_pcb) /\
  mfree 20 reused_pcb 0x4000 = Undefined.
Proof.
  split; [vm_compute; reflexivity|].
  apply (mfree_of_stale_node_undefined 19 reused_pcb 0x4000 128
           (heap_array reused_pcb !!! 128%nat) 64 (heap_array reused_pcb !!! 64%nat)).
  - apply passes_guards_0x4000.
  - vm_compute. reflexivity.
  - lia.
  - vm_compute. reflexivity.
  - vm_compute. reflexivity.
  - apply no_alias_above. apply (bool_decide_unpack _). vm_compute. exact I.
  - vm_compute. reflexivity.
  - lia.
  - vm_compute. reflexivity.
  - vm_compute. reflexivity.
Defined.

(** Node 2 of [one_block_pcb]: order 6, 2048 bytes at address 0. *)
Lemma reachable_blocks_follow_layout_witness :
  exists m, heap_array one_block_pcb !! 2%nat = Some m /\
    order m = 7 - Z.log2 (Z.of_nat 2) /\ 0 <= order m <= 7 /\
    size m = 32 * 2 ^ order m /\
    address m = (Z.of_nat 2 - 2 ^ Z.log2 (Z.of_nat 2)) * size m /\
    0 <= address m /\ address m + size m <= MEM_PAGESIZE.
Proof.
  apply (reachable_blocks_follow_layout dlx_heap_constants 7 32
           (heap_array one_block_pcb) 2).
  - lia.
  - simpl. lia.
  - reflexivity.
  - apply one_block_reachable.
  - apply one_block_live_2.
Defined.

(** The root of [one_block_pcb] and its children, nodes 2 and 3. *)
Lemma buddies_halve_parent_witness :
  exists nl nr,
    heap_array one_block_pcb !! 2%nat = Some nl /\
    heap_array one_block_pcb !! 3%nat = Some nr /\
    2%nat = (2 * 1)%nat /\ 3%nat = (2 * 1 + 1)%nat /\
    order nl = order (heap_array one_block_pcb !!! 1%nat) - 1 /\
    order nr = order (heap_array one_block_pcb !!! 1%nat) - 1 /\
    size (heap_array one_block_pcb !!! 1%nat) = 2 * size nl /\ size nr = size nl /\
    address nl = address (heap_array one_block_pcb !!! 1%nat) /\
    address nr = address nl + size nl.
Proof.
  apply (buddies_halve_parent dlx_heap_constants 7 32 (heap_array one_block_pcb) 1
           (heap_array one_block_pcb !!! 1%nat) 2 3).
  - lia.
  - simpl. lia.
  - reflexivity.
  - apply one_block_reachable.
  - apply live_root.
  - vm_compute. reflexivity.
  - vm_compute. reflexivity.
  - vm_compute. reflexivity.
Defined.

(** [malloc(100)] on the fresh heap returns 0x4000, a block of 128 bytes
    that is split off from the root. *)
Lemma malloc_serves_buddy_block_witness :
  32 < 2 * 100 /\
  exists j m,
    live (heap_array (pcb_after (malloc 20 fresh_pcb 100))) j /\
    heap_array (pcb_after (malloc 20 fresh_pcb 100)) !! j = Some (set_inuse 1 m) /\
    free_leaf m /\ 100 <= size m < 2 * 100 /\
    0 <= order m <= 7 /\ size m = 32 * 2 ^ order m /\
    address m = (Z.of_nat j - 2 ^ Z.log2 (Z.of_nat j)) * size m /\
    0 <= address m /\ address m + size m <= MEM_PAGESIZE /\
    0x4000 = 4 * MEM_PAGESIZE + address m /\
    exists a na,
      below a j /\ live (heap_array fresh_pcb) a /\ heap_array fresh_pcb !! a = Some na /\
      free_leaf na /\
      (a = j -> na = m) /\ (a <> j -> ~ live (heap_array fresh_pcb) j) /\
      address na <= address m /\ address m + size m <= address na + size na.
Proof.
  apply (malloc_serves_buddy_block dlx_heap_constants 7 32 12 20 fresh_pcb 100 0x4000
           (pcb_after (malloc 20 fresh_pcb 100))).
  - lia.
  - simpl. lia.
  - reflexivity.
  - lia.
  - reflexivity.
  - apply reach_initial, fresh_heap_initial.
  - vm_compute. reflexivity.
  - discriminate.
Defined.

(** [malloc(64)] after [malloc(32)] leaves node 128, which is in use, as
    it is. *)
Lemma malloc_keeps_used_blocks_witness :
  heap_array two_leaves_pcb !! 128%nat = Some (heap_array small_block_pcb !!! 128%nat) /\
  live (heap_array two_leaves_pcb) 128.
Proof.
  apply (malloc_keeps_used_blocks dlx_heap_constants 7 32 20 small_block_pcb 64 0x4040
           two_leaves_pcb 128 (heap_array small_block_pcb !!! 128%nat)).
  - lia.
  - simpl. lia.
  - reflexivity.
  - apply small_block_reachable.
  - vm_compute. reflexivity.
  - apply small_block_live_128.
  - vm_compute. reflexivity.
  - vm_compute. discriminate.
Defined.

(** [mfree] of 0x4000 on [one_block_pcb] frees node 2 and returns 2048. *)
Lemma mfree_of_live_block_witness :
  exists fuel0 pcb',
    (forall fuel, (fuel0 <= fuel)%nat ->
       mfree fuel one_block_pcb 0x4000
         = Done (size (heap_array one_block_pcb !!! 2%nat), pcb')) /\
    heap_array pcb' !! 2%nat = Some (reset_node (heap_array one_block_pcb !!! 2%nat)) /\
    (forall i, (2 < i)%nat -> heap_array pcb' !! i = heap_array one_block_pcb !! i).
Proof.
  apply (mfree_of_live_block dlx_heap_constants 7 32 12 one_block_pcb 2
           (heap_array one_block_pcb !!! 2%nat) 0x4000).
  - lia.
  - simpl. lia.
  - reflexivity.
  - lia.
  - lia.
  - reflexivity.
  - reflexivity.
  - apply one_block_reachable.
  - apply one_block_live_2.
  - vm_compute. reflexivity.
  - vm_compute. reflexivity.
  - apply no_alias_above. apply (bool_decide_unpack _). vm_compute. exact I.
Defined.

(** In [two_leaves_pcb] node 65 is in use and its sibling, node 64, is
    split with node 128 in use: freeing node 65 makes node 32 a free leaf
    of 128 bytes while node 128 keeps the 32 bytes at 0. *)
Lemma coalescing_frees_parent_over_used_block_witness :
  exists fuel0 h',
    (forall fuel, (fuel0 <= fuel)%nat ->
       MemoryCoalescing fuel (heap_array two_leaves_pcb) (Some 65%nat) = Done h') /\
    h' !! 32%nat = Some (reset_node (heap_array two_leaves_pcb !!! 32%nat)) /\
    free_leaf (reset_node (heap_array two_leaves_pcb !!! 32%nat)) /\
    h' !! 128%nat = Some (heap_array two_leaves_pcb !!! 128%nat) /\
    address (heap_array two_leaves_pcb !!! 32%nat)
      <= address (heap_array two_leaves_pcb !!! 128%nat) /\
    address (heap_array two_leaves_pcb !!! 128%nat)
      + size (heap_array two_leaves_pcb !!! 128%nat)
      <= address (heap_array two_leaves_pcb !!! 32%nat)
         + size (heap_array two_leaves_pcb !!! 32%nat).
Proof.
  apply (coalescing_frees_parent_over_used_block dlx_heap_constants 7 32
           (heap_array two_leaves_pcb) 65 (heap_array two_leaves_pcb !!! 65%nat)
           32 (heap_array two_leaves_pcb !!! 32%nat)
           64 (heap_array two_leaves_pcb !!! 64%nat)
           128 (heap_array two_leaves_pcb !!! 128%nat)).
  - lia.
  - simpl. lia.
  - reflexivity.
  - apply two_leaves_reachable.
  - apply two_leaves_live_65.
  - vm_compute. reflexivity.
  - vm_compute. reflexivity.
  - vm_compute. reflexivity.
  - vm_compute. reflexivity.
  - vm_compute. reflexivity.
  - vm_compute. reflexivity.
  - left. vm_compute. reflexivity.
  - vm_compute. reflexivity.
  - vm_compute. discriminate.
Defined.

(** [mfree] of 0x4000 on [one_block_pcb]. *)
Lemma mfree_only_resets_witness :
  currentSavedFrame (pcb_after (mfree 20 one_block_pcb 0x4000))
    = currentSavedFrame one_block_pcb /\
  pagetable (pcb_after (mfree 20 one_block_pcb 0x4000)) = pagetable one_block_pcb /\
  npages (pcb_after (mfree 20 one_block_pcb 0x4000)) = npages one_block_pcb /\
  (forall i n, heap_array one_block_pcb !! i = Some n ->
     heap_array (pcb_after (mfree 20 one_block_pcb 0x4000)) !! i = Some n \/
     heap_array (pcb_after (mfree 20 one_block_pcb 0x4000)) !! i = Some (reset_node n)) /\
  (mfree_rejects 0x4000 ->
   2048 = MEM_FAIL /\ pcb_after (mfree 20 one_block_pcb 0x4000) = one_block_pcb).
Proof.
  apply (mfree_only_resets 20 one_block_pcb 0x4000 2048
           (pcb_after (mfree 20 one_block_pcb 0x4000))).
  vm_compute. reflexivity.
Defined.

End Concrete_inputs_further.
